(** * Influence estimation and search engine

    Shallow embedding of the acceptance model, the dual-mode A* pathfinder,
    the Monte-Carlo spread estimator and the CELF / CELF++ seed selectors:
      - src/schemas/node.ts, meme.ts, network.ts
      - src/algorithms/propagation.ts
      - src/algorithms/astar-modes.ts
      - src/algorithms/astar.ts
      - src/algorithms/celf/celf-strategy.ts

    Numbers.  A JavaScript [number] is idealised as an exact rational [Q];
    the rounding of IEEE doubles is outside the model.  The [Infinity]
    cost of a failed search is [None] in [option Q].  [NaN] arises in the
    modelled code only from arithmetic on an inherited member of a plain
    object (see Objects); a comparison with it is false, and that is how
    it is modelled wherever it only decides a test.  Counters, budgets and
    array lengths are [nat].

    Objects.  [Set<string>] is the list of its elements in insertion order;
    a [Record<string, number>] that the code enumerates is the list of its
    entries, one that it only reads and writes by key is a [gmap].  Both
    hold the own entries of a plain object; a read [obj[key]] goes through
    [JS.get] or [JS.member], which also find the members a plain object
    inherits from [Object.prototype].  The one place where such a read
    makes [NaN] the result of a function is the [directTrust] lookup of the
    two heuristics, for a target whose id names an inherited member that
    is no own entry of the current node: no rational stands for that
    result, the definitions mark the case, and statements about the
    heuristics exclude it.  The graph object that every function receives
    by reference lives in an explicit [World], together with the random
    source.

    Loops.  A [while] loop takes its number of iterations from a [fuel]
    argument and yields [None] when the fuel runs out. *)

From Stdlib Require Import QArith Qabs Lqa Lia List Bool Arith.
From stdpp Require Import base strings gmap.
Import ListNotations.

(* ------------------------------------------------------------------ *)
(** ** JavaScript numeric primitives on rationals *)

Module JS.
Local Open Scope Q_scope.

(** [a < b] on numbers. *)
Definition ltb (a b : Q) : bool := negb (Qle_bool b a).

(** [a < b] where [b] may be [NaN], written [None]. *)
Definition ltb_nan (a : Q) (b : option Q) : bool :=
  match b with
  | Some b => ltb a b
  | None => false
  end.

(** [Math.max(a, b)], [Math.min(a, b)], [Math.abs(a)]. *)
Definition max (a b : Q) : Q := if Qle_bool a b then b else a.
Definition min (a b : Q) : Q := if Qle_bool a b then a else b.
Definition abs (a : Q) : Q := Qabs a.

(** Truthiness of a string: the empty string is falsy. *)
Definition truthy (s : string) : bool :=
  match s with EmptyString => false | _ => true end.

(** [Array.prototype.sort(cmp)]: a stable sort; [cmp a b <= 0] keeps [a]
    in front of [b]. *)
Fixpoint sort_insert {A} (cmp : A -> A -> Q) (x : A) (l : list A) : list A :=
  match l with
  | [] => [x]
  | y :: l' => if Qle_bool (cmp x y) 0 then x :: y :: l'
               else y :: sort_insert cmp x l'
  end.

Fixpoint sort {A} (cmp : A -> A -> Q) (l : list A) : list A :=
  match l with
  | [] => []
  | x :: l' => sort_insert cmp x (sort cmp l')
  end.

(** [Set.prototype.has] and [Set.prototype.add] on a [Set<string>], kept
    as the list of its elements in insertion order ([Array.from]). *)
Definition set_has (s : list string) (x : string) : bool :=
  existsb (String.eqb x) s.
Definition set_add (s : list string) (x : string) : list string :=
  if set_has s x then s else s ++ [x].

(** The own entry for [key] of a [Record<string, number>] given by its
    entries in [Object.entries] order. *)
Fixpoint prop_get (o : list (string * Q)) (k : string) : option Q :=
  match o with
  | [] => None
  | (k', v) :: o' => if String.eqb k' k then Some v else prop_get o' k
  end.

(** The string-keyed members of [Object.prototype], which every plain
    object ([{}], an object literal, the result of [JSON.parse]) inherits. *)
Definition Object_prototype : list string :=
  ["constructor"; "__defineGetter__"; "__defineSetter__"; "hasOwnProperty";
   "__lookupGetter__"; "__lookupSetter__"; "isPrototypeOf";
   "propertyIsEnumerable"; "toString"; "valueOf"; "__proto__";
   "toLocaleString"].

Definition inherited (k : string) : bool :=
  existsb (String.eqb k) Object_prototype.

(** What [obj[key]] evaluates to on a plain object with numeric entries: the
    own entry when there is one, else the inherited member (a function, or
    the prototype object for [__proto__]), else [undefined]. *)
Inductive Value :=
  | Number (q : Q)
  | Inherited
  | Undefined.

Definition member (own : option Q) (k : string) : Value :=
  match own with
  | Some v => Number v
  | None => if inherited k then Inherited else Undefined
  end.

Definition get (o : list (string * Q)) (k : string) : Value :=
  member (prop_get o k) k.

(** [v !== undefined]. *)
Definition defined (v : Value) : bool :=
  match v with Undefined => false | _ => true end.
End JS.

(* ------------------------------------------------------------------ *)
(** ** Schemas *)

Inductive NodeState := susceptible | exposed | infected | resistant.

Inductive IdentityClass :=
  | urban_professional | university_student | rural_traditional
  | suburban_family | tech_worker.

Definition IdentityClass_eqb (a b : IdentityClass) : bool :=
  match a, b with
  | urban_professional, urban_professional
  | university_student, university_student
  | rural_traditional, rural_traditional
  | suburban_family, suburban_family
  | tech_worker, tech_worker => true
  | _, _ => false
  end.

Record NodeAttributes := {
  political_leaning : Q;
  emotional_susceptibility : Q;
  critical_thinking : Q;
  education_level : Q;
  social_activity : Q
}.

Module Node.
Record t := {
  id : string;
  identity_class : IdentityClass;
  attributes : NodeAttributes;
  trust_network : list (string * Q);
  current_beliefs : list string;
  exposure_history : list string;
  state : NodeState
  }.
End Node.

Record MemeAttributes := {
  political_bias : Q;
  emotional_intensity : Q;
  factual_accuracy : Q;
  complexity : Q;
  virality_factor : Q;
  source_credibility : Q
}.

Module Meme.
Record t := {
  id : string;
  attributes : MemeAttributes;
  generation : nat;
  parent_id : option string
  }.
End Meme.

Record Edge := {
  source : string;
  target : string;
  trust_weight : Q
}.

Record Network := {
  nodes : list Node.t;
  edges : list Edge
}.

(** Documented attribute ranges (the comments of the schema files). *)
Definition node_in_range (n : Node.t) : Prop :=
  let a := Node.attributes n in
  (-1 <= political_leaning a <= 1 /\
   0 <= emotional_susceptibility a <= 1 /\
   0 <= critical_thinking a <= 1 /\
   0 <= education_level a <= 1 /\
   0 <= social_activity a <= 1)%Q.

Definition meme_in_range (m : Meme.t) : Prop :=
  let a := Meme.attributes m in
  (-1 <= political_bias a <= 1 /\
   0 <= emotional_intensity a <= 1 /\
   0 <= factual_accuracy a <= 1 /\
   0 <= complexity a <= 1 /\
   0 <= virality_factor a <= 1 /\
   0 <= source_credibility a <= 1)%Q.

(* ------------------------------------------------------------------ *)
(** ** propagation.ts: the acceptance model *)

Section Propagation.
Local Open Scope Q_scope.

Definition clamp (value min max : Q) : Q :=
  JS.max min (JS.min max value).

Definition calculateAcceptanceProbability
    (node : Node.t) (meme : Meme.t) (sourceNode : Node.t) (trustWeight : Q) : Q :=
  let BASE_RECEPTIVITY := 0.3 in
  let trustFactor := trustWeight in
  let politicalDistance :=
    JS.abs (political_leaning (Node.attributes node)
            - political_bias (Meme.attributes meme)) in
  let politicalAlignment := 1 - politicalDistance in
  let criticalThinkingPenalty :=
    if JS.ltb (factual_accuracy (Meme.attributes meme)) 0.5
    then critical_thinking (Node.attributes node)
         * (1 - factual_accuracy (Meme.attributes meme))
    else 0 in
  let alignmentScore := politicalAlignment * (1 - criticalThinkingPenalty) in
  let viralityBoost :=
    1 + (virality_factor (Meme.attributes meme)
         * emotional_susceptibility (Node.attributes node)) in
  let probability :=
    BASE_RECEPTIVITY * trustFactor * alignmentScore * viralityBoost in
  clamp probability 0.05 0.95.

Definition calculateTransmissionProbability
    (node : Node.t) (meme : Meme.t) (daysSinceInfected : Q) : Q :=
  let noveltyFactor := JS.max 0.3 (1 - (daysSinceInfected / 7)) in
  let probability :=
    social_activity (Node.attributes node)
    * virality_factor (Meme.attributes meme)
    * (1 + emotional_intensity (Meme.attributes meme) * 0.5)
    * noveltyFactor in
  clamp probability 0.0 1.0.
End Propagation.

(* ------------------------------------------------------------------ *)
(** ** astar-modes.ts: edge costs and heuristics of the two modes *)

Inductive AStarMode := social_trust | meme_trust.

Section AStarModes.
Local Open Scope Q_scope.

(** MODE 1: pure social trust. *)
Definition calculateSocialTrustCost
    (sourceNode targetNode : Node.t) (trustWeight : Q) : Q :=
  let baseCost := 1 - trustWeight in
  let identitySimilarity :=
    if IdentityClass_eqb (Node.identity_class sourceNode)
                         (Node.identity_class targetNode)
    then 0.8 else 1.0 in
  let politicalDistance :=
    JS.abs (political_leaning (Node.attributes sourceNode)
            - political_leaning (Node.attributes targetNode)) in
  let politicalFactor := 1 + (politicalDistance * 0.3) in
  let activityFactor :=
    1 - (social_activity (Node.attributes targetNode) * 0.2) in
  let totalCost :=
    baseCost * identitySimilarity * politicalFactor * activityFactor in
  JS.max 0.05 (JS.min 2.0 totalCost).

(** MODE 2: meme trust. *)
Definition calculateMemeTrustCost
    (node : Node.t) (meme : Meme.t) (sourceNode : Node.t) (trustWeight : Q) : Q :=
  let BASE_RECEPTIVITY := 0.3 in
  let trustFactor := trustWeight in
  let politicalDistance :=
    JS.abs (political_leaning (Node.attributes node)
            - political_bias (Meme.attributes meme)) in
  let politicalAlignment := 1 - politicalDistance in
  let criticalThinkingPenalty :=
    if JS.ltb (factual_accuracy (Meme.attributes meme)) 0.5
    then critical_thinking (Node.attributes node)
         * (1 - factual_accuracy (Meme.attributes meme))
    else 0 in
  let complexityPenalty :=
    JS.abs (complexity (Meme.attributes meme)
            - education_level (Node.attributes node)) * 0.3 in
  let credibilityFactor :=
    0.7 + (source_credibility (Meme.attributes meme) * 0.3) in
  let alignmentScore :=
    politicalAlignment * (1 - criticalThinkingPenalty) * (1 - complexityPenalty) in
  let viralityBoost :=
    1 + (virality_factor (Meme.attributes meme)
         * emotional_susceptibility (Node.attributes node)) in
  let acceptanceProbability :=
    BASE_RECEPTIVITY * trustFactor * alignmentScore * viralityBoost
    * credibilityFactor in
  let clampedProb := JS.max 0.05 (JS.min 0.95 acceptanceProbability) in
  let cost := 1 - clampedProb in
  cost.

(** Heuristic for MODE 1.  The [network] parameter of the source is
    unused by its body and is kept for the signature.  When [directTrust]
    is an inherited member, [(1 - directTrust) * 0.5] and the result are
    [NaN] in the source, which [Q] does not have; the branch holds the cost
    of a missing connection in its place. *)
Definition socialTrustHeuristic
    (currentNode targetNode : Node.t) (network : Network) : Q :=
  let identityDistance :=
    if IdentityClass_eqb (Node.identity_class currentNode)
                         (Node.identity_class targetNode)
    then 0 else 0.5 in
  let politicalDistance :=
    JS.abs (political_leaning (Node.attributes currentNode)
            - political_leaning (Node.attributes targetNode)) in
  let politicalCost := politicalDistance * 0.5 in
  let directTrust :=
    JS.get (Node.trust_network currentNode) (Node.id targetNode) in
  let connectionCost :=
    match directTrust with
    | JS.Number directTrust => (1 - directTrust) * 0.5
    | JS.Undefined => 1.0
    | JS.Inherited => 1.0   (* NaN in the source *)
    end in
  let activityCost :=
    (1 - social_activity (Node.attributes targetNode)) * 0.3 in
  identityDistance + politicalCost + connectionCost + activityCost.

(** Heuristic for MODE 2; an inherited [directTrust] as in mode 1. *)
Definition memeTrustHeuristic
    (currentNode targetNode : Node.t) (meme : Meme.t) (network : Network) : Q :=
  let targetMemeAlignment :=
    JS.abs (political_leaning (Node.attributes targetNode)
            - political_bias (Meme.attributes meme)) in
  let alignmentCost := targetMemeAlignment * 1.5 in
  let criticalBarrier :=
    if JS.ltb (factual_accuracy (Meme.attributes meme)) 0.5
    then critical_thinking (Node.attributes targetNode) * 0.8
    else 0 in
  let complexityMismatch :=
    JS.abs (complexity (Meme.attributes meme)
            - education_level (Node.attributes targetNode)) * 0.4 in
  let emotionalResistance :=
    (1 - emotional_susceptibility (Node.attributes targetNode))
    * (1 - virality_factor (Meme.attributes meme)) * 0.3 in
  let directTrust :=
    JS.get (Node.trust_network currentNode) (Node.id targetNode) in
  let socialCost :=
    match directTrust with
    | JS.Number directTrust => (1 - directTrust) * 0.3
    | JS.Undefined => 0.8
    | JS.Inherited => 0.8   (* NaN in the source *)
    end in
  alignmentCost + criticalBarrier + complexityMismatch
  + emotionalResistance + socialCost.
End AStarModes.

(* ------------------------------------------------------------------ *)
(** ** The acceptance model as the specification words it (section 4.1) *)

Module AcceptanceSpec.
Local Open Scope Q_scope.

(** Mathematical clamp to the interval [lo, hi]. *)
Definition clamp (x lo hi : Q) : Q :=
  if Qlt_le_dec x lo then lo else if Qlt_le_dec hi x then hi else x.

Definition criticalPenalty (node : Node.t) (meme : Meme.t) : Q :=
  if Qlt_le_dec (factual_accuracy (Meme.attributes meme)) 0.5
  then critical_thinking (Node.attributes node)
       * (1 - factual_accuracy (Meme.attributes meme))
  else 0.

Definition alignmentScore (node : Node.t) (meme : Meme.t) : Q :=
  (1 - Qabs (political_leaning (Node.attributes node)
             - political_bias (Meme.attributes meme)))
  * (1 - criticalPenalty node meme).

Definition viralityBoost (node : Node.t) (meme : Meme.t) : Q :=
  1 + virality_factor (Meme.attributes meme)
      * emotional_susceptibility (Node.attributes node).

Definition credibilityFactor (meme : Meme.t) : Q :=
  0.7 + 0.3 * source_credibility (Meme.attributes meme).

Definition complexityPenalty (node : Node.t) (meme : Meme.t) : Q :=
  Qabs (complexity (Meme.attributes meme)
        - education_level (Node.attributes node)) * 0.3.

(** Steps 8 and 9 of section 4.1: the raw product with the credibility
    factor, clamped. *)
Definition acceptanceProbability (node : Node.t) (meme : Meme.t)
    (sourceNode : Node.t) (trustWeight : Q) : Q :=
  clamp (0.3 * trustWeight * alignmentScore node meme
         * viralityBoost node meme * credibilityFactor meme) 0.05 0.95.
End AcceptanceSpec.

(* ------------------------------------------------------------------ *)
(** ** Sample data used by the concrete evaluations *)

Module Sample.
Local Open Scope Q_scope.

Definition attrs (pl es ct ed sa : Q) : NodeAttributes :=
  {| political_leaning := pl; emotional_susceptibility := es;
     critical_thinking := ct; education_level := ed; social_activity := sa |}.

Definition person (i : string) (c : IdentityClass) (a : NodeAttributes)
    (tn : list (string * Q)) : Node.t :=
  {| Node.id := i; Node.identity_class := c; Node.attributes := a;
     Node.trust_network := tn; Node.current_beliefs := [];
     Node.exposure_history := []; Node.state := susceptible |}.

Definition content (pb ei fa cx vf sc : Q) : Meme.t :=
  {| Meme.id := "m"; Meme.generation := 0; Meme.parent_id := None;
     Meme.attributes :=
       {| political_bias := pb; emotional_intensity := ei;
          factual_accuracy := fa; complexity := cx;
          virality_factor := vf; source_credibility := sc |} |}.

(** A centrist with no schooling, and the "neutral" preset with a complex
    text. *)
Definition plain : Node.t := person "p" suburban_family (attrs 0 0 0 0 0.5) [].
Definition neutral : Meme.t := content 0 0.5 0.5 1 0.5 0.5.
End Sample.


(* ------------------------------------------------------------------ *)
(** ** The caller's heap

    A [Network] is passed to every function of the engine by reference.
    The embedding makes that explicit: the graph instance lives in a
    [World] that is threaded through every call, next to the process-wide
    random source behind [Math.random] and a counter of the
    [estimateSpread] invocations made so far (instrumentation only).  The
    [network] parameter of the source functions is the reference to
    [graph]. *)

Record World := {
  graph : Network;
  random_draws : nat -> Q;   (* successive results of Math.random() *)
  random_next : nat;         (* how many of them have been consumed *)
  spread_calls : nat
}.

Definition M (A : Type) : Type := World -> A * World.

Definition ret {A} (a : A) : M A := fun w => (a, w).

Definition bind {A B} (m : M A) (k : A -> M B) : M B :=
  fun w => let (a, w') := m w in k a w'.

Declare Scope heap_scope.
Delimit Scope heap_scope with heap.
Notation "x <- m ;; k" := (bind m (fun x => k))
  (at level 100, m at next level, right associativity) : heap_scope.
Notation "m ;;; k" := (bind m (fun _ => k))
  (at level 100, right associativity) : heap_scope.
Local Open Scope heap_scope.

(** Reading the graph object. *)
Definition readGraph : M Network := fun w => (graph w, w).

(** [Math.random()]. *)
Definition Math_random : M Q :=
  fun w => (random_draws w (random_next w),
            {| graph := graph w; random_draws := random_draws w;
               random_next := S (random_next w);
               spread_calls := spread_calls w |}).

Definition countSpreadCall : M unit :=
  fun w => (tt,
            {| graph := graph w; random_draws := random_draws w;
               random_next := random_next w;
               spread_calls := S (spread_calls w) |}).

(** [network.nodes.find(n => n.id === nodeId)]. *)
Definition findNode (nodeId : string) : M (option Node.t) :=
  network <- readGraph ;;
  ret (List.find (fun n => String.eqb (Node.id n) nodeId) (nodes network)).

(** propagation.ts, [getNeighbors]. *)
Definition getNeighbors (nodeId : string) : M (list Node.t) :=
  node <- findNode nodeId ;;
  match node with
  | None => ret []
  | Some node =>
      network <- readGraph ;;
      ret (List.filter (fun n =>
                     JS.defined (JS.get (Node.trust_network node) (Node.id n)))
                   (nodes network))
  end.

(* ------------------------------------------------------------------ *)
(** ** propagation.ts: the simulation step, the one writer of the graph

    [simulatePropagationStep] is the routine of the repository that does
    change node objects ([state], [exposure_history], [current_beliefs]).
    A node object is identified by its position in [network.nodes]; the
    [currentlyInfected] argument is a list of such references. *)

Definition readNode (ref : nat) : M (option Node.t) :=
  network <- readGraph ;;
  ret (nodes network !! ref).

Definition writeNode (ref : nat) (f : Node.t -> Node.t) : M unit :=
  fun w => (tt,
            {| graph := {| nodes := alter f ref (nodes (graph w));
                           edges := edges (graph w) |};
               random_draws := random_draws w;
               random_next := random_next w;
               spread_calls := spread_calls w |}).

Definition isSusceptible (s : NodeState) : bool :=
  match s with susceptible => true | _ => false end.

(** [neighbor.state = 'exposed'; neighbor.exposure_history.push(meme.id)]. *)
Definition markExposed (memeId : string) (n : Node.t) : Node.t :=
  {| Node.id := Node.id n; Node.identity_class := Node.identity_class n;
     Node.attributes := Node.attributes n;
     Node.trust_network := Node.trust_network n;
     Node.current_beliefs := Node.current_beliefs n;
     Node.exposure_history := Node.exposure_history n ++ [memeId];
     Node.state := exposed |}.

(** [neighbor.state = 'infected'; neighbor.current_beliefs.push(meme.id)]. *)
Definition markInfected (memeId : string) (n : Node.t) : Node.t :=
  {| Node.id := Node.id n; Node.identity_class := Node.identity_class n;
     Node.attributes := Node.attributes n;
     Node.trust_network := Node.trust_network n;
     Node.current_beliefs := Node.current_beliefs n ++ [memeId];
     Node.exposure_history := Node.exposure_history n;
     Node.state := infected |}.

Module Transmission.
Record t := {
  from : string;
  to : string;
  accepted : bool
}.
End Transmission.

Record PropagationStepResult := {
  newInfections : list nat;
  transmissions : list Transmission.t
}.

(** [network.nodes.filter(n => infectedNode.trust_network[n.id] !==
    undefined)], as references. *)
Fixpoint neighborRefs (infectedNode : Node.t) (ref : nat) (l : list Node.t)
    : list nat :=
  match l with
  | [] => []
  | n :: l' =>
      if JS.defined (JS.get (Node.trust_network infectedNode) (Node.id n))
      then ref :: neighborRefs infectedNode (S ref) l'
      else neighborRefs infectedNode (S ref) l'
  end.

(** [for (const neighbor of neighbors)].  When [trustWeight] is not a number
    (the neighbour's id names an inherited member and is no own entry),
    [pAccept] is [NaN]. *)
Fixpoint transmitTo (meme : Meme.t) (infectedNode : Node.t)
    (neighbors : list nat) (acc : PropagationStepResult)
    : M PropagationStepResult :=
  match neighbors with
  | [] => ret acc
  | ref :: neighbors' =>
      neighbor <- readNode ref ;;
      match neighbor with
      | None => transmitTo meme infectedNode neighbors' acc   (* not reached *)
      | Some neighbor =>
          if negb (isSusceptible (Node.state neighbor))
          then transmitTo meme infectedNode neighbors' acc
          else
            let trustWeight :=
              JS.get (Node.trust_network infectedNode) (Node.id neighbor) in
            (if negb (existsb (String.eqb (Meme.id meme))
                              (Node.exposure_history neighbor))
             then writeNode ref (markExposed (Meme.id meme))
             else ret tt) ;;;
            let pAccept :=
              match trustWeight with
              | JS.Number trustWeight =>
                  Some (calculateAcceptanceProbability neighbor meme
                          infectedNode trustWeight)
              | _ => None
              end in
            r <- Math_random ;;
            let accepted := JS.ltb_nan r pAccept in
            (if accepted then writeNode ref (markInfected (Meme.id meme))
             else ret tt) ;;;
            transmitTo meme infectedNode neighbors'
              {| newInfections :=
                   newInfections acc ++ (if accepted then [ref] else []);
                 transmissions :=
                   transmissions acc ++
                   [{| Transmission.from := Node.id infectedNode;
                       Transmission.to := Node.id neighbor;
                       Transmission.accepted := accepted |}] |}
      end
  end.

(** [for (const infectedNode of currentlyInfected)]. *)
Fixpoint transmitFrom (meme : Meme.t) (currentStep : Q)
    (currentlyInfected : list nat) (acc : PropagationStepResult)
    : M PropagationStepResult :=
  match currentlyInfected with
  | [] => ret acc
  | ref :: rest =>
      infectedNode <- readNode ref ;;
      match infectedNode with
      | None => transmitFrom meme currentStep rest acc   (* dangling reference *)
      | Some infectedNode =>
          let pTransmit :=
            calculateTransmissionProbability infectedNode meme currentStep in
          r <- Math_random ;;
          acc' <- (if JS.ltb r pTransmit then
                     network <- readGraph ;;
                     transmitTo meme infectedNode
                       (neighborRefs infectedNode 0 (nodes network)) acc
                   else ret acc) ;;
          transmitFrom meme currentStep rest acc'
      end
  end.

Definition simulatePropagationStep (currentlyInfected : list nat)
    (meme : Meme.t) (currentStep : Q) : M PropagationStepResult :=
  transmitFrom meme currentStep currentlyInfected
    {| newInfections := []; transmissions := [] |}.

(* ------------------------------------------------------------------ *)
(** ** astar.ts: the pathfinder *)

Module PriorityQueue.
(** [items], kept sorted by [push]. *)
Definition t (T : Type) : Type := list (Q * T).

Definition push {T} (priority : Q) (item : T) (items : t T) : t T :=
  JS.sort (fun a b => (fst a - fst b)%Q) (items ++ [(priority, item)]).

Definition pop {T} (items : t T) : option T * t T :=
  match items with
  | [] => (None, [])
  | x :: items' => (Some (snd x), items')
  end.

Definition isEmpty {T} (items : t T) : bool :=
  match items with [] => true | _ => false end.
End PriorityQueue.

(** The entries of the open set. *)
Record OpenItem := {
  nodeId : string;
  path : list string;
  gScore : Q
}.

Module AStarFrame.
Record t := {
  step : nat;
  currentNode : string;
  openSet : list string;
  closedSet : list string;
  path : list string;
  gScores : gmap string Q;
  fScores : gmap string Q;
  message : string
}.
End AStarFrame.

(** [pathExplanations], a list of texts formatted with [toFixed], is left
    out of the result. *)
Module AStarResult.
Record t := {
  success : bool;
  path : list string;
  cost : option Q;          (* [None] is [Infinity] *)
  exploredCount : nat;
  frames : list AStarFrame.t;
  mode : AStarMode
}.
End AStarResult.

Definition calculateHeuristic
    (currentNode targetNode : Node.t) (meme : Meme.t) (network : Network)
    (mode : AStarMode) : Q :=
  match mode with
  | social_trust => socialTrustHeuristic currentNode targetNode network
  | meme_trust => memeTrustHeuristic currentNode targetNode meme network
  end.

(** The local variables of [astarInfluencePath] that the loop updates. *)
Record SearchState := {
  openSet : PriorityQueue.t OpenItem;
  gScores : gmap string Q;
  fScores : gmap string Q;
  frames : list AStarFrame.t;
  closedSet : list string;
  step : nat
}.

(** Body of [for (const neighbor of neighbors)].  [gScores] is an object
    literal, so [gScores[neighbor.id]] is read with [JS.member]: for an id
    that names an inherited member and has no own score it is a function,
    which is not [undefined] and with which [tentativeGScore < _] is false.
    When [trustWeight] itself is such a member, [tentativeGScore] is [NaN],
    [gScores[neighbor.id]] is a score or again an inherited member, and the
    test is false as well. *)
Definition expandNeighbor
    (network : Network) (targetNode : Node.t) (meme : Meme.t) (mode : AStarMode)
    (current : OpenItem) (currentNode : Node.t)
    (s : SearchState) (neighbor : Node.t) : SearchState :=
  if JS.set_has (closedSet s) (Node.id neighbor) then s
  else
    match JS.get (Node.trust_network currentNode) (Node.id neighbor) with
    | JS.Undefined =>
        s   (* not reached: getNeighbors keeps the nodes with a weight *)
    | JS.Inherited => s
    | JS.Number trustWeight =>
        let stepCost :=
          match mode with
          | social_trust =>
              calculateSocialTrustCost currentNode neighbor trustWeight
          | meme_trust =>
              calculateMemeTrustCost neighbor meme currentNode trustWeight
          end in
        let tentativeGScore := (gScore current + stepCost)%Q in
        if match JS.member (gScores s !! Node.id neighbor)
                              (Node.id neighbor) with
           | JS.Undefined => true
           | JS.Inherited => false
           | JS.Number g => JS.ltb tentativeGScore g
           end
        then
          let hScore := calculateHeuristic neighbor targetNode meme network mode in
          let fScore := (tentativeGScore + hScore)%Q in
          let newPath := path current ++ [Node.id neighbor] in
          {| openSet :=
               PriorityQueue.push fScore
                 {| nodeId := Node.id neighbor; path := newPath;
                    gScore := tentativeGScore |} (openSet s);
             gScores := <[Node.id neighbor := tentativeGScore]> (gScores s);
             fScores := <[Node.id neighbor := fScore]> (fScores s);
             frames := frames s;
             closedSet := closedSet s;
             step := step s |}
        else s
    end.

Definition failure (exploredCount : nat) (frames : list AStarFrame.t)
    (mode : AStarMode) : AStarResult.t :=
  {| AStarResult.success := false; AStarResult.path := [];
     AStarResult.cost := None; AStarResult.exploredCount := exploredCount;
     AStarResult.frames := frames; AStarResult.mode := mode |}.

(** [frames.push({...})] of one iteration. *)
Definition recordFrame (s : SearchState) (current : OpenItem) : list AStarFrame.t :=
  frames s ++
  [{| AStarFrame.step := step s;
      AStarFrame.currentNode := nodeId current;
      AStarFrame.openSet := [];
      AStarFrame.closedSet := closedSet s;
      AStarFrame.path := path current;
      AStarFrame.gScores := gScores s;
      AStarFrame.fScores := fScores s;
      AStarFrame.message := String.append "Exploring node " (nodeId current) |}].

(** The loop variables after [openSet.pop()], [frames.push], [step++] and
    [closedSet.add(current.nodeId)]. *)
Definition closeCurrent (s : SearchState) (current : OpenItem)
    (rest : PriorityQueue.t OpenItem) : SearchState :=
  {| openSet := rest;
     gScores := gScores s;
     fScores := fScores s;
     frames := recordFrame s current;
     closedSet := JS.set_add (closedSet s) (nodeId current);
     step := S (step s) |}.

(** The whole [for] loop over the neighbours.  [currentNode] is the result
    of [find]; when it is [undefined] the list of neighbours is empty and
    the body never runs. *)
Definition expandNeighbors
    (network : Network) (targetNode : Node.t) (meme : Meme.t) (mode : AStarMode)
    (current : OpenItem) (currentNode : option Node.t)
    (neighbors : list Node.t) (s : SearchState) : SearchState :=
  match currentNode with
  | Some currentNode =>
      fold_left (expandNeighbor network targetNode meme mode current currentNode)
                neighbors s
  | None => s
  end.

(** [while (!openSet.isEmpty())], one iteration per unit of fuel; [None]
    when the fuel runs out before the loop ends. *)
Fixpoint searchLoop (fuel : nat)
    (targetNode : Node.t) (targetNodeId : string) (meme : Meme.t)
    (mode : AStarMode) (s : SearchState) : M (option AStarResult.t) :=
  match fuel with
  | O => ret None
  | S fuel =>
      match PriorityQueue.pop (openSet s) with
      | (None, _) =>
          ret (Some (failure (length (closedSet s)) (frames s) mode))
      | (Some current, rest) =>
          currentNode <- findNode (nodeId current) ;;
          if String.eqb (nodeId current) targetNodeId then
            ret (Some {| AStarResult.success := true;
                         AStarResult.path := path current;
                         AStarResult.cost := Some (gScore current);
                         AStarResult.exploredCount := length (closedSet s);
                         AStarResult.frames := recordFrame s current;
                         AStarResult.mode := mode |})
          else
            neighbors <- getNeighbors (nodeId current) ;;
            network <- readGraph ;;
            searchLoop fuel targetNode targetNodeId meme mode
              (expandNeighbors network targetNode meme mode current currentNode
                 neighbors (closeCurrent s current rest))
      end
  end.

Definition astarInfluencePath (fuel : nat)
    (startNodeId targetNodeId : string) (meme : Meme.t) (mode : AStarMode)
    : M (option AStarResult.t) :=
  startNode <- findNode startNodeId ;;
  targetNode <- findNode targetNodeId ;;
  match startNode, targetNode with
  | Some startNode, Some targetNode =>
      network <- readGraph ;;
      let s0 :=
        {| openSet :=
             PriorityQueue.push 0
               {| nodeId := startNodeId; path := [startNodeId]; gScore := 0 |} [];
           gScores := {[ startNodeId := 0%Q ]};
           fScores := {[ startNodeId :=
                           calculateHeuristic startNode targetNode meme network mode ]};
           frames := [];
           closedSet := [];
           step := 0 |} in
      searchLoop fuel targetNode targetNodeId meme mode s0
  | _, _ => ret (Some (failure 0 [] mode))
  end.

(* ------------------------------------------------------------------ *)
(** ** celf/celf-strategy.ts: spread estimation and seed selection

    Every loop whose length is not a structural bound takes its number of
    iterations from [fuel]; a computation that runs out of fuel yields
    [None]. *)

Definition bindO {A B} (m : M (option A)) (k : A -> M (option B)) : M (option B) :=
  bind m (fun r => match r with
                   | Some a => k a
                   | None => ret None
                   end).

Notation "x <-? m ;; k" := (bindO m (fun x => k))
  (at level 100, m at next level, right associativity) : heap_scope.

Module CELFNode.
Record t := {
  nodeId : string;
  mg1 : Q;                    (* marginal gain w.r.t. the current seed set *)
  prevBest : option string;   (* [None] is [null] *)
  mg2 : Q;
  flag : nat
}.
End CELFNode.

Section WithFuel.
Variable fuel : nat.

(** [for (const [neighborId, trustWeight] of Object.entries(...))] of one
    dequeued node. *)
Fixpoint tryNeighbors (meme : Meme.t) (currentNode : Node.t)
    (entries : list (string * Q)) (infected queue : list string)
    : M (list string * list string) :=
  match entries with
  | [] => ret (infected, queue)
  | (neighborId, trustWeight) :: entries' =>
      if JS.set_has infected neighborId
      then tryNeighbors meme currentNode entries' infected queue
      else
        neighbor <- findNode neighborId ;;
        match neighbor with
        | None => tryNeighbors meme currentNode entries' infected queue
        | Some neighbor =>
            let acceptanceProb :=
              calculateAcceptanceProbability neighbor meme currentNode trustWeight in
            r <- Math_random ;;
            if JS.ltb r acceptanceProb
            then tryNeighbors meme currentNode entries'
                   (JS.set_add infected neighborId) (queue ++ [neighborId])
            else tryNeighbors meme currentNode entries' infected queue
        end
  end.

(** [while (queue.length > 0)]: one Monte-Carlo cascade; the result is the
    final [infected] set. *)
Fixpoint cascadeLoop (n : nat) (meme : Meme.t) (infected queue : list string)
    : M (option (list string)) :=
  match queue with
  | [] => ret (Some infected)
  | currentId :: queue' =>
      match n with
      | O => ret None
      | S n' =>
          currentNode <- findNode currentId ;;
          match currentNode with
          | None => cascadeLoop n' meme infected queue'
          | Some currentNode =>
              st <- tryNeighbors meme currentNode
                      (Node.trust_network currentNode) infected queue' ;;
              cascadeLoop n' meme (fst st) (snd st)
          end
      end
  end.

(** The body of [for (let sim = 0; ...)]: [infected = new Set(seedSet)],
    [queue = Array.from(seedSet)]. *)
Definition simulateCascade (meme : Meme.t) (seedSet : list string)
    : M (option (list string)) :=
  cascadeLoop fuel meme seedSet seedSet.

Fixpoint simulationLoop (meme : Meme.t) (seedSet : list string)
    (simulations : nat) (totalSpread : nat) : M (option nat) :=
  match simulations with
  | O => ret (Some totalSpread)
  | S simulations' =>
      infected <-? simulateCascade meme seedSet ;;
      simulationLoop meme seedSet simulations' (totalSpread + length infected)
  end.

(** [simulations] is at least 1 wherever the result is used: with 0 the
    source divides 0 by 0. *)
Definition estimateSpread (seedSet : list string) (meme : Meme.t)
    (simulations : nat) : M (option Q) :=
  countSpreadCall ;;;
  totalSpread <-? simulationLoop meme seedSet simulations 0 ;;
  ret (Some (inject_Z (Z.of_nat totalSpread)
             / inject_Z (Z.of_nat simulations))%Q).

Definition calculateMarginalGain (seedSet : list string) (nodeId : string)
    (meme : Meme.t) (simulations : nat) : M (option Q) :=
  spreadWithout <-? estimateSpread seedSet meme simulations ;;
  let newSeedSet := JS.set_add seedSet nodeId in
  spreadWith <-? estimateSpread newSeedSet meme simulations ;;
  ret (Some (spreadWith - spreadWithout)%Q).

(** [Q.sort((a, b) => b.mg1 - a.mg1)]. *)
Definition sortByGain (Q : list CELFNode.t) : list CELFNode.t :=
  JS.sort (fun a b => (CELFNode.mg1 b - CELFNode.mg1 a)%Q) Q.

(** *** CELF *)

(** Initialisation: [for (const node of network.nodes)]. *)
Fixpoint celfInit (meme : Meme.t) (simulations : nat) (seedSet : list string)
    (todo : list Node.t) (Q : list CELFNode.t) : M (option (list CELFNode.t)) :=
  match todo with
  | [] => ret (Some Q)
  | node :: todo' =>
      match Node.state node with
      | susceptible =>
          mg <-? calculateMarginalGain seedSet (Node.id node) meme simulations ;;
          celfInit meme simulations seedSet todo'
            (Q ++ [{| CELFNode.nodeId := Node.id node; CELFNode.mg1 := mg;
                      CELFNode.prevBest := None; CELFNode.mg2 := 0;
                      CELFNode.flag := 0 |}])
      | _ => celfInit meme simulations seedSet todo' Q
      end
  end.

(** The loop variables of the selection loops. *)
Record Selection := {
  seeds : list string;
  seedSet : list string;
  queue : list CELFNode.t
}.

(** Inner [while (Q.length > 0)], left by [break] after a seed is picked. *)
Fixpoint celfPick (n : nat) (meme : Meme.t) (simulations : nat)
    (s : Selection) : M (option Selection) :=
  match queue s with
  | [] => ret (Some s)
  | u :: rest =>
      match n with
      | O => ret None
      | S n' =>
          if Nat.eqb (CELFNode.flag u) (length (seeds s)) then
            ret (Some {| seeds := seeds s ++ [CELFNode.nodeId u];
                         seedSet := JS.set_add (seedSet s) (CELFNode.nodeId u);
                         queue := rest |})
          else
            mg <-? calculateMarginalGain (seedSet s) (CELFNode.nodeId u)
                     meme simulations ;;
            let u' := {| CELFNode.nodeId := CELFNode.nodeId u;
                         CELFNode.mg1 := mg;
                         CELFNode.prevBest := CELFNode.prevBest u;
                         CELFNode.mg2 := CELFNode.mg2 u;
                         CELFNode.flag := length (seeds s) |} in
            celfPick n' meme simulations
              {| seeds := seeds s; seedSet := seedSet s;
                 queue := sortByGain (u' :: rest) |}
      end
  end.

(** Outer [while (seeds.length < budget && Q.length > 0)]. *)
Fixpoint celfRounds (n : nat) (meme : Meme.t) (budget simulations : nat)
    (s : Selection) : M (option (list string)) :=
  if Nat.ltb (length (seeds s)) budget
     && negb (Nat.eqb (length (queue s)) 0)
  then
    match n with
    | O => ret None
    | S n' =>
        s' <-? celfPick fuel meme simulations s ;;
        celfRounds n' meme budget simulations s'
    end
  else ret (Some (seeds s)).

Definition celfSelection (meme : Meme.t) (budget simulations : nat)
    : M (option (list string)) :=
  network <- readGraph ;;
  Q <-? celfInit meme simulations [] (nodes network) [] ;;
  celfRounds fuel meme budget simulations
    {| seeds := []; seedSet := []; queue := sortByGain Q |}.

(** *** CELF++ *)

(** Truthiness of a [string | null]. *)
Definition truthyRef (r : option string) : bool :=
  match r with
  | Some s => JS.truthy s
  | None => false
  end.

Definition sameRef (a b : option string) : bool :=
  match a, b with
  | Some x, Some y => String.eqb x y
  | None, None => true
  | _, _ => false
  end.

(** [Q.find(n => n.nodeId === curBest)]. *)
Definition findEntry (Q : list CELFNode.t) (curBest : option string)
    : option CELFNode.t :=
  match curBest with
  | Some c => List.find (fun n => String.eqb (CELFNode.nodeId n) c) Q
  | None => None
  end.

(** Initialisation with look-ahead; [curBest] is threaded through. *)
Fixpoint celfPlusPlusInit (meme : Meme.t) (simulations : nat)
    (seedSet : list string) (todo : list Node.t)
    (curBest : option string) (Q : list CELFNode.t)
    : M (option (option string * list CELFNode.t)) :=
  match todo with
  | [] => ret (Some (curBest, Q))
  | node :: todo' =>
      match Node.state node with
      | susceptible =>
          mg1 <-? calculateMarginalGain seedSet (Node.id node) meme simulations ;;
          mg2 <-? (if truthyRef curBest then
                     let tempSet :=
                       JS.set_add seedSet (default EmptyString curBest) in
                     calculateMarginalGain tempSet (Node.id node) meme simulations
                   else ret (Some 0%Q)) ;;
          let Q' := Q ++ [{| CELFNode.nodeId := Node.id node;
                             CELFNode.mg1 := mg1;
                             CELFNode.prevBest := curBest;
                             CELFNode.mg2 := mg2;
                             CELFNode.flag := 0 |}] in
          let curBest' :=
            if negb (truthyRef curBest)
               || match findEntry Q' curBest with
                  | Some best => JS.ltb (CELFNode.mg1 best) mg1
                  | None => false   (* not reached: [curBest] was pushed *)
                  end
            then Some (Node.id node) else curBest in
          celfPlusPlusInit meme simulations seedSet todo' curBest' Q'
      | _ => celfPlusPlusInit meme simulations seedSet todo' curBest Q
      end
  end.

Record SelectionPP := {
  base : Selection;
  lastSeed : option string;
  curBest : option string
}.

Fixpoint celfPlusPlusPick (n : nat) (meme : Meme.t) (simulations : nat)
    (s : SelectionPP) : M (option SelectionPP) :=
  match queue (base s) with
  | [] => ret (Some s)
  | u :: rest =>
      match n with
      | O => ret None
      | S n' =>
          if Nat.eqb (CELFNode.flag u) (length (seeds (base s))) then
            ret (Some {| base :=
                           {| seeds := seeds (base s) ++ [CELFNode.nodeId u];
                              seedSet := JS.set_add (seedSet (base s))
                                                    (CELFNode.nodeId u);
                              queue := rest |};
                         lastSeed := Some (CELFNode.nodeId u);
                         curBest := curBest s |})
          else
            u1 <-? (if sameRef (CELFNode.prevBest u) (lastSeed s) then
                      ret (Some {| CELFNode.nodeId := CELFNode.nodeId u;
                                   CELFNode.mg1 := CELFNode.mg2 u;
                                   CELFNode.prevBest := CELFNode.prevBest u;
                                   CELFNode.mg2 := CELFNode.mg2 u;
                                   CELFNode.flag := CELFNode.flag u |})
                    else
                      mg1 <-? calculateMarginalGain (seedSet (base s))
                                (CELFNode.nodeId u) meme simulations ;;
                      mg2 <-? (if truthyRef (curBest s) then
                                 let tempSet :=
                                   JS.set_add (seedSet (base s))
                                     (default EmptyString (curBest s)) in
                                 calculateMarginalGain tempSet
                                   (CELFNode.nodeId u) meme simulations
                               else ret (Some (CELFNode.mg2 u))) ;;
                      ret (Some {| CELFNode.nodeId := CELFNode.nodeId u;
                                   CELFNode.mg1 := mg1;
                                   CELFNode.prevBest := curBest s;
                                   CELFNode.mg2 := mg2;
                                   CELFNode.flag := CELFNode.flag u |})) ;;
            let u' := {| CELFNode.nodeId := CELFNode.nodeId u1;
                         CELFNode.mg1 := CELFNode.mg1 u1;
                         CELFNode.prevBest := CELFNode.prevBest u1;
                         CELFNode.mg2 := CELFNode.mg2 u1;
                         CELFNode.flag := length (seeds (base s)) |} in
            let curBestNode :=
              if truthyRef (curBest s)
              then findEntry (u' :: rest) (curBest s) else None in
            let curBest' :=
              if negb (truthyRef (curBest s))
                 || match curBestNode with
                    | None => true
                    | Some best => JS.ltb (CELFNode.mg1 best) (CELFNode.mg1 u')
                    end
              then Some (CELFNode.nodeId u') else curBest s in
            celfPlusPlusPick n' meme simulations
              {| base := {| seeds := seeds (base s);
                            seedSet := seedSet (base s);
                            queue := sortByGain (u' :: rest) |};
                 lastSeed := lastSeed s;
                 curBest := curBest' |}
      end
  end.

Fixpoint celfPlusPlusRounds (n : nat) (meme : Meme.t) (budget simulations : nat)
    (s : SelectionPP) : M (option (list string)) :=
  if Nat.ltb (length (seeds (base s))) budget
     && negb (Nat.eqb (length (queue (base s))) 0)
  then
    match n with
    | O => ret None
    | S n' =>
        s' <-? celfPlusPlusPick fuel meme simulations s ;;
        celfPlusPlusRounds n' meme budget simulations s'
    end
  else ret (Some (seeds (base s))).

Definition celfPlusPlusSelection (meme : Meme.t) (budget simulations : nat)
    : M (option (list string)) :=
  network <- readGraph ;;
  init <-? celfPlusPlusInit meme simulations [] (nodes network) None [] ;;
  celfPlusPlusRounds fuel meme budget simulations
    {| base := {| seeds := []; seedSet := []; queue := sortByGain (snd init) |};
       lastSeed := None;
       curBest := fst init |}.

End WithFuel.

(* ------------------------------------------------------------------ *)
(** ** Vocabulary for the statements about the pathfinder *)

Definition lookupNode (network : Network) (nodeId : string) : option Node.t :=
  List.find (fun n => String.eqb (Node.id n) nodeId) (nodes network).

(** [u] has a trust entry for [v], and [v] is a node of the network: the
    adjacency that [getNeighbors] follows. *)
Definition trusts (network : Network) (u v : string) : Prop :=
  exists nu nv,
    lookupNode network u = Some nu /\ In nv (nodes network) /\
    Node.id nv = v /\ JS.prop_get (Node.trust_network nu) v <> None.

Inductive reachable (network : Network) (s : string) : string -> Prop :=
  | reach_refl : reachable network s s
  | reach_step u v :
      reachable network s u -> trusts network u v -> reachable network s v.

(** A checkable certificate that a list of ids is closed under [trusts]. *)
Definition closedUnderTrust (network : Network) (R : list string) : bool :=
  forallb (fun u =>
             match lookupNode network u with
             | None => true
             | Some nu =>
                 forallb (fun nv =>
                            match JS.prop_get (Node.trust_network nu) (Node.id nv) with
                            | Some _ => JS.set_has R (Node.id nv)
                            | None => true
                            end) (nodes network)
             end) R.

(** Cost of one hop and of a whole route in a mode; [None] when the route
    leaves the graph. *)
Definition hopCost (network : Network) (meme : Meme.t) (mode : AStarMode)
    (u v : string) : option Q :=
  match lookupNode network u, lookupNode network v with
  | Some nu, Some nv =>
      match JS.prop_get (Node.trust_network nu) v with
      | Some trustWeight =>
          Some match mode with
               | social_trust => calculateSocialTrustCost nu nv trustWeight
               | meme_trust => calculateMemeTrustCost nv meme nu trustWeight
               end
      | None => None
      end
  | _, _ => None
  end.

Fixpoint routeCost (network : Network) (meme : Meme.t) (mode : AStarMode)
    (route : list string) : option Q :=
  match route with
  | u :: (v :: _) as route' =>
      match hopCost network meme mode u v, routeCost network meme mode route' with
      | Some c, Some c' => Some (c + c')%Q
      | _, _ => None
      end
  | _ => Some 0%Q
  end.

Definition network_in_range (network : Network) : Prop :=
  Forall node_in_range (nodes network).

(** The filter of [getNeighbors]: [cn.trust_network[n.id] !== undefined]. *)
Definition hasWeight (cn n : Node.t) : bool :=
  JS.defined (JS.get (Node.trust_network cn) (Node.id n)).

(** No node id is the name of a member of [Object.prototype]: on such a
    network every read [obj[id]] finds an own entry or [undefined]. *)
Definition ordinaryIds (network : Network) : Prop :=
  forall n, In n (nodes network) -> JS.inherited (Node.id n) = false.

(** Membership in the open and closed sets of a search. *)
Definition inOpen (s : SearchState) (v : string) : Prop :=
  exists e, In e (openSet s) /\ nodeId (snd e) = v.

Definition covered (s : SearchState) (v : string) : Prop :=
  In v (closedSet s) \/ inOpen s v.

(** The loop invariant of [searchLoop] for a search started at [start]. *)
Record SearchInv (network : Network) (start : string) (s : SearchState) : Prop := {
  inv_open_reachable :
    forall e, In e (openSet s) -> reachable network start (nodeId (snd e));
  inv_closed_reachable :
    forall c, In c (closedSet s) -> reachable network start c;
  inv_start : covered s start;
  inv_closed_edges :
    forall u v, In u (closedSet s) -> trusts network u v -> covered s v;
  inv_scored : forall v, gScores s !! v <> None -> covered s v;
  inv_closed_nodup : List.NoDup (closedSet s)
}.

(** Termination measure, ordered lexicographically: nodes whose id is not
    closed yet, then open entries whose id is closed already. *)
Definition unclosed (network : Network) (s : SearchState) : nat :=
  length (List.filter (fun n => negb (JS.set_has (closedSet s) (Node.id n)))
                      (nodes network)).

Definition stale (s : SearchState) : nat :=
  length (List.filter (fun e => JS.set_has (closedSet s) (nodeId (snd e)))
                      (openSet s)).

(* ------------------------------------------------------------------ *)
(** ** Vocabulary for the statements about the selectors *)

(** A computation hands back the graph instance it was given. *)
Definition keepsGraph {A} (m : M A) : Prop :=
  forall w, graph (snd (m w)) = graph w.

(** Nodes of the network whose id is not in the infected set yet. *)
Definition uninfected (network : Network) (infectedSet : list string) : nat :=
  length (List.filter (fun n => negb (JS.set_has infectedSet (Node.id n)))
                      (nodes network)).

(* ------------------------------------------------------------------ *)
(** ** Concrete scenarios *)

Module Scenario.
Local Open Scope Q_scope.

Definition world (network : Network) (draws : nat -> Q) : World :=
  {| graph := network; random_draws := draws;
     random_next := 0; spread_calls := 0 |}.

Definition noDraws : nat -> Q := fun _ => 0.

(** Mode A.  [s] and [a] are like-minded colleagues, [t] sits at the other
    end of the political axis; [s] trusts [t] at 0.75, and the route over
    [a] uses two edges of trust 0.9. *)
Definition detour : Network :=
  {| nodes :=
       [ Sample.person "s" urban_professional (Sample.attrs (-1) 0.5 0.5 0.5 0)
           [("a", 0.9); ("t", 0.75)];
         Sample.person "a" urban_professional (Sample.attrs (-1) 0.5 0.5 0.5 0)
           [("s", 0.9); ("t", 0.9)];
         Sample.person "t" rural_traditional (Sample.attrs 1 0.5 0.5 0.5 0)
           [("s", 0.75); ("a", 0.9)] ];
     edges :=
       [ {| source := "s"; target := "a"; trust_weight := 0.9 |};
         {| source := "s"; target := "t"; trust_weight := 0.75 |};
         {| source := "a"; target := "t"; trust_weight := 0.9 |} ] |}.

(** Mode B.  Four identical, fully receptive people; every edge has trust
    1 except the edge between [s] and [x], which has trust 0.05. *)
Definition viral : Meme.t := Sample.content 0 0.5 0.9 0.5 1 1.

Definition keen (i : string) (tn : list (string * Q)) : Node.t :=
  Sample.person i tech_worker (Sample.attrs 0 1 0.5 0.5 0.5) tn.

Definition shortcut : Network :=
  {| nodes :=
       [ keen "s" [("x", 0.05); ("y", 1)];
         keen "x" [("s", 0.05); ("y", 1); ("t", 1)];
         keen "y" [("s", 1); ("x", 1)];
         keen "t" [("x", 1)] ];
     edges :=
       [ {| source := "s"; target := "x"; trust_weight := 0.05 |};
         {| source := "s"; target := "y"; trust_weight := 1 |};
         {| source := "x"; target := "y"; trust_weight := 1 |};
         {| source := "x"; target := "t"; trust_weight := 1 |} ] |}.

(** Two components: [s] and [a] trust each other, [t] is on its own. *)
Definition islands : Network :=
  {| nodes :=
       [ keen "s" [("a", 0.5)];
         keen "a" [("s", 0.5)];
         keen "t" [] ];
     edges := [ {| source := "s"; target := "a"; trust_weight := 0.5 |} ] |}.

(** Seed selection.  [a] and [c] both have a trust entry for [b]; only the
    second draw of the random source is low enough to convince anybody. *)
Definition relay : Network :=
  {| nodes := [ keen "a" [("b", 0.5)]; keen "b" []; keen "c" [("b", 0.5)] ];
     edges := [ {| source := "a"; target := "b"; trust_weight := 0.5 |};
                {| source := "c"; target := "b"; trust_weight := 0.5 |} ] |}.

Definition secondDrawLow : nat -> Q :=
  fun i => if Nat.eqb i 1 then 0 else 0.99.

(** [islands] with the second node called [constructor]. *)
Definition namesake : Network :=
  {| nodes :=
       [ keen "s" [("constructor", 0.5)];
         keen "constructor" [("s", 0.5)];
         keen "t" [] ];
     edges :=
       [ {| source := "s"; target := "constructor"; trust_weight := 0.5 |} ] |}.
End Scenario.

(* ------------------------------------------------------------------ *)
(** ** Vocabulary for the further properties *)

(** The items of a queue are in ascending order of priority. *)
Fixpoint ascending {T} (items : list (Q * T)) : Prop :=
  match items with
  | [] => True
  | a :: items' =>
      Forall (fun b => (fst a <= fst b)%Q) items' /\ ascending items'
  end.

(** No two nodes of the network share an id. *)
Definition uniqueIds (network : Network) : Prop :=
  List.NoDup (map Node.id (nodes network)).

(** What every open entry of a search from [start] records: a route from
    [start] to its node, and the cost of that route. *)
Definition routeRecorded (network : Network) (meme : Meme.t) (mode : AStarMode)
    (start : string) (item : OpenItem) : Prop :=
  path item <> [] /\
  List.hd EmptyString (path item) = start /\
  List.last (path item) EmptyString = nodeId item /\
  exists c, routeCost network meme mode (path item) = Some c /\
            (c == gScore item)%Q.

(** A computation may consume random draws and nothing else: the graph,
    the random source and the call counter are handed back as they were. *)
Definition onlyDraws {A} (m : M A) : Prop :=
  forall w,
    graph (snd (m w)) = graph w /\
    random_draws (snd (m w)) = random_draws w /\
    spread_calls (snd (m w)) = spread_calls w /\
    (random_next w <= random_next (snd (m w)))%nat.

(** [x] is a seed or can be reached from a seed along trust entries. *)
Definition fromSeeds (network : Network) (seedIds : list string) (x : string)
    : Prop :=
  exists s, In s seedIds /\ reachable network s x.

(** The ids of the susceptible nodes, in node order: the candidates of the
    seed selectors. *)
Definition candidates (network : Network) : list string :=
  map Node.id
    (List.filter (fun n => isSusceptible (Node.state n)) (nodes network)).

(** Entries of the selection queue whose gain was not computed in round
    [k]. *)
Definition outdated (k : nat) (Q : list CELFNode.t) : nat :=
  length (List.filter (fun u => negb (Nat.eqb (CELFNode.flag u) k)) Q).

(** Every open entry of a search records a route. *)
Definition routesRecorded (network : Network) (meme : Meme.t) (mode : AStarMode)
    (start : string) (s : SearchState) : Prop :=
  forall e, In e (openSet s) -> routeRecorded network meme mode start (snd e).

(** The ids of the susceptible nodes are non-empty strings. *)
Definition truthyIds (l : list Node.t) : Prop :=
  forall n, In n l -> isSusceptible (Node.state n) = true ->
            JS.truthy (Node.id n) = true.

(** What a propagation step may do to one node object: identity, class,
    attributes and trust entries stay; either nothing changes at all, or
    the node was susceptible and is now exposed or infected. *)
Definition nodeStep (n n' : Node.t) : Prop :=
  Node.id n' = Node.id n /\
  Node.identity_class n' = Node.identity_class n /\
  Node.attributes n' = Node.attributes n /\
  Node.trust_network n' = Node.trust_network n /\
  (n' = n \/
   (Node.state n = susceptible /\
    (Node.state n' = exposed \/ Node.state n' = infected))).

(** ... and to the graph: the same edges, the same number of nodes, and
    every node object changed by [nodeStep] only. *)
Definition graphStep (g g' : Network) : Prop :=
  edges g' = edges g /\
  length (nodes g') = length (nodes g) /\
  forall (i : nat) (n : Node.t),
    nodes g !! i = Some n ->
    exists n', nodes g' !! i = Some n' /\ nodeStep n n'.

(** The state of the node object behind a reference. *)
Definition infectedAt (g : Network) (ref : nat) : Prop :=
  exists n, nodes g !! ref = Some n /\ Node.state n = infected.

Definition susceptibleAt (g : Network) (ref : nat) : Prop :=
  exists n, nodes g !! ref = Some n /\ Node.state n = susceptible.

(** The result so far names only nodes that were susceptible when the step
    began (graph [g0]) and are infected now. *)
Definition infectionsSound (g0 g : Network) (acc : PropagationStepResult) : Prop :=
  forall ref, In ref (newInfections acc) ->
              susceptibleAt g0 ref /\ infectedAt g ref.

(** The world after one transmission attempt on the node behind [ref]: the
    conditional write of the exposure, the random draw, and the
    conditional write of the infection. *)
Definition afterAttempt (memeId : string) (ref : nat) (seen accepted : bool)
    (w : World) : World :=
  snd ((if accepted then writeNode ref (markInfected memeId) else ret tt)
         (snd (Math_random
                 (snd ((if negb seen then writeNode ref (markExposed memeId)
                        else ret tt) w))))).

(** The node object behind [iref] has a trust entry for the id of the node
    object behind [ref]. *)
Definition trustsRef (g : Network) (iref ref : nat) : Prop :=
  exists inf nb,
    nodes g !! iref = Some inf /\ nodes g !! ref = Some nb /\
    JS.prop_get (Node.trust_network inf) (Node.id nb) <> None.

(** The result so far names only nodes trusted, in graph [g0], by one of
    the [sources]. *)
Definition infectionsFrom (g0 : Network) (sources : list nat)
    (acc : PropagationStepResult) : Prop :=
  forall ref, In ref (newInfections acc) ->
              exists iref, In iref sources /\ trustsRef g0 iref ref.

(* ------------------------------------------------------------------ *)
(** ** game-engine.ts: meme mutation

    [mutateMeme] builds the variant of a meme that later acceptance
    computations receive.  [now] is the decimal rendering of [Date.now()];
    the [title], [content_type] and [timestamp] fields are not part of
    [Meme.t]. *)

Section GameEngine.
Local Open Scope Q_scope.

Definition mutateMeme (now : string) (meme : Meme.t) (targetNode : Node.t)
    : Meme.t :=
  let mutationFactor := 0.15 in
  let newAttributes :=
    {| political_bias :=
         political_bias (Meme.attributes meme)
         + (political_leaning (Node.attributes targetNode)
            - political_bias (Meme.attributes meme)) * 0.3;
       emotional_intensity :=
         JS.min 1.0 (emotional_intensity (Meme.attributes meme) + mutationFactor);
       virality_factor :=
         JS.min 1.0 (virality_factor (Meme.attributes meme) + mutationFactor);
       complexity :=
         JS.max 0.1 (complexity (Meme.attributes meme) - mutationFactor);
       factual_accuracy :=
         JS.max 0.05
                (factual_accuracy (Meme.attributes meme) - mutationFactor * 0.5);
       source_credibility :=
         JS.min 1.0
                (source_credibility (Meme.attributes meme) + mutationFactor * 0.5)
    |} in
  {| Meme.id := (Meme.id meme ++ "_mut_" ++ now)%string;
     Meme.attributes := newAttributes;
     Meme.generation := S (Meme.generation meme);
     Meme.parent_id := Some (Meme.id meme) |}.
End GameEngine.
(* ------------------------------------------------------------------ *)
(** ** Facts about the numeric primitives *)

Section NumericFacts.
Local Open Scope Q_scope.

Lemma ltb_lt (a b : Q) : JS.ltb a b = true <-> a < b.
Proof.
  unfold JS.ltb. rewrite negb_true_iff.
  split; intro H.
  - apply Qnot_le_lt. intro Hle. apply Qle_bool_iff in Hle. congruence.
  - destruct (Qle_bool b a) eqn:E; [|reflexivity].
    apply Qle_bool_iff in E. exfalso. apply (Qlt_not_le _ _ H E).
Qed.

Lemma ltb_ge (a b : Q) : JS.ltb a b = false <-> b <= a.
Proof.
  unfold JS.ltb. rewrite negb_false_iff. apply Qle_bool_iff.
Qed.

Lemma max_cases (a b : Q) :
  (a <= b /\ JS.max a b = b) \/ (b < a /\ JS.max a b = a).
Proof.
  unfold JS.max. destruct (Qle_bool a b) eqn:E.
  - left. split; [now apply Qle_bool_iff | reflexivity].
  - right. split; [|reflexivity].
    apply Qnot_le_lt. intro H. apply Qle_bool_iff in H. congruence.
Qed.

Lemma min_cases (a b : Q) :
  (a <= b /\ JS.min a b = a) \/ (b < a /\ JS.min a b = b).
Proof.
  unfold JS.min. destruct (Qle_bool a b) eqn:E.
  - left. split; [now apply Qle_bool_iff | reflexivity].
  - right. split; [|reflexivity].
    apply Qnot_le_lt. intro H. apply Qle_bool_iff in H. congruence.
Qed.

(** The nested [Math.max(lo, Math.min(hi, x))] lands in [lo, hi]. *)
Lemma max_min_bounds (lo hi x : Q) :
  lo <= hi -> lo <= JS.max lo (JS.min hi x) <= hi.
Proof.
  intro Hlh.
  destruct (min_cases hi x) as [[H1 E1]|[H1 E1]]; rewrite E1;
    destruct (max_cases lo hi) as [[H2 E2]|[H2 E2]];
    destruct (max_cases lo x) as [[H3 E3]|[H3 E3]];
    rewrite ?E2, ?E3; split; lra.
Qed.

(** ... and is monotone in [x]. *)
Lemma max_min_mono (lo hi x y : Q) :
  x <= y -> JS.max lo (JS.min hi x) <= JS.max lo (JS.min hi y).
Proof.
  intro Hxy.
  destruct (min_cases hi x) as [[H1 E1]|[H1 E1]]; rewrite E1;
    destruct (min_cases hi y) as [[H2 E2]|[H2 E2]]; rewrite E2;
    repeat match goal with
           | |- context [JS.max ?a ?b] =>
               let H := fresh in let E := fresh in
               destruct (max_cases a b) as [[H E]|[H E]]; rewrite E
           end; lra.
Qed.

Lemma clamp_is_spec_clamp (x lo hi : Q) :
  lo <= hi -> clamp x lo hi == AcceptanceSpec.clamp x lo hi.
Proof.
  intro Hlh. unfold clamp, AcceptanceSpec.clamp.
  destruct (min_cases hi x) as [[H1 E1]|[H1 E1]]; rewrite E1;
    match goal with
    | |- context [JS.max ?a ?b] =>
        destruct (max_cases a b) as [[H2 E2]|[H2 E2]]; rewrite E2
    end;
    destruct (Qlt_le_dec x lo); destruct (Qlt_le_dec hi x); lra.
Qed.

Lemma ltb_dec_agree (a b : Q) (X Y : Q) :
  (if JS.ltb a b then X else Y) = (if Qlt_le_dec a b then X else Y).
Proof.
  destruct (Qlt_le_dec a b) as [H|H].
  - apply ltb_lt in H. now rewrite H.
  - apply ltb_ge in H. now rewrite H.
Qed.
End NumericFacts.

(* ------------------------------------------------------------------ *)
(** ** The acceptance model and the edge costs *)

Section AcceptanceModel.
Local Open Scope Q_scope.

(** C1, as the claim states it, fails: for a centrist node and the neutral
    preset (all attributes in range, trust weight 1) the code returns 0.3
    while the formula with the credibility factor gives 0.255. *)
Lemma acceptance_lacks_credibility_factor :
  node_in_range Sample.plain /\ meme_in_range Sample.neutral /\
  0 < 1 <= 1 /\
  ~ calculateAcceptanceProbability Sample.plain Sample.neutral Sample.plain 1
    == AcceptanceSpec.acceptanceProbability Sample.plain Sample.neutral Sample.plain 1.
Proof.
  repeat split; vm_compute; congruence.
Qed.

(** C1 (amended): for every node, meme, source node and trust weight,
    calculateAcceptanceProbability returns
    clamp(0.3 * trustWeight * alignmentScore * viralityBoost, 0.05, 0.95);
    the product has no credibility factor. *)
Theorem acceptance_probability_formula
    (node : Node.t) (meme : Meme.t) (sourceNode : Node.t) (trustWeight : Q) :
  calculateAcceptanceProbability node meme sourceNode trustWeight ==
  AcceptanceSpec.clamp
    (0.3 * trustWeight * AcceptanceSpec.alignmentScore node meme
     * AcceptanceSpec.viralityBoost node meme) 0.05 0.95.
Proof.
  unfold calculateAcceptanceProbability; cbv zeta.
  rewrite ltb_dec_agree.
  unfold AcceptanceSpec.alignmentScore, AcceptanceSpec.viralityBoost,
    AcceptanceSpec.criticalPenalty, JS.abs.
  apply clamp_is_spec_clamp. lra.
Qed.

(** The code agrees with the formula of section 4.1 exactly when the
    credibility factor is 1. *)
Lemma acceptance_probability_full_credibility
    (node : Node.t) (meme : Meme.t) (sourceNode : Node.t) (trustWeight : Q) :
  source_credibility (Meme.attributes meme) == 1 ->
  calculateAcceptanceProbability node meme sourceNode trustWeight ==
  AcceptanceSpec.acceptanceProbability node meme sourceNode trustWeight.
Proof.
  intro Hc.
  unfold calculateAcceptanceProbability; cbv zeta.
  rewrite ltb_dec_agree, clamp_is_spec_clamp by lra.
  fold (AcceptanceSpec.criticalPenalty node meme). unfold JS.abs.
  fold (AcceptanceSpec.alignmentScore node meme).
  fold (AcceptanceSpec.viralityBoost node meme).
  unfold AcceptanceSpec.acceptanceProbability, AcceptanceSpec.credibilityFactor.
  set (r := 0.3 * trustWeight * AcceptanceSpec.alignmentScore node meme
            * AcceptanceSpec.viralityBoost node meme).
  assert (Hr : r * (0.7 + 0.3 * source_credibility (Meme.attributes meme)) == r)
    by (rewrite Hc; ring).
  revert Hr.
  generalize (r * (0.7 + 0.3 * source_credibility (Meme.attributes meme))).
  intros r' Hr. unfold AcceptanceSpec.clamp.
  destruct (Qlt_le_dec r 0.05), (Qlt_le_dec r' 0.05),
    (Qlt_le_dec 0.95 r), (Qlt_le_dec 0.95 r'); lra.
Qed.

(** C2, as the claim states it, fails: on the same in-range input the
    mode-B cost is 0.8215 while one minus the acceptance probability is
    0.7. *)
Lemma meme_trust_cost_is_not_one_minus_acceptance :
  node_in_range Sample.plain /\ meme_in_range Sample.neutral /\
  ~ calculateMemeTrustCost Sample.plain Sample.neutral Sample.plain 1
    == 1 - calculateAcceptanceProbability Sample.plain Sample.neutral Sample.plain 1.
Proof.
  repeat split; vm_compute; congruence.
Qed.

(** C2 (amended): the mode-B cost is one minus the clamp of the mode's own
    product 0.3 * w * alignmentScore * (1 - complexityPenalty) *
    viralityBoost * credibilityFactor, which carries the complexity penalty
    and the credibility factor that calculateAcceptanceProbability lacks. *)
Theorem meme_trust_cost_formula
    (node : Node.t) (meme : Meme.t) (sourceNode : Node.t) (trustWeight : Q) :
  calculateMemeTrustCost node meme sourceNode trustWeight ==
  1 - AcceptanceSpec.clamp
        (0.3 * trustWeight
         * (AcceptanceSpec.alignmentScore node meme
            * (1 - AcceptanceSpec.complexityPenalty node meme))
         * AcceptanceSpec.viralityBoost node meme
         * AcceptanceSpec.credibilityFactor meme) 0.05 0.95.
Proof.
  unfold calculateMemeTrustCost; cbv zeta.
  rewrite ltb_dec_agree.
  unfold AcceptanceSpec.alignmentScore, AcceptanceSpec.viralityBoost,
    AcceptanceSpec.criticalPenalty, AcceptanceSpec.complexityPenalty,
    AcceptanceSpec.credibilityFactor, JS.abs.
  match goal with
  | |- 1 - JS.max ?lo (JS.min ?hi ?x) == 1 - AcceptanceSpec.clamp ?y _ _ =>
      assert (Hxy : x == y) by ring;
      pose proof (clamp_is_spec_clamp x lo hi) as Hx;
      pose proof (clamp_is_spec_clamp y lo hi) as Hy;
      pose proof (max_min_mono lo hi x y) as M1;
      pose proof (max_min_mono lo hi y x) as M2
  end.
  unfold clamp in Hx, Hy.
  rewrite <- Hy by lra.
  assert (L1 := M1 ltac:(lra)). assert (L2 := M2 ltac:(lra)). lra.
Qed.

(** C4: both edge-cost functions are bounded for every input, so in
    particular for inputs in the documented ranges: mode A in [0.05, 2.0],
    mode B in [0.05, 0.95]; neither is ever zero or negative (and a
    rational is never infinite). *)
Theorem edge_cost_bounds
    (u v : Node.t) (c : Meme.t) (w : Q) :
  (0.05 <= calculateSocialTrustCost u v w <= 2.0) /\
  (0.05 <= calculateMemeTrustCost v c u w <= 0.95) /\
  0 < calculateSocialTrustCost u v w /\
  0 < calculateMemeTrustCost v c u w.
Proof.
  assert (A : 0.05 <= calculateSocialTrustCost u v w <= 2.0).
  { unfold calculateSocialTrustCost; cbv zeta. apply max_min_bounds. lra. }
  assert (B : 0.05 <= calculateMemeTrustCost v c u w <= 0.95).
  { unfold calculateMemeTrustCost; cbv zeta.
    match goal with
    | |- _ <= 1 - JS.max ?lo (JS.min ?hi ?x) <= _ =>
        pose proof (max_min_bounds lo hi x ltac:(lra))
    end. lra. }
  repeat split; lra.
Qed.

(** The novelty factor is non-increasing in the number of days. *)
Lemma novelty_factor_mono (d1 d2 : Q) :
  d1 <= d2 -> JS.max 0.3 (1 - d2 / 7) <= JS.max 0.3 (1 - d1 / 7).
Proof.
  intro H.
  change (d1 / 7) with (d1 * (1 # 7)). change (d2 / 7) with (d2 * (1 # 7)).
  destruct (max_cases 0.3 (1 - d2 * (1 # 7))) as [[H2 E2]|[H2 E2]]; rewrite E2;
    destruct (max_cases 0.3 (1 - d1 * (1 # 7))) as [[H1 E1]|[H1 E1]]; rewrite E1;
    lra.
Qed.

(** From day 4.9 on it sits at its floor. *)
Lemma novelty_factor_floor (d : Q) :
  4.9 <= d -> JS.max 0.3 (1 - d / 7) == 0.3.
Proof.
  intro H.
  change (d / 7) with (d * (1 # 7)).
  destruct (max_cases 0.3 (1 - d * (1 # 7))) as [[H2 E2]|[H2 E2]]; rewrite E2; lra.
Qed.

(** C10: with node and meme attributes in [0,1],
    calculateTransmissionProbability is non-increasing in daysSinceInfected
    (0 <= d1 <= d2), and from 4.9 days on its value no longer changes. *)
Theorem transmission_probability_antitone
    (node : Node.t) (meme : Meme.t) (d1 d2 : Q) :
  node_in_range node -> meme_in_range meme ->
  0 <= d1 -> d1 <= d2 ->
  calculateTransmissionProbability node meme d2
    <= calculateTransmissionProbability node meme d1 /\
  (4.9 <= d1 ->
   calculateTransmissionProbability node meme d2
     == calculateTransmissionProbability node meme d1).
Proof.
  intros Hn Hm H0 H12.
  destruct Hn as (_ & _ & _ & _ & Hsa).
  destruct Hm as (_ & Hei & _ & _ & Hvf & _).
  unfold calculateTransmissionProbability; cbv zeta. unfold clamp.
  set (k := social_activity (Node.attributes node)
            * virality_factor (Meme.attributes meme)
            * (1 + emotional_intensity (Meme.attributes meme) * 0.5)).
  assert (Hk : 0 <= k).
  { unfold k. repeat apply Qmult_le_0_compat; lra. }
  split.
  - apply max_min_mono.
    rewrite !(Qmult_comm k). apply Qmult_le_compat_r; [|exact Hk].
    now apply novelty_factor_mono.
  - intro H49.
    assert (E1 := novelty_factor_floor d1 H49).
    assert (E2 := novelty_factor_floor d2 ltac:(lra)).
    apply Qle_antisym; apply max_min_mono; rewrite E1, E2; lra.
Qed.

(** C10 at a concrete input: a node and a meme with all attributes at 1/2,
    one day against six days. *)
Lemma transmission_probability_antitone_witness :
  calculateTransmissionProbability Sample.plain Sample.neutral 6
    <= calculateTransmissionProbability Sample.plain Sample.neutral 1 /\
  (4.9 <= 1 ->
   calculateTransmissionProbability Sample.plain Sample.neutral 6
     == calculateTransmissionProbability Sample.plain Sample.neutral 1).
Proof.
  apply (transmission_probability_antitone Sample.plain Sample.neutral 1 6).
  - vm_compute. repeat split; congruence.
  - vm_compute. repeat split; congruence.
  - vm_compute. congruence.
  - vm_compute. congruence.
Defined.

End AcceptanceModel.

(* ------------------------------------------------------------------ *)
(** ** The pathfinder: frame, failure on unknown ids, concrete runs *)

Section PathfinderBasics.

Lemma findNode_run (nodeId : string) (w : World) :
  findNode nodeId w = (lookupNode (graph w) nodeId, w).
Proof. reflexivity. Qed.

Lemma getNeighbors_world (nodeId : string) (w : World) :
  snd (getNeighbors nodeId w) = w.
Proof.
  unfold getNeighbors, bind. rewrite findNode_run.
  destruct (lookupNode (graph w) nodeId); reflexivity.
Qed.

(** The search loop hands back the world it was given. *)
Lemma searchLoop_world (fuel : nat) (targetNode : Node.t) (targetNodeId : string)
    (meme : Meme.t) (mode : AStarMode) (s : SearchState) (w : World) :
  snd (searchLoop fuel targetNode targetNodeId meme mode s w) = w.
Proof.
  revert s. induction fuel as [|fuel IH]; intro s; [reflexivity|].
  simpl. destruct (PriorityQueue.pop (openSet s)) as [[current|] rest];
    [|reflexivity].
  unfold bind. rewrite findNode_run.
  destruct (String.eqb (nodeId current) targetNodeId); [reflexivity|].
  pose proof (getNeighbors_world (nodeId current) w) as Hn.
  destruct (getNeighbors (nodeId current) w) as [neighbors w']. simpl in Hn.
  subst w'. simpl. apply IH.
Qed.

Lemma astarInfluencePath_world (fuel : nat) (startNodeId targetNodeId : string)
    (meme : Meme.t) (mode : AStarMode) (w : World) :
  snd (astarInfluencePath fuel startNodeId targetNodeId meme mode w) = w.
Proof.
  unfold astarInfluencePath, bind. rewrite !findNode_run.
  destruct (lookupNode (graph w) startNodeId);
    destruct (lookupNode (graph w) targetNodeId); try reflexivity.
  simpl. apply searchLoop_world.
Qed.

Lemma lookupNode_none (network : Network) (i : string) :
  (forall n, In n (nodes network) -> Node.id n <> i) ->
  lookupNode network i = None.
Proof.
  intro H. unfold lookupNode.
  destruct (List.find _ _) as [n|] eqn:E; [|reflexivity].
  apply List.find_some in E. destruct E as [Hin Heq].
  apply String.eqb_eq in Heq. exfalso. exact (H n Hin Heq).
Qed.

Lemma lookupNode_some (network : Network) (i : string) (n : Node.t) :
  lookupNode network i = Some n -> In n (nodes network) /\ Node.id n = i.
Proof.
  unfold lookupNode. intro E. apply List.find_some in E.
  destruct E as [Hin Heq]. apply String.eqb_eq in Heq. now split.
Qed.

Lemma lookupNode_in (network : Network) (n : Node.t) :
  In n (nodes network) ->
  exists n', lookupNode network (Node.id n) = Some n'.
Proof.
  intro Hin. unfold lookupNode.
  destruct (List.find _ _) as [n'|] eqn:E; [now exists n'|].
  exfalso. apply (List.find_none _ _ E) in Hin.
  rewrite String.eqb_refl in Hin. discriminate.
Qed.

(** C6: when the source id or the target id is not the id of any node of
    the network, astarInfluencePath answers at once, whatever the fuel
    (even none): success=false, empty path, exploredCount=0, no frames,
    infinite cost. *)
Theorem unknown_endpoint_fails_immediately
    (fuel : nat) (startNodeId targetNodeId : string)
    (meme : Meme.t) (mode : AStarMode) (w : World) :
  (forall n, In n (nodes (graph w)) -> Node.id n <> startNodeId) \/
  (forall n, In n (nodes (graph w)) -> Node.id n <> targetNodeId) ->
  exists r,
    fst (astarInfluencePath fuel startNodeId targetNodeId meme mode w) = Some r /\
    AStarResult.success r = false /\
    AStarResult.path r = [] /\
    AStarResult.cost r = None /\
    AStarResult.exploredCount r = 0%nat /\
    AStarResult.frames r = [].
Proof.
  intro H. exists (failure 0 [] mode).
  split; [|now repeat split].
  unfold astarInfluencePath, bind. rewrite !findNode_run.
  destruct H as [H|H]; apply lookupNode_none in H; rewrite H.
  - reflexivity.
  - destruct (lookupNode (graph w) startNodeId); reflexivity.
Qed.

(** C6 at a concrete input: the id "nobody" in the two-island network,
    with no fuel at all. *)
Lemma unknown_endpoint_fails_immediately_witness :
  exists r,
    fst (astarInfluencePath 0 "s" "nobody" Sample.neutral meme_trust
           (Scenario.world Scenario.islands Scenario.noDraws)) = Some r /\
    AStarResult.success r = false /\
    AStarResult.path r = [] /\
    AStarResult.cost r = None /\
    AStarResult.exploredCount r = 0%nat /\
    AStarResult.frames r = [].
Proof.
  apply (unknown_endpoint_fails_immediately 0 "s" "nobody" Sample.neutral
           meme_trust (Scenario.world Scenario.islands Scenario.noDraws)).
  right. intros n Hin. simpl in Hin.
  destruct Hin as [<-|[<-|[<-|[]]]]; vm_compute; congruence.
Defined.

Local Open Scope Q_scope.

(** C3 fails on the code.  Mode A, all attributes in range: the search from
    [s] to [t] in [Scenario.detour] succeeds with the direct edge, cost
    0.4, although the route over [a] costs 0.24; the heuristic at [a],
    1.85, exceeds the remaining cost 0.16 from [a]. *)
Theorem astar_social_trust_suboptimal :
  network_in_range Scenario.detour /\
  exists r c c' ca na nt,
    fst (astarInfluencePath 10 "s" "t" Sample.neutral social_trust
           (Scenario.world Scenario.detour Scenario.noDraws)) = Some r /\
    AStarResult.success r = true /\
    AStarResult.path r = ["s"; "t"] /\
    AStarResult.cost r = Some c /\ c == 0.4 /\
    routeCost Scenario.detour Sample.neutral social_trust ["s"; "a"; "t"]
      = Some c' /\ c' == 0.24 /\ c' < c /\
    lookupNode Scenario.detour "a" = Some na /\
    lookupNode Scenario.detour "t" = Some nt /\
    routeCost Scenario.detour Sample.neutral social_trust ["a"; "t"] = Some ca /\
    ca < socialTrustHeuristic na nt Scenario.detour.
Proof.
  split.
  - repeat constructor; vm_compute; congruence.
  - do 6 eexists. repeat split; try (vm_compute; reflexivity);
      vm_compute; congruence.
Qed.

(** The same in mode B: in [Scenario.shortcut] the search from [s] to [t]
    returns the route over the weak edge, cost 1.35, although the route
    [s, y, x, t] costs 1.2: [x] is closed with a cost that is not its
    cheapest and is never reopened. *)
Lemma astar_meme_trust_suboptimal :
  network_in_range Scenario.shortcut /\ meme_in_range Scenario.viral /\
  exists r c c',
    fst (astarInfluencePath 10 "s" "t" Scenario.viral meme_trust
           (Scenario.world Scenario.shortcut Scenario.noDraws)) = Some r /\
    AStarResult.success r = true /\
    AStarResult.path r = ["s"; "x"; "t"] /\
    AStarResult.cost r = Some c /\ c == 1.35 /\
    routeCost Scenario.shortcut Scenario.viral meme_trust ["s"; "y"; "x"; "t"]
      = Some c' /\ c' == 1.2 /\ c' < c.
Proof.
  split; [|split].
  - repeat constructor; vm_compute; congruence.
  - repeat split; vm_compute; congruence.
  - do 3 eexists. repeat split; try (vm_compute; reflexivity);
      vm_compute; congruence.
Qed.

End PathfinderBasics.

(* ------------------------------------------------------------------ *)
(** ** Containers used by the search *)

Section Containers.

Lemma sort_insert_perm {A} (cmp : A -> A -> Q) (x : A) (l : list A) :
  Permutation (JS.sort_insert cmp x l) (x :: l).
Proof.
  induction l as [|y l IH]; simpl; [reflexivity|].
  destruct (Qle_bool (cmp x y) 0); [reflexivity|].
  rewrite IH. apply perm_swap.
Qed.

Lemma sort_perm {A} (cmp : A -> A -> Q) (l : list A) :
  Permutation (JS.sort cmp l) l.
Proof.
  induction l as [|x l IH]; simpl; [reflexivity|].
  rewrite sort_insert_perm. now constructor.
Qed.

Lemma push_perm {T} (p : Q) (item : T) (q : PriorityQueue.t T) :
  Permutation (PriorityQueue.push p item q) ((p, item) :: q).
Proof.
  unfold PriorityQueue.push. rewrite sort_perm.
  symmetry. apply Permutation_cons_append.
Qed.

Lemma filter_length_perm {A} (f : A -> bool) (l l' : list A) :
  Permutation l l' ->
  length (List.filter f l) = length (List.filter f l').
Proof.
  induction 1 as [|x l l' _ IH|x y l|l l' l'' _ IH1 _ IH2]; simpl.
  - reflexivity.
  - destruct (f x); simpl; congruence.
  - destruct (f x), (f y); reflexivity.
  - congruence.
Qed.

Lemma filter_length_le {A} (f g : A -> bool) (l : list A) :
  (forall x, In x l -> f x = true -> g x = true) ->
  (length (List.filter f l) <= length (List.filter g l))%nat.
Proof.
  induction l as [|x l IH]; intro H; simpl; [lia|].
  assert (IH' := IH (fun y Hy => H y (or_intror Hy))).
  destruct (f x) eqn:Ef.
  - rewrite (H x (or_introl eq_refl) Ef). simpl. lia.
  - destruct (g x); simpl; lia.
Qed.

Lemma filter_length_lt {A} (f g : A -> bool) (l : list A) (a : A) :
  (forall x, In x l -> f x = true -> g x = true) ->
  In a l -> f a = false -> g a = true ->
  (length (List.filter f l) < length (List.filter g l))%nat.
Proof.
  induction l as [|x l IH]; intros H Hin Hf Hg; [destruct Hin|].
  simpl. destruct Hin as [->|Hin].
  - rewrite Hf, Hg. simpl.
    pose proof (filter_length_le f g l (fun y Hy => H y (or_intror Hy))). lia.
  - assert (IH' := IH (fun y Hy => H y (or_intror Hy)) Hin Hf Hg).
    destruct (f x) eqn:Ef.
    + rewrite (H x (or_introl eq_refl) Ef). simpl. lia.
    + destruct (g x); simpl; lia.
Qed.

Lemma set_has_In (s : list string) (x : string) :
  JS.set_has s x = true <-> In x s.
Proof.
  unfold JS.set_has. rewrite existsb_exists. split.
  - intros (y & Hy & E). apply String.eqb_eq in E. now subst.
  - intro H. exists x. split; [exact H | apply String.eqb_refl].
Qed.

Lemma set_has_not_In (s : list string) (x : string) :
  JS.set_has s x = false <-> ~ In x s.
Proof.
  rewrite <- set_has_In. destruct (JS.set_has s x); split; congruence.
Qed.

Lemma set_add_In (s : list string) (x y : string) :
  In y (JS.set_add s x) <-> In y s \/ y = x.
Proof.
  unfold JS.set_add. destruct (JS.set_has s x) eqn:E.
  - apply set_has_In in E. split; [tauto|]. intros [H| ->]; assumption.
  - rewrite in_app_iff. simpl. split; intros [H|H]; auto.
    destruct H as [<-|[]]. now right.
Qed.

Lemma set_add_NoDup (s : list string) (x : string) :
  List.NoDup s -> List.NoDup (JS.set_add s x).
Proof.
  intro H. unfold JS.set_add. destruct (JS.set_has s x) eqn:E; [exact H|].
  apply set_has_not_In in E.
  apply (Permutation_NoDup (l := x :: s)).
  - apply Permutation_cons_append.
  - now constructor.
Qed.

Lemma set_add_known (s : list string) (x : string) :
  JS.set_has s x = true -> JS.set_add s x = s.
Proof. unfold JS.set_add. now intros ->. Qed.

End Containers.

(* ------------------------------------------------------------------ *)
(** ** The search loop keeps its invariant and runs out of work *)

Section SearchInvariant.
Variable network : Network.
Variable start : string.
Variable targetNode : Node.t.
Variable meme : Meme.t.
Variable mode : AStarMode.

Local Abbreviation expand := (expandNeighbor network targetNode meme mode).

Lemma expandNeighbor_spec (current : OpenItem) (cn : Node.t) (s : SearchState) (n : Node.t) :
  closedSet (expand current cn s n) = closedSet s /\
  ((expand current cn s n = s /\
    (JS.prop_get (Node.trust_network cn) (Node.id n) <> None ->
     JS.inherited (Node.id n) = false ->
     In (Node.id n) (closedSet s) \/ gScores s !! Node.id n <> None))
   \/
   (exists p item,
      Permutation (openSet (expand current cn s n)) ((p, item) :: openSet s) /\
      nodeId item = Node.id n /\
      JS.set_has (closedSet s) (Node.id n) = false /\
      gScores (expand current cn s n) = <[Node.id n := gScore item]> (gScores s) /\
      JS.prop_get (Node.trust_network cn) (Node.id n) <> None)).
Proof.
  unfold expandNeighbor.
  destruct (JS.set_has (closedSet s) (Node.id n)) eqn:Hc.
  { split; [reflexivity|]. left. split; [reflexivity|].
    intros _ _. left. now apply set_has_In. }
  unfold JS.get, JS.member.
  destruct (JS.prop_get (Node.trust_network cn) (Node.id n)) as [tw|].
  - cbv zeta.
    destruct (gScores s !! Node.id n) as [g|] eqn:Hg.
    + match goal with
      | |- context [if ?b then _ else _] => destruct b eqn:Hb
      end.
      * split; [reflexivity|]. right. do 2 eexists. simpl.
        split; [apply push_perm|]. repeat split. discriminate.
      * split; [reflexivity|]. left. split; [reflexivity|].
        intros _ _. right. discriminate.
    + destruct (JS.inherited (Node.id n)) eqn:Hi.
      * split; [reflexivity|]. left. split; [reflexivity|].
        intros _ Hni. congruence.
      * split; [reflexivity|]. right. do 2 eexists. simpl.
        split; [apply push_perm|]. repeat split. discriminate.
  - destruct (JS.inherited (Node.id n)); split; try reflexivity;
      left; (split; [reflexivity|]); intros Hw; congruence.
Qed.

Lemma expandNeighbors_fold (current : OpenItem) (cn : Node.t) (L : list Node.t) :
  forall s,
  closedSet (fold_left (expand current cn) L s) = closedSet s /\
  (forall e, In e (openSet (fold_left (expand current cn) L s)) ->
             In e (openSet s) \/
             exists n, In n L /\ nodeId (snd e) = Node.id n /\
                       JS.prop_get (Node.trust_network cn) (Node.id n) <> None) /\
  (forall e, In e (openSet s) -> In e (openSet (fold_left (expand current cn) L s))) /\
  (forall v, gScores (fold_left (expand current cn) L s) !! v <> None ->
             gScores s !! v <> None \/ inOpen (fold_left (expand current cn) L s) v) /\
  (forall n, In n L ->
             JS.prop_get (Node.trust_network cn) (Node.id n) <> None ->
             JS.inherited (Node.id n) = false ->
             In (Node.id n) (closedSet s) \/
             inOpen (fold_left (expand current cn) L s) (Node.id n) \/
             gScores s !! Node.id n <> None) /\
  stale (fold_left (expand current cn) L s) = stale s.
Proof.
  induction L as [|n L IH]; intros s; simpl.
  { repeat split; auto; intros n []. }
  destruct (expandNeighbor_spec current cn s n) as [Hc Hcase].
  set (sm := expand current cn s n) in *.
  destruct (IH sm) as (C & O1 & O2 & G & N & St).
  set (s' := fold_left (expand current cn) L sm) in *.
  (* what the single step did to the open set and the scores *)
  assert (Oin : forall e, In e (openSet sm) ->
                  In e (openSet s) \/
                  (nodeId (snd e) = Node.id n /\
                   JS.prop_get (Node.trust_network cn) (Node.id n) <> None)).
  { intros e He. destruct Hcase as [[E _]|(p & item & P & Hid & _ & _ & Hw)].
    - left. now rewrite <- E.
    - apply (Permutation_in _ P) in He. destruct He as [<-|He]; auto. }
  assert (Oout : forall e, In e (openSet s) -> In e (openSet sm)).
  { intros e He. destruct Hcase as [[E _]|(p & item & P & _)].
    - now rewrite E.
    - apply (Permutation_in _ (Permutation_sym P)). now right. }
  assert (Gm : forall v, gScores sm !! v <> None ->
                 gScores s !! v <> None \/ inOpen s' v).
  { intros v Hv. destruct Hcase as [[E _]|(p & item & P & Hid & _ & Hg & _)].
    - left. now rewrite <- E.
    - rewrite Hg in Hv. destruct (decide (Node.id n = v)) as [<-|Hne].
      + right. exists (p, item). split; [|exact Hid].
        apply O2. apply (Permutation_in _ (Permutation_sym P)). now left.
      + left. now rewrite lookup_insert_ne in Hv. }
  split; [congruence|].
  split.
  { intros e He. destruct (O1 e He) as [Hm|(n' & Hn' & E & Hw)].
    - destruct (Oin e Hm) as [?|[? ?]]; [now left|].
      right. exists n. split; [now left|]. now split.
    - right. exists n'. split; [now right|]. now split. }
  split; [intros e He; apply O2, Oout, He|].
  split.
  { intros v Hv. destruct (G v Hv) as [Hm|?]; [|now right]. now apply Gm. }
  split.
  { intros n' [<-|Hn'] Hw Hni.
    - destruct Hcase as [[E H]|(p & item & P & Hid & _ & _)].
      + destruct (H Hw Hni); auto.
      + right. left. exists (p, item). split; [|exact Hid].
        apply O2. apply (Permutation_in _ (Permutation_sym P)). now left.
    - destruct (N n' Hn' Hw Hni) as [H1|[H2|H3]].
      + left. now rewrite <- Hc.
      + right. now left.
      + destruct (Gm _ H3); auto. }
  rewrite St. destruct Hcase as [[E _]|(p & item & P & Hid & Hnc & _)].
  - now rewrite E.
  - unfold stale. rewrite Hc. rewrite (filter_length_perm _ _ _ P).
    simpl. now rewrite Hid, Hnc.
Qed.

Lemma neighbours_have_weight (cn n : Node.t) :
  In n (nodes network) ->
  JS.prop_get (Node.trust_network cn) (Node.id n) <> None ->
  In n (List.filter (hasWeight cn) (nodes network)).
Proof.
  intros Hin Hw. apply filter_In. split; [exact Hin|].
  unfold hasWeight, JS.get, JS.member.
  destruct (JS.prop_get (Node.trust_network cn) (Node.id n));
    [reflexivity | congruence].
Qed.

(** One iteration of the loop on a node that is not the target. *)
Lemma iteration_preserves (s : SearchState) (e : Q * OpenItem)
    (rest : PriorityQueue.t OpenItem) (cn : Node.t) :
  ordinaryIds network ->
  SearchInv network start s ->
  openSet s = e :: rest ->
  lookupNode network (nodeId (snd e)) = Some cn ->
  let s2 := expandNeighbors network targetNode meme mode (snd e) (Some cn)
              (List.filter (hasWeight cn) (nodes network))
              (closeCurrent s (snd e) rest) in
  SearchInv network start s2 /\
  ((unclosed network s2 < unclosed network s)%nat \/
   (unclosed network s2 = unclosed network s /\ (stale s2 < stale s)%nat)).
Proof.
  intros Hord [I1 I2 I3 I4 I5 I6] Hopen Hcn. simpl.
  set (u := nodeId (snd e)) in *.
  set (s1 := closeCurrent s (snd e) rest).
  destruct (expandNeighbors_fold (snd e) cn
              (List.filter (hasWeight cn) (nodes network)) s1)
    as (C & O1 & O2 & G & N & St).
  set (s2 := fold_left (expand (snd e) cn)
               (List.filter (hasWeight cn) (nodes network)) s1) in *.
  assert (Hu : reachable network start u).
  { apply I1. rewrite Hopen. now left. }
  assert (Hcl : forall x, In x (closedSet s2) <-> In x (closedSet s) \/ x = u).
  { intro x. rewrite C. apply set_add_In. }
  assert (Hcov : forall v, covered s v -> covered s2 v).
  { intros v [Hv|(e' & He' & Hid)].
    - left. apply Hcl. now left.
    - rewrite Hopen in He'. destruct He' as [<-|He'].
      + left. apply Hcl. now right.
      + right. exists e'. split; [|exact Hid]. now apply O2. }
  split.
  - constructor.
    + intros e' He'. destruct (O1 e' He') as [Hr|(n & Hn & Hid & Hw)].
      * apply I1. rewrite Hopen. now right.
      * rewrite Hid. apply reach_step with u; [exact Hu|].
        apply filter_In in Hn. destruct Hn as [Hin _].
        exists cn, n. now repeat split.
    + intros c Hc. apply Hcl in Hc. destruct Hc as [Hc| ->]; auto.
    + now apply Hcov.
    + intros x v Hx Hxv. apply Hcl in Hx. destruct Hx as [Hx| ->].
      * apply Hcov. now apply I4 with x.
      * destruct Hxv as (nu & nv & Hnu & Hnv & Hid & Hw).
        fold u in Hcn. rewrite Hcn in Hnu. injection Hnu as <-. subst v.
        assert (Hf : In nv (List.filter (hasWeight cn) (nodes network)))
          by now apply neighbours_have_weight.
        destruct (N nv Hf Hw (Hord nv Hnv)) as [H1|[H2|H3]].
        -- left. now rewrite C.
        -- now right.
        -- apply Hcov. now apply I5.
    + intros v Hv. destruct (G v Hv) as [H1|H2].
      * apply Hcov. now apply I5.
      * now right.
    + rewrite C. now apply set_add_NoDup.
  - destruct (JS.set_has (closedSet s) u) eqn:Hhas.
    + right. split.
      * unfold unclosed. rewrite C. unfold s1.
        cbn [closeCurrent closedSet]. fold u.
        now rewrite (set_add_known _ _ Hhas).
      * rewrite St. unfold stale, s1. cbn [closeCurrent closedSet openSet].
        fold u. rewrite (set_add_known _ _ Hhas), Hopen.
        cbn [List.filter]. fold u. rewrite Hhas. cbn [length]. lia.
    + left. unfold unclosed. rewrite C.
      destruct (lookupNode_some _ _ _ Hcn) as [Hin Hid]. fold u in Hid.
      apply filter_length_lt with cn; [| exact Hin | |].
      * intros x _ Hx. apply negb_true_iff in Hx. apply negb_true_iff.
        apply set_has_not_In. apply set_has_not_In in Hx.
        intro Hx'. apply Hx. apply set_add_In. now left.
      * apply negb_false_iff. apply set_has_In. apply set_add_In.
        right. exact Hid.
      * apply negb_true_iff. now rewrite Hid.
Qed.

End SearchInvariant.

(* ------------------------------------------------------------------ *)
(** ** A search for an unreachable target exhausts the reachable part *)

Section Exhaustion.
Variable start : string.
Variable targetNode : Node.t.
Variable targetNodeId : string.
Variable meme : Meme.t.
Variable mode : AStarMode.

Lemma getNeighbors_run (u : string) (w : World) (cn : Node.t) :
  lookupNode (graph w) u = Some cn ->
  getNeighbors u w = (List.filter (hasWeight cn) (nodes (graph w)), w).
Proof.
  intro H. unfold getNeighbors, bind. rewrite findNode_run, H. reflexivity.
Qed.

Lemma searchLoop_step (fuel : nat) (s : SearchState) (w : World)
    (e : Q * OpenItem) (rest : PriorityQueue.t OpenItem) (cn : Node.t) :
  openSet s = e :: rest ->
  String.eqb (nodeId (snd e)) targetNodeId = false ->
  lookupNode (graph w) (nodeId (snd e)) = Some cn ->
  searchLoop (S fuel) targetNode targetNodeId meme mode s w =
  searchLoop fuel targetNode targetNodeId meme mode
    (expandNeighbors (graph w) targetNode meme mode (snd e) (Some cn)
       (List.filter (hasWeight cn) (nodes (graph w)))
       (closeCurrent s (snd e) rest)) w.
Proof.
  intros Ho He Hc. cbn [searchLoop]. rewrite Ho. cbn [PriorityQueue.pop].
  unfold bind. rewrite findNode_run, Hc, He, (getNeighbors_run _ _ _ Hc).
  reflexivity.
Qed.

Lemma searchLoop_empty (fuel : nat) (s : SearchState) (w : World) :
  openSet s = [] ->
  searchLoop (S fuel) targetNode targetNodeId meme mode s w =
  (Some (failure (length (closedSet s)) (frames s) mode), w).
Proof. intro Ho. cbn [searchLoop]. rewrite Ho. reflexivity. Qed.

Lemma reachable_is_node (network : Network) :
  lookupNode network start <> None ->
  forall x, reachable network start x ->
  exists n, lookupNode network x = Some n.
Proof.
  intros Hs x Hr. induction Hr as [|u v _ _ (nu & nv & _ & Hin & <- & _)].
  - destruct (lookupNode network start) as [n|]; [now exists n | congruence].
  - now apply lookupNode_in.
Qed.

Lemma searchLoop_exhausts (w : World) :
  ordinaryIds (graph w) ->
  lookupNode (graph w) start <> None ->
  ~ reachable (graph w) start targetNodeId ->
  forall n m s,
    SearchInv (graph w) start s ->
    unclosed (graph w) s = n -> stale s = m ->
    exists fuel0 r,
      (forall fuel, (fuel0 <= fuel)%nat ->
         fst (searchLoop fuel targetNode targetNodeId meme mode s w) = Some r) /\
      AStarResult.success r = false /\
      AStarResult.path r = [] /\
      AStarResult.cost r = None /\
      exists C, List.NoDup C /\
                (forall x, In x C <-> reachable (graph w) start x) /\
                AStarResult.exploredCount r = length C.
Proof.
  intros Hord Hs Hnt.
  induction n as [n IHn] using lt_wf_ind.
  induction m as [m IHm] using lt_wf_ind.
  intros s Inv Hn Hm.
  destruct (openSet s) as [|e rest] eqn:Ho.
  - exists 1%nat, (failure (length (closedSet s)) (frames s) mode).
    split.
    { intros [|fuel] Hf; [lia|]. now rewrite searchLoop_empty. }
    do 3 (split; [reflexivity|]).
    exists (closedSet s). destruct Inv as [I1 I2 I3 I4 I5 I6].
    split; [exact I6|]. split; [|reflexivity].
    assert (Hcov : forall v, covered s v -> In v (closedSet s)).
    { intros v [Hv|(e & He & _)]; [exact Hv|]. rewrite Ho in He. destruct He. }
    intro x. split; [apply I2|].
    intro Hr. induction Hr as [|u v _ IH Huv].
    + now apply Hcov.
    + apply Hcov. now apply I4 with u.
  - assert (Hu : reachable (graph w) start (nodeId (snd e))).
    { apply (inv_open_reachable _ _ _ Inv). rewrite Ho. now left. }
    assert (He : String.eqb (nodeId (snd e)) targetNodeId = false).
    { apply String.eqb_neq. intro E. apply Hnt. now rewrite <- E. }
    destruct (reachable_is_node _ Hs _ Hu) as [cn Hcn].
    destruct (iteration_preserves (graph w) start targetNode meme mode
                s e rest cn Hord Inv Ho Hcn) as [Inv2 Hm2].
    cbv zeta in Inv2, Hm2.
    set (s2 := expandNeighbors (graph w) targetNode meme mode (snd e) (Some cn)
                 (List.filter (hasWeight cn) (nodes (graph w)))
                 (closeCurrent s (snd e) rest)) in *.
    assert (Hrec : exists fuel0 r,
      (forall fuel, (fuel0 <= fuel)%nat ->
         fst (searchLoop fuel targetNode targetNodeId meme mode s2 w) = Some r) /\
      AStarResult.success r = false /\
      AStarResult.path r = [] /\
      AStarResult.cost r = None /\
      exists C, List.NoDup C /\
                (forall x, In x C <-> reachable (graph w) start x) /\
                AStarResult.exploredCount r = length C).
    { destruct Hm2 as [Hlt|[Heq Hlt]].
      - apply (IHn (unclosed (graph w) s2) ltac:(lia) (stale s2) s2 Inv2);
          reflexivity.
      - apply (IHm (stale s2) ltac:(lia) s2 Inv2); [lia | reflexivity]. }
    destruct Hrec as (fuel0 & r & Hrun & Hrest).
    exists (S fuel0), r. split; [|exact Hrest].
    intros [|fuel] Hf; [lia|].
    rewrite (searchLoop_step fuel s w e rest cn Ho He Hcn).
    apply Hrun. lia.
Qed.

End Exhaustion.

Section NoPath.

Lemma initial_search_inv (network : Network) (start : string) (h : Q) :
  SearchInv network start
    {| openSet :=
         PriorityQueue.push 0
           {| nodeId := start; path := [start]; gScore := 0 |} [];
       gScores := {[ start := 0%Q ]};
       fScores := {[ start := h ]};
       frames := []; closedSet := []; step := 0 |}.
Proof.
  assert (Hopen : inOpen
            {| openSet :=
                 PriorityQueue.push 0
                   {| nodeId := start; path := [start]; gScore := 0 |} [];
               gScores := {[ start := 0%Q ]};
               fScores := {[ start := h ]};
               frames := []; closedSet := []; step := 0 |} start).
  { eexists. split; [left; reflexivity | reflexivity]. }
  constructor; cbn [openSet closedSet gScores].
  - intros e [<-|[]]. constructor.
  - intros c [].
  - now right.
  - intros u v [].
  - intros v Hv. destruct (decide (start = v)) as [<-|Hne]; [now right|].
    now rewrite lookup_singleton_ne in Hv.
  - constructor.
Qed.

(** X24: in a network where no node id is the name of a member of
    Object.prototype, when source and target are nodes of the network and
    the target cannot be reached from the source along trust entries,
    astarInfluencePath (given enough fuel) returns success=false, and its
    exploredCount is the number of ids reachable from the source, the
    source included. *)
Theorem no_path_explores_reachable_component
    (w : World) (startNodeId targetNodeId : string)
    (meme : Meme.t) (mode : AStarMode) (component : list string) :
  ordinaryIds (graph w) ->
  lookupNode (graph w) startNodeId <> None ->
  lookupNode (graph w) targetNodeId <> None ->
  ~ reachable (graph w) startNodeId targetNodeId ->
  List.NoDup component ->
  (forall x, In x component <-> reachable (graph w) startNodeId x) ->
  exists fuel0 r,
    (forall fuel, (fuel0 <= fuel)%nat ->
       fst (astarInfluencePath fuel startNodeId targetNodeId meme mode w)
       = Some r) /\
    AStarResult.success r = false /\
    AStarResult.path r = [] /\
    AStarResult.exploredCount r = length component.
Proof.
  intros Hord Hs Ht Hnt Hnd Hcomp.
  destruct (lookupNode (graph w) startNodeId) as [sn|] eqn:Es; [|congruence].
  destruct (lookupNode (graph w) targetNodeId) as [tn|] eqn:Et; [|congruence].
  pose proof (initial_search_inv (graph w) startNodeId
                (calculateHeuristic sn tn meme (graph w) mode)) as Inv.
  destruct (searchLoop_exhausts startNodeId tn targetNodeId meme mode w
              Hord ltac:(congruence) Hnt _ _ _ Inv eq_refl eq_refl)
    as (fuel0 & r & Hrun & Hsucc & Hpath & _ & C & HC & HCr & Hcount).
  exists fuel0, r. split.
  { intros fuel Hf. unfold astarInfluencePath, bind.
    rewrite !findNode_run, Es, Et. cbn [readGraph]. now apply Hrun. }
  do 2 (split; [assumption|]).
  rewrite Hcount. apply Permutation_length.
  apply Stdlib.Sorting.Permutation.NoDup_Permutation; [exact HC | exact Hnd |].
  intro x. now rewrite HCr, Hcomp.
Qed.

End NoPath.

Section NoPathWitness.

Lemma reachable_within_closed_set (network : Network) (s : string) (R : list string) :
  In s R -> closedUnderTrust network R = true ->
  forall x, reachable network s x -> In x R.
Proof.
  intros Hs Hc x Hr. induction Hr as [|u v _ IH (nu & nv & Hnu & Hnv & <- & Hw)].
  - exact Hs.
  - unfold closedUnderTrust in Hc. rewrite forallb_forall in Hc.
    specialize (Hc u IH). rewrite Hnu in Hc. rewrite forallb_forall in Hc.
    specialize (Hc nv Hnv).
    destruct (JS.prop_get (Node.trust_network nu) (Node.id nv));
      [now apply set_has_In | congruence].
Qed.

(** In [Scenario.islands] the search from [s] for [t] fails after exploring
    the two ids [s] and [a]. *)
Lemma no_path_explores_reachable_component_witness :
  exists fuel0 r,
    (forall fuel, (fuel0 <= fuel)%nat ->
       fst (astarInfluencePath fuel "s" "t" Sample.neutral social_trust
              (Scenario.world Scenario.islands Scenario.noDraws))
       = Some r) /\
    AStarResult.success r = false /\
    AStarResult.path r = [] /\
    AStarResult.exploredCount r = length ["s"; "a"].
Proof.
  assert (Hclosed : forall x,
            reachable Scenario.islands "s" x -> In x ["s"; "a"]).
  { apply reachable_within_closed_set; [now left | vm_compute; reflexivity]. }
  apply (no_path_explores_reachable_component
           (Scenario.world Scenario.islands Scenario.noDraws)
           "s" "t" Sample.neutral social_trust ["s"; "a"]).
  - intros n [<-|[<-|[<-|[]]]]; reflexivity.
  - vm_compute. congruence.
  - vm_compute. congruence.
  - intro Hr. apply Hclosed in Hr. simpl in Hr.
    destruct Hr as [H|[H|[]]]; discriminate H.
  - repeat constructor; simpl; intros H;
      repeat (destruct H as [H|H]; try discriminate H); exact H.
  - intro x. split; [|apply Hclosed].
    simpl. intros [<-|[<-|[]]].
    + constructor.
    + apply reach_step with "s"; [constructor|].
      exists (Scenario.keen "s" [("a", 0.5%Q)]), (Scenario.keen "a" [("s", 0.5%Q)]).
      repeat split; simpl; auto.
Defined.

(** C5 fails on the code.  In [Scenario.namesake] the ids that can be
    reached from [s] are [s] and [constructor], and [t] is a node of
    another component; yet the search from [s] for [t] fails with
    exploredCount 1, in either mode.  getNeighbors returns the node
    [constructor] and [s] has an own trust weight for it, but
    [gScores["constructor"]] is the member that the object literal inherits
    from Object.prototype, so the neighbour is never pushed. *)
Theorem no_path_misses_neighbour_named_constructor :
  network_in_range Scenario.namesake /\
  lookupNode Scenario.namesake "s" <> None /\
  lookupNode Scenario.namesake "t" <> None /\
  ~ reachable Scenario.namesake "s" "t" /\
  (forall x, reachable Scenario.namesake "s" x <-> In x ["s"; "constructor"]) /\
  forall mode, exists r,
    fst (astarInfluencePath 10 "s" "t" Sample.neutral mode
           (Scenario.world Scenario.namesake Scenario.noDraws)) = Some r /\
    AStarResult.success r = false /\
    AStarResult.exploredCount r = 1%nat /\
    AStarResult.exploredCount r <> length ["s"; "constructor"].
Proof.
  assert (Hclosed : forall x,
            reachable Scenario.namesake "s" x -> In x ["s"; "constructor"]).
  { apply reachable_within_closed_set; [now left | vm_compute; reflexivity]. }
  split; [repeat constructor; vm_compute; congruence|].
  split; [vm_compute; congruence|].
  split; [vm_compute; congruence|].
  split.
  { intro Hr. apply Hclosed in Hr. simpl in Hr.
    destruct Hr as [H|[H|[]]]; discriminate H. }
  split.
  { intro x. split; [apply Hclosed|].
    simpl. intros [<-|[<-|[]]].
    - constructor.
    - apply reach_step with "s"; [constructor|].
      exists (Scenario.keen "s" [("constructor", 0.5%Q)]),
             (Scenario.keen "constructor" [("s", 0.5%Q)]).
      repeat split; simpl; auto. }
  intros [|]; eexists; (split; [vm_compute; reflexivity|]);
    repeat split; cbn; congruence.
Qed.

End NoPathWitness.

(* ------------------------------------------------------------------ *)
(** ** Frame: none of the services writes to the graph *)

Section Frame.

Lemma keepsGraph_ret {A} (a : A) : keepsGraph (ret a).
Proof. intro w. reflexivity. Qed.

Lemma keepsGraph_bind {A B} (m : M A) (k : A -> M B) :
  keepsGraph m -> (forall a, keepsGraph (k a)) -> keepsGraph (bind m k).
Proof.
  intros Hm Hk w. unfold bind. specialize (Hm w).
  destruct (m w) as [a w']. simpl in Hm. rewrite <- Hm. apply Hk.
Qed.

Lemma keepsGraph_readGraph : keepsGraph readGraph.
Proof. intro w. reflexivity. Qed.

Lemma keepsGraph_random : keepsGraph Math_random.
Proof. intro w. reflexivity. Qed.

Lemma keepsGraph_count : keepsGraph countSpreadCall.
Proof. intro w. reflexivity. Qed.

Lemma keepsGraph_findNode (i : string) : keepsGraph (findNode i).
Proof. intro w. reflexivity. Qed.

(** Peels one layer of a computation: binds, branches, primitives. *)
Ltac frame_step :=
  first
    [ assumption
    | progress cbv zeta
    | progress unfold bindO
    | match goal with
      | |- keepsGraph (ret _) => apply keepsGraph_ret
      | |- keepsGraph readGraph => apply keepsGraph_readGraph
      | |- keepsGraph Math_random => apply keepsGraph_random
      | |- keepsGraph countSpreadCall => apply keepsGraph_count
      | |- keepsGraph (findNode _) => apply keepsGraph_findNode
      | |- keepsGraph (bind _ _) => apply keepsGraph_bind; [|intro]
      | |- keepsGraph (match ?x with _ => _ end) => destruct x
      end ].

Ltac frame := repeat frame_step.

Lemma keepsGraph_astar (fuel : nat) (startNodeId targetNodeId : string)
    (meme : Meme.t) (mode : AStarMode) :
  keepsGraph (astarInfluencePath fuel startNodeId targetNodeId meme mode).
Proof. intro w. now rewrite astarInfluencePath_world. Qed.

Lemma keepsGraph_tryNeighbors (meme : Meme.t) (cn : Node.t)
    (entries : list (string * Q)) :
  forall infectedSet todo, keepsGraph (tryNeighbors meme cn entries infectedSet todo).
Proof.
  induction entries as [|[neighborId trustWeight] entries IH]; intros; simpl;
    frame; apply IH.
Qed.

Lemma keepsGraph_cascadeLoop (n : nat) (meme : Meme.t) :
  forall infectedSet todo, keepsGraph (cascadeLoop n meme infectedSet todo).
Proof.
  induction n as [|n IH]; intros infectedSet [|c todo]; simpl; frame;
    try apply IH; apply keepsGraph_tryNeighbors.
Qed.

Lemma keepsGraph_simulationLoop (fuel : nat) (meme : Meme.t) (set : list string)
    (simulations : nat) :
  forall total, keepsGraph (simulationLoop fuel meme set simulations total).
Proof.
  induction simulations as [|k IH]; intro total; simpl; frame;
    [apply keepsGraph_cascadeLoop | apply IH].
Qed.

Lemma keepsGraph_estimateSpread (fuel : nat) (set : list string) (meme : Meme.t)
    (simulations : nat) :
  keepsGraph (estimateSpread fuel set meme simulations).
Proof. unfold estimateSpread. frame. apply keepsGraph_simulationLoop. Qed.

Lemma keepsGraph_marginalGain (fuel : nat) (set : list string) (i : string)
    (meme : Meme.t) (simulations : nat) :
  keepsGraph (calculateMarginalGain fuel set i meme simulations).
Proof.
  unfold calculateMarginalGain. frame; apply keepsGraph_estimateSpread.
Qed.

Lemma keepsGraph_celfInit (fuel : nat) (meme : Meme.t) (simulations : nat)
    (set : list string) (todo : list Node.t) :
  forall Q, keepsGraph (celfInit fuel meme simulations set todo Q).
Proof.
  induction todo as [|node todo IH]; intro Q; simpl; frame;
    try apply IH; apply keepsGraph_marginalGain.
Qed.

Lemma keepsGraph_celfPick (fuel n : nat) (meme : Meme.t) (simulations : nat) :
  forall s, keepsGraph (celfPick fuel n meme simulations s).
Proof.
  induction n as [|n IH]; intro s; simpl; frame;
    try apply IH; apply keepsGraph_marginalGain.
Qed.

Lemma keepsGraph_celfRounds (fuel n : nat) (meme : Meme.t)
    (budget simulations : nat) :
  forall s, keepsGraph (celfRounds fuel n meme budget simulations s).
Proof.
  induction n as [|n IH]; intro s; simpl; frame;
    try apply IH; apply keepsGraph_celfPick.
Qed.

Lemma keepsGraph_celfSelection (fuel : nat) (meme : Meme.t)
    (budget simulations : nat) :
  keepsGraph (celfSelection fuel meme budget simulations).
Proof.
  unfold celfSelection. frame;
    [apply keepsGraph_celfInit | apply keepsGraph_celfRounds].
Qed.

Lemma keepsGraph_celfPlusPlusInit (fuel : nat) (meme : Meme.t) (simulations : nat)
    (set : list string) (todo : list Node.t) :
  forall best Q,
    keepsGraph (celfPlusPlusInit fuel meme simulations set todo best Q).
Proof.
  induction todo as [|node todo IH]; intros best Q; simpl; frame;
    try apply IH; apply keepsGraph_marginalGain.
Qed.

Lemma keepsGraph_celfPlusPlusPick (fuel n : nat) (meme : Meme.t)
    (simulations : nat) :
  forall s, keepsGraph (celfPlusPlusPick fuel n meme simulations s).
Proof.
  induction n as [|n IH]; intro s; simpl; frame;
    try apply IH; apply keepsGraph_marginalGain.
Qed.

Lemma keepsGraph_celfPlusPlusRounds (fuel n : nat) (meme : Meme.t)
    (budget simulations : nat) :
  forall s, keepsGraph (celfPlusPlusRounds fuel n meme budget simulations s).
Proof.
  induction n as [|n IH]; intro s; simpl; frame;
    try apply IH; apply keepsGraph_celfPlusPlusPick.
Qed.

Lemma keepsGraph_celfPlusPlusSelection (fuel : nat) (meme : Meme.t)
    (budget simulations : nat) :
  keepsGraph (celfPlusPlusSelection fuel meme budget simulations).
Proof.
  unfold celfPlusPlusSelection. frame;
    [apply keepsGraph_celfPlusPlusInit | apply keepsGraph_celfPlusPlusRounds].
Qed.

(** By contrast, the simulation step of propagation.ts does write: run on
    [Scenario.islands] from the first node with a random source that
    always draws 0, it leaves the second node infected. *)
Lemma propagation_step_writes_to_graph :
  let w := Scenario.world Scenario.islands Scenario.noDraws in
  let w' := snd (simulatePropagationStep [0%nat] Scenario.viral 0 w) in
  map Node.state (nodes (graph w)) = [susceptible; susceptible; susceptible] /\
  map Node.state (nodes (graph w')) = [susceptible; infected; susceptible] /\
  ~ keepsGraph (simulatePropagationStep [0%nat] Scenario.viral 0).
Proof.
  split; [reflexivity|]. split; [vm_compute; reflexivity|].
  intro H.
  specialize (H (Scenario.world Scenario.islands Scenario.noDraws)).
  apply (f_equal (fun g => map Node.state (nodes g))) in H.
  vm_compute in H. discriminate H.
Qed.

(** C7: whatever the fuel and the arguments, the world that
    astarInfluencePath, celfSelection and celfPlusPlusSelection hand back
    holds the very graph they were given: every node, with its state and
    all its other fields, is as before the call. *)
Theorem services_leave_graph_untouched
    (fuel : nat) (w : World) (startNodeId targetNodeId : string)
    (meme : Meme.t) (mode : AStarMode) (budget simulations : nat) :
  graph (snd (astarInfluencePath fuel startNodeId targetNodeId meme mode w))
    = graph w /\
  graph (snd (celfSelection fuel meme budget simulations w)) = graph w /\
  graph (snd (celfPlusPlusSelection fuel meme budget simulations w)) = graph w.
Proof.
  split; [apply keepsGraph_astar|].
  split; [apply keepsGraph_celfSelection | apply keepsGraph_celfPlusPlusSelection].
Qed.

End Frame.

(* ------------------------------------------------------------------ *)
(** ** One Monte-Carlo cascade terminates *)

Section Cascade.
Variable meme : Meme.t.

Lemma set_add_length_new (s : list string) (x : string) :
  JS.set_has s x = false -> length (JS.set_add s x) = S (length s).
Proof.
  intro H. unfold JS.set_add. rewrite H. rewrite length_app. simpl. lia.
Qed.

Lemma uninfected_bound (network : Network) (set : list string) :
  (uninfected network set <= length (nodes network))%nat.
Proof. unfold uninfected. apply List.filter_length_le. Qed.

(** Infecting a node of the network that was not infected shrinks the
    susceptible pool. *)
Lemma uninfected_shrinks (network : Network) (set : list string)
    (i : string) (n : Node.t) :
  lookupNode network i = Some n -> JS.set_has set i = false ->
  (S (uninfected network (JS.set_add set i)) <= uninfected network set)%nat.
Proof.
  intros Hn Hi. destruct (lookupNode_some _ _ _ Hn) as [Hin Hid].
  unfold uninfected. apply filter_length_lt with n; [| exact Hin | |].
  - intros x _ Hx. apply negb_true_iff in Hx. apply negb_true_iff.
    apply set_has_not_In. apply set_has_not_In in Hx.
    intro Hx'. apply Hx. apply set_add_In. now left.
  - apply negb_false_iff. apply set_has_In. apply set_add_In. now right.
  - apply negb_true_iff. now rewrite Hid.
Qed.

(** The loop over the neighbours of one node: what it adds to the queue
    and to the infected set, it takes from the susceptible pool. *)
Lemma tryNeighbors_measure (cn : Node.t) (entries : list (string * Q)) :
  forall set todo w,
    let r := tryNeighbors meme cn entries set todo w in
    graph (snd r) = graph w /\
    (length (snd (fst r)) + uninfected (graph w) (fst (fst r))
       <= length todo + uninfected (graph w) set)%nat /\
    (length (fst (fst r)) + uninfected (graph w) (fst (fst r))
       <= length set + uninfected (graph w) set)%nat.
Proof.
  induction entries as [|[neighborId trustWeight] entries IH];
    intros set todo w; cbn [tryNeighbors].
  { cbn. repeat split; lia. }
  destruct (JS.set_has set neighborId) eqn:Hhas; [apply IH|].
  unfold bind. rewrite findNode_run.
  destruct (lookupNode (graph w) neighborId) as [nb|] eqn:Hnb; [|apply IH].
  cbn [Math_random].
  set (w' := {| graph := graph w; random_draws := random_draws w;
                random_next := S (random_next w);
                spread_calls := spread_calls w |}).
  assert (Hg : graph w' = graph w) by reflexivity.
  destruct (JS.ltb _ _).
  - specialize (IH (JS.set_add set neighborId) (todo ++ [neighborId]) w').
    cbv zeta in IH |- *. rewrite Hg in IH.
    destruct IH as (G & Q1 & Q2). split; [exact G|].
    pose proof (uninfected_shrinks _ _ _ _ Hnb Hhas).
    rewrite length_app in Q1. cbn [length] in Q1.
    rewrite (set_add_length_new _ _ Hhas) in Q2. split; lia.
  - specialize (IH set todo w'). cbv zeta in IH |- *.
    now rewrite Hg in IH.
Qed.

Lemma cascadeLoop_terminates (n : nat) :
  forall set todo w,
    (length todo + uninfected (graph w) set <= n)%nat ->
    exists final,
      fst (cascadeLoop n meme set todo w) = Some final /\
      (length final <= length set + uninfected (graph w) set)%nat.
Proof.
  induction n as [|n IH]; intros set [|c todo] w Hn; cbn [cascadeLoop].
  - exists set. split; [reflexivity | lia].
  - cbn [length] in Hn. lia.
  - exists set. split; [reflexivity | lia].
  - cbn [length] in Hn. unfold bind. rewrite findNode_run.
    destruct (lookupNode (graph w) c) as [cn|].
    + pose proof (tryNeighbors_measure cn (Node.trust_network cn) set todo w)
        as H. cbv zeta in H.
      destruct (tryNeighbors meme cn (Node.trust_network cn) set todo w)
        as [[set' todo'] w'].
      cbn [fst snd] in H |- *. destruct H as (G & Q1 & Q2).
      destruct (IH set' todo' w') as (final & Hrun & Hlen).
      { rewrite G. lia. }
      exists final. split; [exact Hrun|]. rewrite G in Hlen. lia.
    + apply IH. lia.
Qed.

(** C9: for every network, seed set, meme and random source, one cascade
    run ends as soon as its loop may take as many steps as there are seeds
    and nodes together.  An id is enqueued exactly when it is added to the
    infected set, so the enqueue operations are the growth of that set, at
    most the number of nodes. *)
Theorem cascade_terminates (w : World) (set : list string) (spare : nat) :
  exists final,
    fst (simulateCascade (length set + length (nodes (graph w)) + spare)
           meme set w) = Some final /\
    (length final - length set <= length (nodes (graph w)))%nat.
Proof.
  unfold simulateCascade.
  pose proof (uninfected_bound (graph w) set).
  destruct (cascadeLoop_terminates
              (length set + length (nodes (graph w)) + spare) set set w
              ltac:(lia)) as (final & Hrun & Hlen).
  exists final. split; [exact Hrun | lia].
Qed.

End Cascade.

(* ------------------------------------------------------------------ *)
(** ** CELF against CELF++ on one input *)

Section Selectors.

(** C8 fails on the code.  On [Scenario.relay] with budget 1, one
    simulation per estimate and the same random source, celfSelection
    picks [c] after 6 calls of estimateSpread, celfPlusPlusSelection picks
    [a] after 10 calls. *)
Theorem celf_plus_plus_differs_and_costs_more :
  let w := Scenario.world Scenario.relay Scenario.secondDrawLow in
  fst (celfSelection 10 Scenario.viral 1 1 w) = Some ["c"] /\
  spread_calls (snd (celfSelection 10 Scenario.viral 1 1 w)) = 6%nat /\
  fst (celfPlusPlusSelection 10 Scenario.viral 1 1 w) = Some ["a"] /\
  spread_calls (snd (celfPlusPlusSelection 10 Scenario.viral 1 1 w)) = 10%nat.
Proof. vm_compute. repeat split. Qed.

(** With two isolated candidates no random draw is ever made, the two
    selectors agree on the seed, and CELF++ still makes 6 calls against
    4. *)
Lemma celf_plus_plus_costs_more_without_randomness :
  let w := Scenario.world
             {| nodes := [Scenario.keen "a" []; Scenario.keen "b" []];
                edges := [] |} Scenario.noDraws in
  fst (celfSelection 10 Scenario.viral 1 1 w) = Some ["a"] /\
  spread_calls (snd (celfSelection 10 Scenario.viral 1 1 w)) = 4%nat /\
  fst (celfPlusPlusSelection 10 Scenario.viral 1 1 w) = Some ["a"] /\
  spread_calls (snd (celfPlusPlusSelection 10 Scenario.viral 1 1 w)) = 6%nat /\
  random_next (snd (celfPlusPlusSelection 10 Scenario.viral 1 1 w)) = 0%nat.
Proof. vm_compute. repeat split. Qed.

End Selectors.

(* ================================================================== *)
(** * Further properties of the engine *)

(* ------------------------------------------------------------------ *)
(** ** The probabilities and the edge costs inside the documented ranges *)

Section ModelInRange.
Local Open Scope Q_scope.

Lemma critical_penalty_range (node : Node.t) (meme : Meme.t) :
  node_in_range node -> meme_in_range meme ->
  0 <= AcceptanceSpec.criticalPenalty node meme <= 1.
Proof.
  intros (_ & _ & Hct & _) (_ & _ & Hfa & _).
  unfold AcceptanceSpec.criticalPenalty.
  destruct (Qlt_le_dec _ _); [|lra]. split; [apply Qmult_le_0_compat; lra|].
  nra.
Qed.

Lemma alignment_score_range (node : Node.t) (meme : Meme.t) :
  node_in_range node -> meme_in_range meme ->
  -1 <= AcceptanceSpec.alignmentScore node meme <= 1.
Proof.
  intros Hn Hm. pose proof (critical_penalty_range node meme Hn Hm) as Hc.
  destruct Hn as (Hpl & _). destruct Hm as (Hpb & _).
  unfold AcceptanceSpec.alignmentScore.
  set (c := AcceptanceSpec.criticalPenalty node meme) in *.
  set (x := political_leaning (Node.attributes node)
            - political_bias (Meme.attributes meme)).
  assert (Hd : 0 <= Qabs x <= 2).
  { split; [apply Qabs_nonneg|]. apply Qabs_Qle_condition. unfold x. lra. }
  nra.
Qed.

Lemma virality_boost_range (node : Node.t) (meme : Meme.t) :
  node_in_range node -> meme_in_range meme ->
  1 <= AcceptanceSpec.viralityBoost node meme <= 2.
Proof.
  intros (_ & Hes & _) (_ & _ & _ & _ & Hvf & _).
  unfold AcceptanceSpec.viralityBoost. nra.
Qed.

Lemma acceptance_as_spec (node : Node.t) (meme : Meme.t) (src : Node.t) (w : Q) :
  calculateAcceptanceProbability node meme src w =
  clamp (0.3 * w * AcceptanceSpec.alignmentScore node meme
         * AcceptanceSpec.viralityBoost node meme) 0.05 0.95.
Proof.
  unfold calculateAcceptanceProbability; cbv zeta.
  rewrite ltb_dec_agree. reflexivity.
Qed.

Lemma clamp_floor (x lo hi : Q) :
  lo <= hi -> x <= lo -> JS.max lo (JS.min hi x) == lo.
Proof.
  intros Hlh Hx.
  destruct (min_cases hi x) as [[H1 E1]|[H1 E1]]; rewrite E1;
    match goal with
    | |- context [JS.max ?a ?b] =>
        destruct (max_cases a b) as [[H2 E2]|[H2 E2]]; rewrite E2
    end; lra.
Qed.

(** X1: with node and meme attributes in their ranges and a trust weight in
    [0,1], the acceptance probability lies in [0.05, 0.6]: the upper clamp
    at 0.95 is never reached. *)
Theorem acceptance_at_most_six_tenths
    (node : Node.t) (meme : Meme.t) (src : Node.t) (w : Q) :
  node_in_range node -> meme_in_range meme -> 0 <= w <= 1 ->
  0.05 <= calculateAcceptanceProbability node meme src w <= 0.6.
Proof.
  intros Hn Hm Hw. rewrite acceptance_as_spec.
  pose proof (alignment_score_range node meme Hn Hm) as Ha.
  pose proof (virality_boost_range node meme Hn Hm) as Hb.
  set (a := AcceptanceSpec.alignmentScore node meme) in *.
  set (b := AcceptanceSpec.viralityBoost node meme) in *.
  assert (Hraw : 0.3 * w * a * b <= 0.6).
  { assert (H1 : w * a <= 1) by nra.
    assert (H2 : -1 <= w * a) by nra.
    nra. }
  unfold clamp.
  destruct (min_cases 0.95 (0.3 * w * a * b)) as [[H1 E1]|[H1 E1]]; rewrite E1;
    match goal with
    | |- context [JS.max ?x ?y] =>
        destruct (max_cases x y) as [[H2 E2]|[H2 E2]]; rewrite E2
    end; lra.
Qed.

Lemma acceptance_at_most_six_tenths_witness :
  0.05 <= calculateAcceptanceProbability Sample.plain Sample.neutral Sample.plain 1
       <= 0.6.
Proof.
  apply (acceptance_at_most_six_tenths Sample.plain Sample.neutral Sample.plain 1).
  - vm_compute. repeat split; congruence.
  - vm_compute. repeat split; congruence.
  - vm_compute. split; congruence.
Defined.

(** X2: in range, a larger (non-negative) trust weight never lowers the
    acceptance probability. *)
Theorem acceptance_monotone_in_trust
    (node : Node.t) (meme : Meme.t) (src : Node.t) (w1 w2 : Q) :
  node_in_range node -> meme_in_range meme -> 0 <= w1 -> w1 <= w2 ->
  calculateAcceptanceProbability node meme src w1
    <= calculateAcceptanceProbability node meme src w2.
Proof.
  intros Hn Hm H0 H12. rewrite !acceptance_as_spec.
  pose proof (alignment_score_range node meme Hn Hm) as Ha.
  pose proof (virality_boost_range node meme Hn Hm) as Hb.
  set (a := AcceptanceSpec.alignmentScore node meme) in *.
  set (b := AcceptanceSpec.viralityBoost node meme) in *.
  clearbody a b. unfold clamp.
  destruct (Qlt_le_dec a 0) as [Hneg|Hpos].
  - (* a repelled node: both sides sit at the floor *)
    assert (R1 : 0.3 * w1 * a * b <= 0).
    { assert (0 <= w1 * (- a) * b) by (repeat apply Qmult_le_0_compat; lra).
      lra. }
    assert (R2 : 0.3 * w2 * a * b <= 0).
    { assert (0 <= w2 * (- a) * b) by (repeat apply Qmult_le_0_compat; lra).
      lra. }
    rewrite !clamp_floor by lra. lra.
  - apply max_min_mono.
    assert (0 <= (w2 - w1) * a * b) by (repeat apply Qmult_le_0_compat; lra).
    lra.
Qed.

Lemma acceptance_monotone_in_trust_witness :
  calculateAcceptanceProbability Sample.plain Sample.neutral Sample.plain 0.2
    <= calculateAcceptanceProbability Sample.plain Sample.neutral Sample.plain 0.9.
Proof.
  apply (acceptance_monotone_in_trust Sample.plain Sample.neutral Sample.plain
           0.2 0.9).
  - vm_compute. repeat split; congruence.
  - vm_compute. repeat split; congruence.
  - vm_compute. congruence.
  - vm_compute. congruence.
Defined.

(** X3: a node whose political leaning is at distance 1 or more from the
    bias of the meme accepts it with the floor probability 0.05, whatever
    the (non-negative) trust weight. *)
Theorem acceptance_floor_for_opposed_node
    (node : Node.t) (meme : Meme.t) (src : Node.t) (w : Q) :
  node_in_range node -> meme_in_range meme -> 0 <= w ->
  1 <= Qabs (political_leaning (Node.attributes node)
             - political_bias (Meme.attributes meme)) ->
  calculateAcceptanceProbability node meme src w == 0.05.
Proof.
  intros Hn Hm Hw Hd. rewrite acceptance_as_spec.
  pose proof (critical_penalty_range node meme Hn Hm) as Hc.
  pose proof (virality_boost_range node meme Hn Hm) as Hb.
  unfold AcceptanceSpec.alignmentScore.
  set (c := AcceptanceSpec.criticalPenalty node meme) in *.
  set (b := AcceptanceSpec.viralityBoost node meme) in *.
  set (d := Qabs _) in *.
  assert (R : 0.3 * w * ((1 - d) * (1 - c)) * b <= 0).
  { assert (0 <= w * ((d - 1) * (1 - c)) * b)
      by (repeat apply Qmult_le_0_compat; lra).
    lra. }
  unfold clamp. apply clamp_floor; lra.
Qed.

Lemma acceptance_floor_for_opposed_node_witness :
  calculateAcceptanceProbability
    (Sample.person "r" rural_traditional (Sample.attrs 0.8 1 0 0.5 0.5) [])
    (Sample.content (-0.5) 1 0.9 0.5 1 1) Sample.plain 1 == 0.05.
Proof.
  apply (acceptance_floor_for_opposed_node
           (Sample.person "r" rural_traditional (Sample.attrs 0.8 1 0 0.5 0.5) [])
           (Sample.content (-0.5) 1 0.9 0.5 1 1) Sample.plain 1).
  - vm_compute. repeat split; congruence.
  - vm_compute. repeat split; congruence.
  - vm_compute. congruence.
  - vm_compute. congruence.
Defined.

(** X4: the mode-A cost never rises when the trust weight rises (target
    attributes in range), and at full trust it is the floor 0.05. *)
Theorem social_trust_cost_antitone_in_trust
    (u v : Node.t) (w1 w2 : Q) :
  node_in_range v -> w1 <= w2 ->
  calculateSocialTrustCost u v w2 <= calculateSocialTrustCost u v w1 /\
  calculateSocialTrustCost u v 1 == 0.05.
Proof.
  intros (_ & _ & _ & _ & Hsa) H12.
  unfold calculateSocialTrustCost; cbv zeta.
  set (i := if IdentityClass_eqb _ _ then 0.8 else 1.0).
  assert (Hi : 0 <= i) by (unfold i; destruct (IdentityClass_eqb _ _); lra).
  set (d := JS.abs _).
  assert (Hd : 0 <= d) by apply Qabs_nonneg.
  clearbody i d. split.
  - apply max_min_mono.
    assert (0 <= (w2 - w1) * i * (1 + d * 0.3)
                 * (1 - social_activity (Node.attributes v) * 0.2))
      by (repeat apply Qmult_le_0_compat; lra).
    lra.
  - apply clamp_floor; [lra|].
    assert (E : (1 - 1) * i * (1 + d * 0.3)
                * (1 - social_activity (Node.attributes v) * 0.2) == 0) by ring.
    rewrite E. lra.
Qed.

Lemma social_trust_cost_antitone_in_trust_witness :
  calculateSocialTrustCost Sample.plain Sample.plain 0.9
    <= calculateSocialTrustCost Sample.plain Sample.plain 0.2 /\
  calculateSocialTrustCost Sample.plain Sample.plain 1 == 0.05.
Proof.
  apply (social_trust_cost_antitone_in_trust Sample.plain Sample.plain 0.2 0.9).
  - vm_compute. repeat split; congruence.
  - vm_compute. congruence.
Defined.

(** X5: with both nodes in range and a trust weight in [0,1] the mode-A
    cost is at most 1.6, so the upper clamp at 2.0 is never reached. *)
Theorem social_trust_cost_at_most_1_6 (u v : Node.t) (w : Q) :
  node_in_range u -> node_in_range v -> 0 <= w <= 1 ->
  0.05 <= calculateSocialTrustCost u v w <= 1.6.
Proof.
  intros (Hpu & _) (Hpv & _ & _ & _ & Hsa) Hw.
  unfold calculateSocialTrustCost; cbv zeta.
  set (i := if IdentityClass_eqb _ _ then 0.8 else 1.0).
  assert (Hi : 0 <= i <= 1) by (unfold i; destruct (IdentityClass_eqb _ _); lra).
  set (d := JS.abs _).
  assert (Hd : 0 <= d <= 2).
  { split; [apply Qabs_nonneg|]. apply Qabs_Qle_condition. lra. }
  clearbody i d.
  set (a := 1 - social_activity (Node.attributes v) * 0.2).
  assert (Ha : 0 <= a <= 1) by (unfold a; lra). clearbody a.
  assert (Hraw : (1 - w) * i * (1 + d * 0.3) * a <= 1.6).
  { assert (H1 : 0 <= (1 - w) * i <= 1) by nra.
    assert (H2 : 0 <= (1 - w) * i * (1 + d * 0.3) <= 1.6) by nra.
    nra. }
  destruct (min_cases 2.0 ((1 - w) * i * (1 + d * 0.3) * a))
    as [[H1 E1]|[H1 E1]]; rewrite E1;
    match goal with
    | |- context [JS.max ?x ?y] =>
        destruct (max_cases x y) as [[H2 E2]|[H2 E2]]; rewrite E2
    end; lra.
Qed.

Lemma social_trust_cost_at_most_1_6_witness :
  0.05 <= calculateSocialTrustCost Sample.plain Sample.plain 0.5 <= 1.6.
Proof.
  apply (social_trust_cost_at_most_1_6 Sample.plain Sample.plain 0.5).
  - vm_compute. repeat split; congruence.
  - vm_compute. repeat split; congruence.
  - vm_compute. split; congruence.
Defined.

Lemma meme_cost_as_spec (node : Node.t) (meme : Meme.t) (src : Node.t) (w : Q) :
  calculateMemeTrustCost node meme src w =
  1 - JS.max 0.05
        (JS.min 0.95
           (0.3 * w
            * (AcceptanceSpec.alignmentScore node meme
               * (1 - Qabs (complexity (Meme.attributes meme)
                            - education_level (Node.attributes node)) * 0.3))
            * AcceptanceSpec.viralityBoost node meme
            * (0.7 + source_credibility (Meme.attributes meme) * 0.3))).
Proof.
  unfold calculateMemeTrustCost; cbv zeta. rewrite ltb_dec_agree. reflexivity.
Qed.

(** X6: with attributes in range and a trust weight in [0,1] every mode-B
    edge costs at least 0.4: the probability inside the cost never exceeds
    0.6. *)
Theorem meme_trust_cost_at_least_four_tenths
    (node : Node.t) (meme : Meme.t) (src : Node.t) (w : Q) :
  node_in_range node -> meme_in_range meme -> 0 <= w <= 1 ->
  0.4 <= calculateMemeTrustCost node meme src w <= 0.95.
Proof.
  intros Hn Hm Hw.
  pose proof (alignment_score_range node meme Hn Hm) as Ha.
  pose proof (virality_boost_range node meme Hn Hm) as Hb.
  rewrite meme_cost_as_spec.
  set (a := AcceptanceSpec.alignmentScore node meme) in *.
  set (b := AcceptanceSpec.viralityBoost node meme) in *.
  set (x := Qabs _).
  assert (Hx : 0 <= x <= 1).
  { split; [apply Qabs_nonneg|]. apply Qabs_Qle_condition.
    destruct Hn as (_ & _ & _ & He & _).
    destruct Hm as (_ & _ & _ & Hc & _). lra. }
  assert (Hcr : 0.7 <= 0.7 + source_credibility (Meme.attributes meme) * 0.3 <= 1).
  { destruct Hm as (_ & _ & _ & _ & _ & Hs). lra. }
  set (cr := 0.7 + source_credibility (Meme.attributes meme) * 0.3) in *.
  clearbody a b x cr.
  assert (Hraw : 0.3 * w * (a * (1 - x * 0.3)) * b * cr <= 0.6).
  { assert (H1 : -1 <= a * (1 - x * 0.3) <= 1) by nra.
    assert (H2 : -1 <= w * (a * (1 - x * 0.3)) <= 1) by nra.
    assert (H3 : -2 <= w * (a * (1 - x * 0.3)) * b <= 2) by nra.
    nra. }
  destruct (min_cases 0.95 (0.3 * w * (a * (1 - x * 0.3)) * b * cr))
    as [[H1 E1]|[H1 E1]]; rewrite E1;
    match goal with
    | |- context [JS.max ?p ?q] =>
        destruct (max_cases p q) as [[H2 E2]|[H2 E2]]; rewrite E2
    end; lra.
Qed.

Lemma meme_trust_cost_at_least_four_tenths_witness :
  0.4 <= calculateMemeTrustCost Sample.plain Sample.neutral Sample.plain 1 <= 0.95.
Proof.
  apply (meme_trust_cost_at_least_four_tenths
           Sample.plain Sample.neutral Sample.plain 1).
  - vm_compute. repeat split; congruence.
  - vm_compute. repeat split; congruence.
  - vm_compute. split; congruence.
Defined.


(** X8: seen from the target itself, neither heuristic is zero: when the
    target's trust entries read at its own id give undefined (no own
    entry, and the id is not the name of a member of Object.prototype),
    mode A estimates at least 1.0 and mode B at least 0.8 (attributes in
    range). *)
Theorem heuristic_not_zero_at_target
    (t : Node.t) (meme : Meme.t) (network : Network) :
  node_in_range t -> meme_in_range meme ->
  JS.get (Node.trust_network t) (Node.id t) = JS.Undefined ->
  1 <= socialTrustHeuristic t t network /\
  0.8 <= memeTrustHeuristic t t meme network.
Proof.
  intros (Hpl & Hes & Hct & Hed & Hsa) Hm Hself.
  destruct Hm as (_ & _ & _ & _ & Hvf & _).
  unfold socialTrustHeuristic, memeTrustHeuristic; cbv zeta. rewrite Hself.
  split.
  - destruct (IdentityClass_eqb _ _);
      pose proof (Qabs_nonneg (political_leaning (Node.attributes t)
                               - political_leaning (Node.attributes t)));
      unfold JS.abs; lra.
  - pose proof (Qabs_nonneg (political_leaning (Node.attributes t)
                             - political_bias (Meme.attributes meme))) as A1.
    pose proof (Qabs_nonneg (complexity (Meme.attributes meme)
                             - education_level (Node.attributes t))) as A2.
    assert (A3 : 0 <= (1 - emotional_susceptibility (Node.attributes t))
                      * (1 - virality_factor (Meme.attributes meme)) * 0.3)
      by (repeat apply Qmult_le_0_compat; lra).
    unfold JS.abs.
    destruct (JS.ltb _ _); lra.
Qed.

Lemma heuristic_not_zero_at_target_witness :
  1 <= socialTrustHeuristic Sample.plain Sample.plain Scenario.islands /\
  0.8 <= memeTrustHeuristic Sample.plain Sample.plain Sample.neutral
           Scenario.islands.
Proof.
  apply (heuristic_not_zero_at_target Sample.plain Sample.neutral
           Scenario.islands).
  - vm_compute. repeat split; congruence.
  - vm_compute. repeat split; congruence.
  - reflexivity.
Defined.

End ModelInRange.

(* ------------------------------------------------------------------ *)
(** ** The priority queue of the pathfinder *)

Section Queue.
Context {T : Type}.
Local Open Scope Q_scope.

Local Abbreviation byPriority := (fun a b : Q * T => fst a - fst b).

Lemma byPriority_le (a b : Q * T) :
  Qle_bool (byPriority a b) 0 = true <-> fst a <= fst b.
Proof. rewrite Qle_bool_iff. split; intro; lra. Qed.

Lemma sort_insert_ascending (x : Q * T) (l : list (Q * T)) :
  ascending l -> ascending (JS.sort_insert byPriority x l).
Proof.
  induction l as [|y l IH]; intro Hl; cbn [JS.sort_insert].
  { cbn. auto. }
  destruct Hl as [Hy Hl].
  destruct (Qle_bool (byPriority x y) 0) eqn:E.
  - apply byPriority_le in E. cbn. repeat split; auto.
    constructor; [exact E|].
    apply List.Forall_forall. intros b Hb.
    rewrite List.Forall_forall in Hy. specialize (Hy b Hb). lra.
  - assert (Hyx : fst y <= fst x).
    { destruct (Qlt_le_dec (fst y) (fst x)) as [H|H]; [lra|].
      apply byPriority_le in H. congruence. }
    cbn. split; [|now apply IH].
    apply List.Forall_forall. intros b Hb.
    apply (Permutation_in _ (sort_insert_perm _ x l)) in Hb.
    destruct Hb as [<-|Hb]; [exact Hyx|].
    rewrite List.Forall_forall in Hy. now apply Hy.
Qed.

Lemma sort_ascending (l : list (Q * T)) : ascending (JS.sort byPriority l).
Proof.
  induction l as [|x l IH]; cbn [JS.sort]; [exact I|].
  now apply sort_insert_ascending.
Qed.

(** X9: whatever the queue held, after a push its items are in ascending
    order of priority and the next pop hands out an entry whose priority
    is least among the new entry and all the old ones. *)
Theorem push_then_pop_least (p : Q) (x : T) (items : PriorityQueue.t T) :
  ascending (PriorityQueue.push p x items) /\
  exists q y rest,
    PriorityQueue.push p x items = (q, y) :: rest /\
    PriorityQueue.pop (PriorityQueue.push p x items) = (Some y, rest) /\
    In (q, y) ((p, x) :: items) /\
    forall e, In e ((p, x) :: items) -> q <= fst e.
Proof.
  pose proof (sort_ascending (items ++ [(p, x)])) as Hs.
  pose proof (push_perm p x items) as Hp.
  fold (PriorityQueue.push p x items) in Hs.
  split; [exact Hs|].
  destruct (PriorityQueue.push p x items) as [|[q y] rest] eqn:E.
  { apply Permutation_nil in Hp. discriminate Hp. }
  exists q, y, rest. repeat split.
  - apply (Permutation_in _ Hp). now left.
  - intros e He. apply (Permutation_in _ (Permutation_sym Hp)) in He.
    destruct Hs as [Hq _]. destruct He as [<-|He]; [cbn; lra|].
    rewrite List.Forall_forall in Hq. now apply Hq.
Qed.

Lemma sort_insert_front (x : Q * T) (l : list (Q * T)) :
  Forall (fun b => fst x <= fst b) l -> JS.sort_insert byPriority x l = x :: l.
Proof.
  destruct l as [|y l]; intro H; cbn [JS.sort_insert]; [reflexivity|].
  apply List.Forall_inv in H. apply byPriority_le in H. now rewrite H.
Qed.

(** X10: pushing into a queue that is in ascending order puts the new
    entry behind every entry of priority at most its own and in front of
    the others, without reordering them: entries of equal priority leave
    the queue in the order they came in. *)
Theorem push_is_stable (p : Q) (x : T) (items : PriorityQueue.t T) :
  ascending items ->
  PriorityQueue.push p x items =
  List.filter (fun e => Qle_bool (fst e) p) items
  ++ (p, x) :: List.filter (fun e => negb (Qle_bool (fst e) p)) items.
Proof.
  unfold PriorityQueue.push.
  induction items as [|y l IH]; intro Hl; [reflexivity|].
  destruct Hl as [Hy Hl]. cbn [app JS.sort List.filter].
  rewrite (IH Hl).
  destruct (Qle_bool (fst y) p) eqn:E; cbn [negb app].
  - apply Qle_bool_iff in E. apply sort_insert_front.
    apply List.Forall_app. split.
    + apply List.Forall_forall. intros b Hb. apply filter_In in Hb.
      rewrite List.Forall_forall in Hy. now apply Hy.
    + constructor; [exact E|].
      apply List.Forall_forall. intros b Hb. apply filter_In in Hb.
      rewrite List.Forall_forall in Hy. now apply Hy.
  - assert (Hlt : p < fst y).
    { destruct (Qlt_le_dec p (fst y)) as [H|H]; [exact H|].
      apply Qle_bool_iff in H. congruence. }
    assert (Hall : forall b, In b l -> Qle_bool (fst b) p = false).
    { intros b Hb. rewrite List.Forall_forall in Hy. specialize (Hy b Hb).
      destruct (Qle_bool (fst b) p) eqn:Eb; [|reflexivity].
      apply Qle_bool_iff in Eb. lra. }
    assert (F1 : List.filter (fun e => Qle_bool (fst e) p) l = []).
    { clear -Hall. induction l as [|b l IHl]; [reflexivity|]. cbn.
      rewrite (Hall b (or_introl eq_refl)). apply IHl.
      intros c Hc. apply Hall. now right. }
    assert (F2 : List.filter (fun e => negb (Qle_bool (fst e) p)) l = l).
    { clear -Hall. induction l as [|b l IHl]; [reflexivity|]. cbn.
      rewrite (Hall b (or_introl eq_refl)). cbn. f_equal. apply IHl.
      intros c Hc. apply Hall. now right. }
    rewrite F1, F2. cbn [app JS.sort_insert].
    assert (Ec : Qle_bool (byPriority y (p, x)) 0 = false).
    { destruct (Qle_bool (byPriority y (p, x)) 0) eqn:Ec; [|reflexivity].
      apply byPriority_le in Ec. cbn in Ec. lra. }
    rewrite Ec. f_equal. now apply sort_insert_front.
Qed.

End Queue.

(** X10 at a concrete queue: a second entry of priority 1 goes behind the
    first one and in front of the entry of priority 2. *)
Lemma push_is_stable_witness :
  PriorityQueue.push 1 "new" [(1%Q, "old"); (2%Q, "far")] =
  List.filter (fun e => Qle_bool (fst e) 1) [(1%Q, "old"); (2%Q, "far")]
  ++ (1%Q, "new")
     :: List.filter (fun e => negb (Qle_bool (fst e) 1))
          [(1%Q, "old"); (2%Q, "far")].
Proof.
  apply (push_is_stable 1 "new" [(1%Q, "old"); (2%Q, "far")]).
  cbn. repeat split; repeat constructor; cbn; vm_compute; congruence.
Defined.

(* ------------------------------------------------------------------ *)
(** ** The pathfinder always answers, and answers by reachability *)

Section Totality.
Variable start : string.
Variable targetNode : Node.t.
Variable targetNodeId : string.
Variable meme : Meme.t.
Variable mode : AStarMode.

Lemma expandNeighbors_closed (network : Network) (current : OpenItem)
    (cn : Node.t) (s : SearchState) :
  closedSet (expandNeighbors network targetNode meme mode current (Some cn)
               (List.filter (hasWeight cn) (nodes network)) s)
  = closedSet s.
Proof.
  cbn [expandNeighbors].
  apply (expandNeighbors_fold network targetNode meme mode current cn
           (List.filter (hasWeight cn) (nodes network)) s).
Qed.

(** The closed set holds distinct ids of nodes. *)
Lemma closed_set_bounded (network : Network) (s : SearchState) (extra : list string) :
  lookupNode network start <> None ->
  SearchInv network start s ->
  List.NoDup (extra ++ closedSet s) ->
  (forall x, In x extra -> exists n, lookupNode network x = Some n) ->
  (length extra + length (closedSet s) <= length (nodes network))%nat.
Proof.
  intros Hs Inv Hnd Hex.
  rewrite <- length_app, <- (length_map Node.id (nodes network)).
  apply NoDup_incl_length; [exact Hnd|].
  intros x Hx. apply in_app_or in Hx.
  assert (Hn : exists n, lookupNode network x = Some n).
  { destruct Hx as [Hx|Hx]; [now apply Hex|].
    apply (reachable_is_node start network Hs).
    now apply (inv_closed_reachable _ _ _ Inv). }
  destruct Hn as [n Hn]. apply lookupNode_some in Hn. destruct Hn as [Hin <-].
  now apply in_map.
Qed.

Lemma searchLoop_total (w : World) :
  ordinaryIds (graph w) ->
  lookupNode (graph w) start <> None ->
  lookupNode (graph w) targetNodeId <> None ->
  forall n m s,
    SearchInv (graph w) start s ->
    ~ In targetNodeId (closedSet s) ->
    unclosed (graph w) s = n -> stale s = m ->
    exists fuel0 r,
      (forall fuel, (fuel0 <= fuel)%nat ->
         fst (searchLoop fuel targetNode targetNodeId meme mode s w) = Some r) /\
      (AStarResult.success r = true <-> reachable (graph w) start targetNodeId) /\
      (AStarResult.exploredCount r < length (nodes (graph w)))%nat.
Proof.
  intros Hord Hs Ht.
  induction n as [n IHn] using lt_wf_ind.
  induction m as [m IHm] using lt_wf_ind.
  intros s Inv Hnt Hn Hm.
  assert (Hbound : (length (closedSet s) < length (nodes (graph w)))%nat).
  { pose proof (closed_set_bounded (graph w) s [targetNodeId] Hs Inv) as B.
    cbn [length app] in B. apply B.
    - constructor; [exact Hnt | exact (inv_closed_nodup _ _ _ Inv)].
    - intros x [<-|[]].
      destruct (lookupNode (graph w) targetNodeId) as [n'|];
        [now exists n' | congruence]. }
  destruct (openSet s) as [|e rest] eqn:Ho.
  - exists 1%nat, (failure (length (closedSet s)) (frames s) mode).
    split.
    { intros [|fuel] Hf; [lia|]. now rewrite searchLoop_empty. }
    split; [|exact Hbound].
    destruct Inv as [I1 I2 I3 I4 I5 I6].
    assert (Hcov : forall v, covered s v -> In v (closedSet s)).
    { intros v [Hv|(e & He & _)]; [exact Hv|]. rewrite Ho in He. destruct He. }
    assert (Hall : forall x, reachable (graph w) start x -> In x (closedSet s)).
    { intros x Hr. induction Hr as [|u v _ IH Huv].
      - now apply Hcov.
      - apply Hcov. now apply I4 with u. }
    split; [discriminate|]. intro Hr. exfalso. apply Hnt. now apply Hall.
  - assert (Hu : reachable (graph w) start (nodeId (snd e))).
    { apply (inv_open_reachable _ _ _ Inv). rewrite Ho. now left. }
    destruct (String.eqb (nodeId (snd e)) targetNodeId) eqn:He.
    + (* the target is popped *)
      apply String.eqb_eq in He.
      exists 1%nat,
        {| AStarResult.success := true;
           AStarResult.path := path (snd e);
           AStarResult.cost := Some (gScore (snd e));
           AStarResult.exploredCount := length (closedSet s);
           AStarResult.frames := recordFrame s (snd e);
           AStarResult.mode := mode |}.
      split.
      { intros [|fuel] Hf; [lia|]. cbn [searchLoop]. rewrite Ho.
        cbn [PriorityQueue.pop]. unfold bind. rewrite findNode_run.
        apply String.eqb_eq in He. now rewrite He. }
      split; [|exact Hbound]. cbn. split; [|reflexivity].
      intros _. now rewrite <- He.
    + destruct (reachable_is_node start _ Hs _ Hu) as [cn Hcn].
      destruct (iteration_preserves (graph w) start targetNode meme mode
                  s e rest cn Hord Inv Ho Hcn) as [Inv2 Hm2].
      cbv zeta in Inv2, Hm2.
      pose proof (expandNeighbors_closed (graph w) (snd e) cn
                    (closeCurrent s (snd e) rest)) as Hcl.
      set (s2 := expandNeighbors (graph w) targetNode meme mode (snd e) (Some cn)
                   (List.filter (hasWeight cn) (nodes (graph w)))
                   (closeCurrent s (snd e) rest)) in *.
      assert (Hnt2 : ~ In targetNodeId (closedSet s2)).
      { rewrite Hcl. cbn [closeCurrent closedSet]. rewrite set_add_In.
        intros [H|H]; [now apply Hnt|].
        apply String.eqb_neq in He. now apply He. }
      assert (Hrec : exists fuel0 r,
        (forall fuel, (fuel0 <= fuel)%nat ->
           fst (searchLoop fuel targetNode targetNodeId meme mode s2 w) = Some r) /\
        (AStarResult.success r = true <-> reachable (graph w) start targetNodeId) /\
        (AStarResult.exploredCount r < length (nodes (graph w)))%nat).
      { destruct Hm2 as [Hlt|[Heq Hlt]].
        - apply (IHn (unclosed (graph w) s2) ltac:(lia) (stale s2) s2 Inv2 Hnt2);
            reflexivity.
        - apply (IHm (stale s2) ltac:(lia) s2 Inv2 Hnt2); [lia | reflexivity]. }
      destruct Hrec as (fuel0 & r & Hrun & Hrest).
      exists (S fuel0), r. split; [|exact Hrest].
      intros [|fuel] Hf; [lia|].
      rewrite (searchLoop_step targetNode targetNodeId meme mode
                 fuel s w e rest cn Ho He Hcn).
      apply Hrun. lia.
Qed.

End Totality.

(** X11: in a network where no node id is the name of a member of
    Object.prototype, for a source and a target that are nodes of the
    network the search always ends (some amount of fuel is enough, and
    more changes nothing); it succeeds exactly when the target can be
    reached from the source along trust entries, and it closes fewer ids
    than there are nodes. *)
Theorem astar_decides_reachability
    (w : World) (startNodeId targetNodeId : string)
    (meme : Meme.t) (mode : AStarMode) :
  ordinaryIds (graph w) ->
  lookupNode (graph w) startNodeId <> None ->
  lookupNode (graph w) targetNodeId <> None ->
  exists fuel0 r,
    (forall fuel, (fuel0 <= fuel)%nat ->
       fst (astarInfluencePath fuel startNodeId targetNodeId meme mode w)
       = Some r) /\
    (AStarResult.success r = true
     <-> reachable (graph w) startNodeId targetNodeId) /\
    (AStarResult.exploredCount r < length (nodes (graph w)))%nat.
Proof.
  intros Hord Hs Ht.
  destruct (lookupNode (graph w) startNodeId) as [sn|] eqn:Es; [|congruence].
  destruct (lookupNode (graph w) targetNodeId) as [tn|] eqn:Et; [|congruence].
  pose proof (initial_search_inv (graph w) startNodeId
                (calculateHeuristic sn tn meme (graph w) mode)) as Inv.
  destruct (searchLoop_total startNodeId tn targetNodeId meme mode w
              Hord ltac:(congruence) ltac:(congruence) _ _ _ Inv
              ltac:(intros []) eq_refl eq_refl)
    as (fuel0 & r & Hrun & Hrest).
  exists fuel0, r. split; [|exact Hrest].
  intros fuel Hf. unfold astarInfluencePath, bind.
  rewrite !findNode_run, Es, Et. cbn [readGraph]. now apply Hrun.
Qed.

Lemma astar_decides_reachability_witness :
  exists fuel0 r,
    (forall fuel, (fuel0 <= fuel)%nat ->
       fst (astarInfluencePath fuel "s" "a" Sample.neutral meme_trust
              (Scenario.world Scenario.islands Scenario.noDraws))
       = Some r) /\
    (AStarResult.success r = true
     <-> reachable Scenario.islands "s" "a") /\
    (AStarResult.exploredCount r < length (nodes Scenario.islands))%nat.
Proof.
  apply (astar_decides_reachability
           (Scenario.world Scenario.islands Scenario.noDraws)
           "s" "a" Sample.neutral meme_trust).
  - intros n [<-|[<-|[<-|[]]]]; reflexivity.
  - vm_compute. congruence.
  - vm_compute. congruence.
Defined.

(** X12: a search from a node to itself succeeds at once: the route is the
    node alone, the cost 0, nothing is closed and one frame is recorded. *)
Theorem astar_source_is_target
    (fuel : nat) (w : World) (someId : string) (meme : Meme.t) (mode : AStarMode) :
  lookupNode (graph w) someId <> None ->
  exists r,
    fst (astarInfluencePath (S fuel) someId someId meme mode w) = Some r /\
    AStarResult.success r = true /\
    AStarResult.path r = [someId] /\
    AStarResult.cost r = Some 0%Q /\
    AStarResult.exploredCount r = 0%nat /\
    length (AStarResult.frames r) = 1%nat.
Proof.
  intro H. destruct (lookupNode (graph w) someId) as [n|] eqn:E; [|congruence].
  eexists. split.
  - unfold astarInfluencePath, bind. rewrite !findNode_run, E.
    cbn [readGraph searchLoop openSet PriorityQueue.push app JS.sort
         JS.sort_insert PriorityQueue.pop snd nodeId].
    unfold bind. rewrite findNode_run, String.eqb_refl. reflexivity.
  - repeat split.
Qed.

Lemma astar_source_is_target_witness :
  exists r,
    fst (astarInfluencePath 1 "t" "t" Sample.neutral social_trust
           (Scenario.world Scenario.islands Scenario.noDraws)) = Some r /\
    AStarResult.success r = true /\
    AStarResult.path r = ["t"] /\
    AStarResult.cost r = Some 0%Q /\
    AStarResult.exploredCount r = 0%nat /\
    length (AStarResult.frames r) = 1%nat.
Proof.
  apply (astar_source_is_target 0
           (Scenario.world Scenario.islands Scenario.noDraws)
           "t" Sample.neutral social_trust).
  vm_compute. congruence.
Defined.

(* ------------------------------------------------------------------ *)
(** ** A successful search returns a route of the graph and its cost *)

Section Routes.
Variable network : Network.
Variable meme : Meme.t.
Variable mode : AStarMode.
Local Open Scope Q_scope.

Lemma lookupNode_unique (n : Node.t) :
  uniqueIds network -> In n (nodes network) ->
  lookupNode network (Node.id n) = Some n.
Proof.
  unfold uniqueIds, lookupNode.
  induction (nodes network) as [|h l IH]; intros Hnd Hin; [destruct Hin|].
  cbn [map] in Hnd. apply NoDup_cons_iff in Hnd. destruct Hnd as [Hh Hl].
  cbn [List.find]. destruct (String.eqb (Node.id h) (Node.id n)) eqn:E.
  - apply String.eqb_eq in E. destruct Hin as [->|Hin]; [reflexivity|].
    exfalso. apply Hh. rewrite E. now apply in_map.
  - destruct Hin as [->|Hin]; [now rewrite String.eqb_refl in E|].
    now apply IH.
Qed.

Lemma routeCost_snoc (p : list string) (v : string) :
  forall c h,
    p <> [] ->
    routeCost network meme mode p = Some c ->
    hopCost network meme mode (List.last p EmptyString) v = Some h ->
    exists c', routeCost network meme mode (p ++ [v]) = Some c' /\ c' == c + h.
Proof.
  induction p as [|x p IH]; intros c h Hne Hc Hh; [congruence|].
  destruct p as [|y p].
  - cbn [routeCost] in Hc. cbn [List.last] in Hh. cbn [app routeCost].
    assert (c = 0) by congruence. subst c. rewrite Hh.
    eexists. split; [reflexivity|]. ring.
  - change (List.last (x :: y :: p) EmptyString)
      with (List.last (y :: p) EmptyString) in Hh.
    change (routeCost network meme mode (x :: y :: p))
      with (match hopCost network meme mode x y,
                  routeCost network meme mode (y :: p) with
            | Some a, Some b => Some (a + b)
            | _, _ => None
            end) in Hc.
    change (routeCost network meme mode ((x :: y :: p) ++ [v]))
      with (match hopCost network meme mode x y,
                  routeCost network meme mode ((y :: p) ++ [v]) with
            | Some a, Some b => Some (a + b)
            | _, _ => None
            end).
    destruct (hopCost network meme mode x y) as [c1|]; [|discriminate].
    destruct (routeCost network meme mode (y :: p)) as [c2|] eqn:E2;
      [|discriminate].
    assert (c = c1 + c2) by congruence. subst c.
    destruct (IH c2 h ltac:(discriminate) eq_refl Hh) as (c2' & E2' & Hc2').
    rewrite E2'.
    eexists. split; [reflexivity|]. rewrite Hc2'. ring.
Qed.

Variable start : string.
Variable targetNode : Node.t.

Local Abbreviation routesRecorded := (routesRecorded network meme mode start).

Lemma expandNeighbor_routes (current : OpenItem) (cn n : Node.t) (s : SearchState) :
  routeRecorded network meme mode start current ->
  lookupNode network (nodeId current) = Some cn ->
  lookupNode network (Node.id n) = Some n ->
  routesRecorded s ->
  routesRecorded (expandNeighbor network targetNode meme mode current cn s n).
Proof.
  intros (Hne & Hhd & Hlast & c & Hc & Hcg) Hcn Hn Hs.
  unfold expandNeighbor.
  destruct (JS.set_has _ _); [exact Hs|].
  unfold JS.get, JS.member at 1.
  destruct (JS.prop_get _ _) as [tw|] eqn:Htw;
    [|destruct (JS.inherited _); exact Hs].
  cbv zeta.
  match goal with
  | |- context [if ?b then _ else _] => destruct b
  end; [|exact Hs].
  intros e He. cbn [openSet] in He.
  apply (Permutation_in _ (push_perm _ _ _)) in He.
  destruct He as [<-|He]; [|now apply Hs].
  cbn [snd]. unfold routeRecorded. cbn [path nodeId gScore].
  split; [now destruct (path current)|].
  split; [now destruct (path current)|].
  split; [apply last_last|].
  destruct (routeCost_snoc (path current) (Node.id n) c
              (match mode with
               | social_trust => calculateSocialTrustCost cn n tw
               | meme_trust => calculateMemeTrustCost n meme cn tw
               end) Hne Hc) as (c' & Hc' & Hcc').
  { rewrite Hlast. unfold hopCost. now rewrite Hcn, Hn, Htw. }
  exists c'. split; [exact Hc'|]. rewrite Hcc', Hcg. reflexivity.
Qed.

Lemma expandNeighbors_routes (current : OpenItem) (cn : Node.t)
    (L : list Node.t) :
  routeRecorded network meme mode start current ->
  lookupNode network (nodeId current) = Some cn ->
  (forall n, In n L -> lookupNode network (Node.id n) = Some n) ->
  forall s, routesRecorded s ->
  routesRecorded
    (fold_left (expandNeighbor network targetNode meme mode current cn) L s).
Proof.
  intros Hcur Hcn. induction L as [|n L IH]; intros HL s Hs; [exact Hs|].
  cbn [fold_left]. apply IH.
  - intros n' Hn'. apply HL. now right.
  - apply expandNeighbor_routes; auto. apply HL. now left.
Qed.

End Routes.

Section RouteSoundness.
Variable meme : Meme.t.
Variable mode : AStarMode.
Variable start : string.
Variable targetNode : Node.t.
Variable targetNodeId : string.
Local Open Scope Q_scope.

Lemma searchLoop_step_unknown (fuel : nat) (s : SearchState) (w : World)
    (e : Q * OpenItem) (rest : PriorityQueue.t OpenItem) :
  openSet s = e :: rest ->
  String.eqb (nodeId (snd e)) targetNodeId = false ->
  lookupNode (graph w) (nodeId (snd e)) = None ->
  searchLoop (S fuel) targetNode targetNodeId meme mode s w =
  searchLoop fuel targetNode targetNodeId meme mode
    (closeCurrent s (snd e) rest) w.
Proof.
  intros Ho He Hc. cbn [searchLoop]. rewrite Ho. cbn [PriorityQueue.pop].
  unfold bind. rewrite findNode_run, Hc, He.
  unfold getNeighbors, bind. rewrite findNode_run, Hc. reflexivity.
Qed.

Lemma searchLoop_route (w : World) :
  uniqueIds (graph w) ->
  forall fuel s r,
    routesRecorded (graph w) meme mode start s ->
    fst (searchLoop fuel targetNode targetNodeId meme mode s w) = Some r ->
    AStarResult.success r = true ->
    List.hd EmptyString (AStarResult.path r) = start /\
    List.last (AStarResult.path r) EmptyString = targetNodeId /\
    exists c g,
      routeCost (graph w) meme mode (AStarResult.path r) = Some c /\
      AStarResult.cost r = Some g /\ c == g.
Proof.
  intros Hu. induction fuel as [|fuel IH]; intros s r Hs Hrun Hok;
    [discriminate Hrun|].
  destruct (openSet s) as [|e rest] eqn:Ho.
  { rewrite searchLoop_empty in Hrun by exact Ho.
    injection Hrun as <-. discriminate Hok. }
  assert (He : routeRecorded (graph w) meme mode start (snd e)).
  { apply Hs. rewrite Ho. now left. }
  destruct (String.eqb (nodeId (snd e)) targetNodeId) eqn:Et.
  - cbn [searchLoop] in Hrun. rewrite Ho in Hrun.
    cbn [PriorityQueue.pop] in Hrun. unfold bind in Hrun.
    rewrite findNode_run, Et in Hrun. injection Hrun as <-.
    cbn [AStarResult.path AStarResult.cost].
    destruct He as (_ & Hhd & Hlast & c & Hc & Hcg).
    apply String.eqb_eq in Et.
    split; [exact Hhd|]. split; [congruence|].
    exists c, (gScore (snd e)). now repeat split.
  - assert (Hrest : routesRecorded (graph w) meme mode start
                      (closeCurrent s (snd e) rest)).
    { intros e' He'. apply Hs. rewrite Ho. now right. }
    destruct (lookupNode (graph w) (nodeId (snd e))) as [cn|] eqn:Hcn.
    + rewrite (searchLoop_step targetNode targetNodeId meme mode
                 fuel s w e rest cn Ho Et Hcn) in Hrun.
      apply (IH _ r) in Hrun; [exact Hrun | | exact Hok].
      cbn [expandNeighbors]. apply expandNeighbors_routes; auto.
      intros n Hn. apply filter_In in Hn. destruct Hn as [Hn _].
      now apply lookupNode_unique.
    + rewrite (searchLoop_step_unknown fuel s w e rest Ho Et Hcn) in Hrun.
      now apply (IH _ r) in Hrun.
Qed.

End RouteSoundness.

(** X13: in a network without duplicate ids, the path of a successful
    search starts at the source, ends at the target, follows trust entries
    between nodes of the graph at every hop, and the returned cost is the
    sum of the edge costs of the mode along that path. *)
Theorem astar_success_is_a_route
    (fuel : nat) (w : World) (startNodeId targetNodeId : string)
    (meme : Meme.t) (mode : AStarMode) (r : AStarResult.t) :
  uniqueIds (graph w) ->
  fst (astarInfluencePath fuel startNodeId targetNodeId meme mode w) = Some r ->
  AStarResult.success r = true ->
  List.hd EmptyString (AStarResult.path r) = startNodeId /\
  List.last (AStarResult.path r) EmptyString = targetNodeId /\
  exists c g,
    routeCost (graph w) meme mode (AStarResult.path r) = Some c /\
    AStarResult.cost r = Some g /\ (c == g)%Q.
Proof.
  intros Hu Hrun Hok. unfold astarInfluencePath, bind in Hrun.
  rewrite !findNode_run in Hrun.
  destruct (lookupNode (graph w) startNodeId) as [sn|];
    [|injection Hrun as <-; discriminate Hok].
  destruct (lookupNode (graph w) targetNodeId) as [tn|];
    [|injection Hrun as <-; discriminate Hok].
  cbn [readGraph] in Hrun.
  apply (searchLoop_route meme mode startNodeId tn targetNodeId w Hu _ _ r)
    in Hrun; [exact Hrun | | exact Hok].
  intros e [<-|[]]. cbn [snd]. unfold routeRecorded. cbn [path nodeId gScore].
  repeat split; try discriminate.
  exists 0%Q. split; reflexivity.
Qed.

Lemma astar_success_is_a_route_witness :
  exists r,
    fst (astarInfluencePath 10 "s" "t" Sample.neutral social_trust
           (Scenario.world Scenario.detour Scenario.noDraws)) = Some r /\
    List.hd EmptyString (AStarResult.path r) = "s" /\
    List.last (AStarResult.path r) EmptyString = "t" /\
    exists c g,
      routeCost Scenario.detour Sample.neutral social_trust (AStarResult.path r)
        = Some c /\
      AStarResult.cost r = Some g /\ (c == g)%Q.
Proof.
  eexists. split; [vm_compute; reflexivity|].
  apply (astar_success_is_a_route 10
           (Scenario.world Scenario.detour Scenario.noDraws)
           "s" "t" Sample.neutral social_trust).
  - unfold uniqueIds. cbn.
    repeat constructor; cbn; intros H;
      repeat (destruct H as [H|H]; try discriminate H); exact H.
  - vm_compute. reflexivity.
  - reflexivity.
Defined.

(* ------------------------------------------------------------------ *)
(** ** What one cascade infects *)

Section CascadeContent.
Variable meme : Meme.t.

Lemma onlyDraws_ret {A} (a : A) : onlyDraws (ret a).
Proof. intro w. cbn. repeat split; lia. Qed.

Lemma onlyDraws_bind {A B} (m : M A) (k : A -> M B) :
  onlyDraws m -> (forall a, onlyDraws (k a)) -> onlyDraws (bind m k).
Proof.
  intros Hm Hk w. unfold bind. specialize (Hm w).
  destruct (m w) as [a w1]. cbn [snd] in Hm. specialize (Hk a w1).
  destruct Hm as (G1 & D1 & C1 & N1). destruct Hk as (G2 & D2 & C2 & N2).
  repeat split; try congruence. lia.
Qed.

Lemma onlyDraws_findNode (i : string) : onlyDraws (findNode i).
Proof. intro w. cbn. repeat split; lia. Qed.

Lemma onlyDraws_random : onlyDraws Math_random.
Proof. intro w. cbn. repeat split; lia. Qed.

Lemma onlyDraws_tryNeighbors (cn : Node.t) (entries : list (string * Q)) :
  forall set todo, onlyDraws (tryNeighbors meme cn entries set todo).
Proof.
  induction entries as [|[i tw] entries IH]; intros set todo;
    cbn [tryNeighbors]; [apply onlyDraws_ret|].
  destruct (JS.set_has set i); [apply IH|].
  apply onlyDraws_bind; [apply onlyDraws_findNode|].
  intros [nb|]; [|apply IH].
  cbv zeta. apply onlyDraws_bind; [apply onlyDraws_random|].
  intro r. destruct (JS.ltb _ _); apply IH.
Qed.

Lemma onlyDraws_cascadeLoop (n : nat) :
  forall set todo, onlyDraws (cascadeLoop n meme set todo).
Proof.
  induction n as [|n IH]; intros set [|c todo]; cbn [cascadeLoop];
    try apply onlyDraws_ret.
  apply onlyDraws_bind; [apply onlyDraws_findNode|].
  intros [cn|]; [|apply IH].
  apply onlyDraws_bind; [apply onlyDraws_tryNeighbors|]. intro st. apply IH.
Qed.

Lemma prop_get_of_entry (o : list (string * Q)) (k : string) (v : Q) :
  In (k, v) o -> JS.prop_get o k <> None.
Proof.
  induction o as [|[k' v'] o IH]; intro H; [destruct H|].
  cbn [JS.prop_get]. destruct (String.eqb k' k) eqn:E; [discriminate|].
  destruct H as [H|H]; [|now apply IH].
  injection H as -> _. now rewrite String.eqb_refl in E.
Qed.

Variable seedIds : list string.

Lemma tryNeighbors_content (cid : string) (cn : Node.t)
    (entries : list (string * Q)) :
  forall set todo w,
    lookupNode (graph w) cid = Some cn ->
    fromSeeds (graph w) seedIds cid ->
    (forall e, In e entries -> In e (Node.trust_network cn)) ->
    (forall x, In x set -> fromSeeds (graph w) seedIds x) ->
    (forall x, In x todo -> fromSeeds (graph w) seedIds x) ->
    let r := fst (tryNeighbors meme cn entries set todo w) in
    (exists added, fst r = set ++ added) /\
    (forall x, In x (fst r) -> fromSeeds (graph w) seedIds x) /\
    (forall x, In x (snd r) -> fromSeeds (graph w) seedIds x) /\
    (List.NoDup set -> List.NoDup (fst r)).
Proof.
  induction entries as [|[i tw] entries IH];
    intros set todo w Hcn Hcid Hent Hset Htodo; cbn [tryNeighbors].
  { cbn. split; [exists []; now rewrite app_nil_r|]. auto. }
  assert (Hent' : forall e, In e entries -> In e (Node.trust_network cn)).
  { intros e He. apply Hent. now right. }
  destruct (JS.set_has set i) eqn:Hhas; [now apply IH|].
  unfold bind. rewrite findNode_run.
  destruct (lookupNode (graph w) i) as [nb|] eqn:Hnb; [|now apply IH].
  cbn [Math_random].
  set (w' := {| graph := graph w; random_draws := random_draws w;
                random_next := S (random_next w);
                spread_calls := spread_calls w |}).
  destruct (JS.ltb _ _); [|now apply (IH set todo w')].
  assert (Hi : fromSeeds (graph w) seedIds i).
  { destruct Hcid as (s & Hs & Hr). exists s. split; [exact Hs|].
    apply reach_step with cid; [exact Hr|].
    destruct (lookupNode_some _ _ _ Hnb) as [Hin Hid].
    exists cn, nb. repeat split; auto.
    apply (prop_get_of_entry _ _ tw). apply Hent. now left. }
  destruct (IH (JS.set_add set i) (todo ++ [i]) w' Hcn Hcid Hent')
    as ((added & Ha) & H2 & H3 & H4).
  { intros x Hx. apply set_add_In in Hx. destruct Hx as [Hx| ->]; auto. }
  { intros x Hx. apply in_app_or in Hx. destruct Hx as [Hx|[<-|[]]]; auto. }
  cbv zeta. split; [|split; [exact H2|split; [exact H3|]]].
  - exists (i :: added). rewrite Ha. unfold JS.set_add. rewrite Hhas.
    now rewrite <- app_assoc.
  - intro Hnd. apply H4. now apply set_add_NoDup.
Qed.

Lemma cascadeLoop_content (n : nat) :
  forall set todo w final,
    (forall x, In x set -> fromSeeds (graph w) seedIds x) ->
    (forall x, In x todo -> fromSeeds (graph w) seedIds x) ->
    fst (cascadeLoop n meme set todo w) = Some final ->
    (exists added, final = set ++ added) /\
    (forall x, In x final -> fromSeeds (graph w) seedIds x) /\
    (List.NoDup set -> List.NoDup final).
Proof.
  induction n as [|n IH]; intros set [|c todo] w final Hset Htodo Hrun;
    cbn [cascadeLoop] in Hrun; try discriminate Hrun.
  1,2: injection Hrun as <-; split; [exists []; now rewrite app_nil_r|]; auto.
  unfold bind in Hrun. rewrite findNode_run in Hrun.
  assert (Htodo' : forall x, In x todo -> fromSeeds (graph w) seedIds x).
  { intros x Hx. apply Htodo. now right. }
  destruct (lookupNode (graph w) c) as [cn|] eqn:Hc.
  - pose proof (tryNeighbors_content c cn (Node.trust_network cn) set todo w
                  Hc (Htodo c (or_introl eq_refl)) (fun e H => H) Hset Htodo')
      as H. cbv zeta in H.
    pose proof (onlyDraws_tryNeighbors cn (Node.trust_network cn) set todo w)
      as (G & _).
    destruct (tryNeighbors meme cn (Node.trust_network cn) set todo w)
      as [[set' todo'] w'].
    cbn [fst snd] in H, G, Hrun. destruct H as ((a1 & Ha1) & H2 & H3 & H4).
    rewrite <- G in H2, H3.
    destruct (IH set' todo' w' final H2 H3 Hrun) as ((a2 & Ha2) & H5 & H6).
    rewrite G in H5. split; [|split; [exact H5|auto]].
    exists (a1 ++ a2). rewrite Ha2, Ha1. now rewrite app_assoc.
  - now apply (IH set todo w final).
Qed.

End CascadeContent.

(** X14: one cascade run keeps the seeds, in their order, at the front of
    the infected set; every id it adds can be reached from a seed along
    trust entries of the graph; and it adds no id twice. *)
Theorem cascade_infects_only_reachable
    (meme : Meme.t) (w : World) (set : list string) (spare : nat) :
  exists final added,
    fst (simulateCascade (length set + length (nodes (graph w)) + spare)
           meme set w) = Some final /\
    final = set ++ added /\
    (forall x, In x final -> fromSeeds (graph w) set x) /\
    (List.NoDup set -> List.NoDup final).
Proof.
  unfold simulateCascade.
  pose proof (uninfected_bound (graph w) set) as Hb.
  destruct (cascadeLoop_terminates meme
              (length set + length (nodes (graph w)) + spare) set set w
              ltac:(lia)) as (final & Hrun & _).
  assert (Hseed : forall x, In x set -> fromSeeds (graph w) set x).
  { intros x Hx. exists x. split; [exact Hx | constructor]. }
  destruct (cascadeLoop_content meme set _ set set w final Hseed Hseed Hrun)
    as ((added & Ha) & H2 & H3).
  exists final, added. auto.
Qed.

(* ------------------------------------------------------------------ *)
(** ** Spread estimates and marginal gains *)

Section Estimates.
Variable fuel : nat.
Variable meme : Meme.t.
Local Open Scope Q_scope.

Lemma simulateCascade_runs (set : list string) (w : World) :
  (length set + length (nodes (graph w)) <= fuel)%nat ->
  exists final w',
    simulateCascade fuel meme set w = (Some final, w') /\
    (length set <= length final <= length set + length (nodes (graph w)))%nat /\
    graph w' = graph w /\ random_draws w' = random_draws w /\
    spread_calls w' = spread_calls w.
Proof.
  intro Hf. unfold simulateCascade.
  pose proof (uninfected_bound (graph w) set) as Hb.
  destruct (cascadeLoop_terminates meme fuel set set w ltac:(lia))
    as (final & Hrun & Hlen).
  assert (Hseed : forall x, In x set -> fromSeeds (graph w) set x).
  { intros x Hx. exists x. split; [exact Hx | constructor]. }
  destruct (cascadeLoop_content meme set _ set set w final Hseed Hseed Hrun)
    as ((added & Ha) & _).
  destruct (onlyDraws_cascadeLoop meme fuel set set w) as (G & D & C & _).
  destruct (cascadeLoop fuel meme set set w) as [res w'].
  cbn [fst snd] in *. subst res. exists final, w'.
  split; [reflexivity|]. split; [|auto].
  rewrite Ha, length_app. rewrite Ha, length_app in Hlen. lia.
Qed.

Lemma simulationLoop_runs (set : list string) (simulations : nat) :
  forall total w,
    (length set + length (nodes (graph w)) <= fuel)%nat ->
    exists total' w',
      simulationLoop fuel meme set simulations total w = (Some total', w') /\
      (total + simulations * length set <= total'
       <= total + simulations * (length set + length (nodes (graph w))))%nat /\
      graph w' = graph w /\ random_draws w' = random_draws w /\
      spread_calls w' = spread_calls w.
Proof.
  induction simulations as [|k IH]; intros total w Hf; cbn [simulationLoop].
  { exists total, w. cbn. repeat split; lia. }
  destruct (simulateCascade_runs set w Hf) as (final & w1 & E & Hlen & G & D & C).
  unfold bindO, bind. rewrite E.
  destruct (IH (total + length final)%nat w1 ltac:(rewrite G; exact Hf))
    as (total' & w' & E' & Hb & G' & D' & C').
  exists total', w'. rewrite E'. split; [reflexivity|].
  rewrite G in Hb. repeat split; try congruence; nia.
Qed.

Lemma estimateSpread_runs (set : list string) (simulations : nat) (w : World) :
  (length set + length (nodes (graph w)) <= fuel)%nat ->
  exists v w',
    estimateSpread fuel set meme simulations w = (Some v, w') /\
    graph w' = graph w /\ random_draws w' = random_draws w /\
    spread_calls w' = S (spread_calls w) /\
    ((0 < simulations)%nat ->
     inject_Z (Z.of_nat (length set)) <= v
     <= inject_Z (Z.of_nat (length set + length (nodes (graph w))))).
Proof.
  intro Hf. unfold estimateSpread, bindO, bind. cbn [countSpreadCall].
  set (w0 := {| graph := graph w; random_draws := random_draws w;
                random_next := random_next w;
                spread_calls := S (spread_calls w) |}).
  destruct (simulationLoop_runs set simulations 0%nat w0 Hf)
    as (total & w' & E & Hb & G & D & C).
  rewrite E. cbn [ret]. eexists _, w'. split; [reflexivity|].
  split; [exact G|]. split; [exact D|]. split; [exact C|].
  intro Hs. split.
  - apply Qle_shift_div_l.
    + change 0 with (inject_Z 0). rewrite <- Zlt_Qlt. lia.
    + rewrite <- inject_Z_mult, <- Zle_Qle. cbn [graph w0] in Hb. nia.
  - apply Qle_shift_div_r.
    + change 0 with (inject_Z 0). rewrite <- Zlt_Qlt. lia.
    + rewrite <- inject_Z_mult, <- Zle_Qle. cbn [graph w0] in Hb. nia.
Qed.

Lemma set_add_length (s : list string) (x : string) :
  (length s <= length (JS.set_add s x) <= S (length s))%nat.
Proof.
  unfold JS.set_add. destruct (JS.set_has s x); [lia|].
  rewrite length_app. cbn. lia.
Qed.

Lemma calculateMarginalGain_runs (set : list string) (i : string)
    (simulations : nat) (w : World) :
  (S (length set) + length (nodes (graph w)) <= fuel)%nat ->
  exists v w',
    calculateMarginalGain fuel set i meme simulations w = (Some v, w') /\
    graph w' = graph w /\ random_draws w' = random_draws w /\
    spread_calls w' = S (S (spread_calls w)) /\
    ((0 < simulations)%nat ->
     - inject_Z (Z.of_nat (length (nodes (graph w)))) <= v
     <= inject_Z (Z.of_nat (S (length (nodes (graph w)))))).
Proof.
  intro Hf. unfold calculateMarginalGain, bindO, bind.
  destruct (estimateSpread_runs set simulations w ltac:(lia))
    as (v1 & w1 & E1 & G1 & D1 & C1 & B1).
  rewrite E1. cbv zeta.
  pose proof (set_add_length set i) as Hl.
  destruct (estimateSpread_runs (JS.set_add set i) simulations w1
              ltac:(rewrite G1; lia))
    as (v2 & w2 & E2 & G2 & D2 & C2 & B2).
  rewrite E2. cbn [ret]. eexists _, w2. split; [reflexivity|].
  split; [congruence|]. split; [congruence|]. split; [congruence|].
  intro Hs. specialize (B1 Hs). specialize (B2 Hs). rewrite G1 in B2. split.
  - destruct B1 as [_ B1]. destruct B2 as [B2 _].
    rewrite Nat2Z.inj_add, inject_Z_plus in B1.
    assert (inject_Z (Z.of_nat (length set))
            <= inject_Z (Z.of_nat (length (JS.set_add set i))))
      by (rewrite <- Zle_Qle; lia).
    lra.
  - destruct B1 as [B1 _]. destruct B2 as [_ B2].
    rewrite Nat2Z.inj_add, inject_Z_plus in B2.
    assert (inject_Z (Z.of_nat (length (JS.set_add set i)))
            <= inject_Z (Z.of_nat (length set)) + 1).
    { change 1 with (inject_Z 1). rewrite <- inject_Z_plus, <- Zle_Qle. lia. }
    rewrite Nat2Z.inj_succ. unfold Z.succ. rewrite inject_Z_plus.
    change (inject_Z 1) with 1. lra.
Qed.

End Estimates.

(** X15: given fuel for as many steps as there are seeds and nodes,
    estimateSpread with at least one simulation returns a value between
    the number of seeds and the number of seeds plus the number of nodes;
    it counts as one call and leaves the graph and the random source
    (apart from the draws consumed) as they were. *)
Theorem estimateSpread_bounds
    (meme : Meme.t) (set : list string) (k spare : nat) (w : World) :
  exists v w',
    estimateSpread (length set + length (nodes (graph w)) + spare)
      set meme (S k) w = (Some v, w') /\
    (inject_Z (Z.of_nat (length set)) <= v
     <= inject_Z (Z.of_nat (length set + length (nodes (graph w)))))%Q /\
    spread_calls w' = S (spread_calls w) /\
    graph w' = graph w /\ random_draws w' = random_draws w.
Proof.
  destruct (estimateSpread_runs
              (length set + length (nodes (graph w)) + spare) meme set (S k) w
              ltac:(lia)) as (v & w' & E & G & D & C & B).
  exists v, w'. split; [exact E|]. split; [apply B; lia|]. auto.
Qed.

(** X16: calculateMarginalGain makes exactly two estimateSpread calls, and
    with at least one simulation its value lies between minus the number
    of nodes and the number of nodes plus one. *)
Theorem marginal_gain_bounds
    (meme : Meme.t) (set : list string) (i : string) (k spare : nat) (w : World) :
  exists v w',
    calculateMarginalGain (S (length set) + length (nodes (graph w)) + spare)
      set i meme (S k) w = (Some v, w') /\
    (- inject_Z (Z.of_nat (length (nodes (graph w)))) <= v
     <= inject_Z (Z.of_nat (S (length (nodes (graph w))))))%Q /\
    spread_calls w' = S (S (spread_calls w)) /\
    graph w' = graph w.
Proof.
  destruct (calculateMarginalGain_runs
              (S (length set) + length (nodes (graph w)) + spare) meme set i
              (S k) w ltac:(lia)) as (v & w' & E & G & D & C & B).
  exists v, w'. split; [exact E|]. split; [apply B; lia|]. auto.
Qed.

(* ------------------------------------------------------------------ *)
(** ** CELF selects as many seeds as it can *)

Section CelfRuns.
Variable fuel : nat.
Variable meme : Meme.t.
Variable simulations : nat.

Lemma sortByGain_perm (Q : list CELFNode.t) : Permutation (sortByGain Q) Q.
Proof. apply sort_perm. Qed.

Lemma outdated_perm (k : nat) (Q Q' : list CELFNode.t) :
  Permutation Q Q' -> outdated k Q = outdated k Q'.
Proof. intro H. unfold outdated. now apply filter_length_perm. Qed.

Lemma outdated_le (k : nat) (Q : list CELFNode.t) :
  (outdated k Q <= length Q)%nat.
Proof. unfold outdated. apply List.filter_length_le. Qed.

Lemma celfInit_runs (todo : list Node.t) :
  forall Q w,
    (1 + length (nodes (graph w)) <= fuel)%nat ->
    exists Q' w',
      celfInit fuel meme simulations [] todo Q w = (Some Q', w') /\
      map CELFNode.nodeId Q' =
        map CELFNode.nodeId Q
        ++ map Node.id
             (List.filter (fun n => isSusceptible (Node.state n)) todo) /\
      (Forall (fun u => CELFNode.flag u = 0%nat) Q ->
       Forall (fun u => CELFNode.flag u = 0%nat) Q') /\
      graph w' = graph w /\
      spread_calls w' =
        (spread_calls w
         + 2 * length (List.filter (fun n => isSusceptible (Node.state n)) todo))%nat.
Proof.
  induction todo as [|node todo IH]; intros Q w Hf; cbn [celfInit].
  { exists Q, w. cbn. rewrite app_nil_r. repeat split; auto; lia. }
  destruct (Node.state node) eqn:Est; cbn [List.filter isSusceptible];
    rewrite Est; cbn [isSusceptible]; try now apply IH.
  destruct (calculateMarginalGain_runs fuel meme [] (Node.id node) simulations w
              ltac:(cbn; lia)) as (mg & w1 & E & G & _ & C & _).
  unfold bindO, bind. rewrite E.
  destruct (IH (Q ++ [{| CELFNode.nodeId := Node.id node; CELFNode.mg1 := mg;
                         CELFNode.prevBest := None; CELFNode.mg2 := 0;
                         CELFNode.flag := 0 |}]) w1
              ltac:(rewrite G; exact Hf))
    as (Q' & w' & E' & Hids & Hfl & G' & C').
  exists Q', w'. rewrite E'. split; [reflexivity|].
  split; [|split; [|split; [congruence|]]].
  - rewrite Hids, map_app, <- app_assoc. reflexivity.
  - intro H. apply Hfl. apply List.Forall_app. split; [exact H|].
    now repeat constructor.
  - rewrite C', C. cbn [length]. lia.
Qed.

(** One round: the inner loop ends by picking the head of the queue. *)
Lemma celfPick_runs (n : nat) :
  forall s w,
    queue s <> [] ->
    (outdated (length (seeds s)) (queue s) < n)%nat ->
    (S (length (seedSet s)) + length (nodes (graph w)) <= fuel)%nat ->
    exists s' w' i,
      celfPick fuel n meme simulations s w = (Some s', w') /\
      seeds s' = seeds s ++ [i] /\
      seedSet s' = JS.set_add (seedSet s) i /\
      Permutation (map CELFNode.nodeId (queue s))
                  (i :: map CELFNode.nodeId (queue s')) /\
      graph w' = graph w /\
      (spread_calls w <= spread_calls w')%nat /\
      (outdated (length (seeds s)) (queue s) = 0%nat ->
       spread_calls w' = spread_calls w).
Proof.
  induction n as [|n IH]; intros s w Hq Hn Hf; [lia|].
  cbn [celfPick]. destruct (queue s) as [|u rest] eqn:Eq; [congruence|].
  destruct (Nat.eqb (CELFNode.flag u) (length (seeds s))) eqn:Efl.
  - eexists _, w, (CELFNode.nodeId u). cbn [ret seeds seedSet queue map].
    repeat split; auto.
  - destruct (calculateMarginalGain_runs fuel meme (seedSet s)
                (CELFNode.nodeId u) simulations w Hf)
      as (mg & w1 & E & G & _ & C & _).
    unfold bindO, bind. rewrite E. cbv zeta.
    set (u' := {| CELFNode.nodeId := CELFNode.nodeId u; CELFNode.mg1 := mg;
                  CELFNode.prevBest := CELFNode.prevBest u;
                  CELFNode.mg2 := CELFNode.mg2 u;
                  CELFNode.flag := length (seeds s) |}).
    set (s1 := {| seeds := seeds s; seedSet := seedSet s;
                  queue := sortByGain (u' :: rest) |}).
    assert (Hout : outdated (length (seeds s)) (queue s1)
                   = outdated (length (seeds s)) rest).
    { cbn [s1 queue]. rewrite (outdated_perm _ _ _ (sortByGain_perm _)).
      unfold outdated. cbn [List.filter u' CELFNode.flag].
      now rewrite Nat.eqb_refl. }
    assert (Hold : outdated (length (seeds s)) (u :: rest)
                   = S (outdated (length (seeds s)) rest)).
    { unfold outdated. cbn [List.filter]. now rewrite Efl. }
    destruct (IH s1 w1) as (s' & w' & i & E' & Hs & Hss & Hp & G' & C' & _).
    + cbn [s1 queue]. intro H.
      pose proof (Permutation_length (sortByGain_perm (u' :: rest))) as L.
      rewrite H in L. discriminate L.
    + cbn [s1 seeds]. rewrite Hout. rewrite Hold in Hn. lia.
    + cbn [s1 seedSet]. rewrite G. exact Hf.
    + exists s', w', i. rewrite E'. split; [reflexivity|].
      cbn [s1 seeds seedSet queue] in Hs, Hss, Hp.
      split; [exact Hs|]. split; [exact Hss|].
      split; [|split; [congruence|split; [lia|]]].
      * rewrite <- Hp.
        rewrite (Permutation_map CELFNode.nodeId (sortByGain_perm (u' :: rest))).
        reflexivity.
      * rewrite Hold. discriminate.
Qed.

Lemma celfRounds_runs (budget : nat) (n : nat) :
  forall s w,
    (budget - length (seeds s) <= n)%nat ->
    (length (seedSet s) <= length (seeds s))%nat ->
    (length (queue s) < fuel)%nat ->
    (budget + length (nodes (graph w)) <= fuel)%nat ->
    exists chosen rest w',
      celfRounds fuel n meme budget simulations s w = (Some chosen, w') /\
      length chosen =
        Nat.max (length (seeds s))
                (Nat.min budget (length (seeds s) + length (queue s))) /\
      Permutation (chosen ++ rest)
                  (seeds s ++ map CELFNode.nodeId (queue s)) /\
      graph w' = graph w /\
      (spread_calls w <= spread_calls w')%nat /\
      ((budget <= length (seeds s))%nat -> spread_calls w' = spread_calls w) /\
      ((budget <= S (length (seeds s)))%nat ->
       outdated (length (seeds s)) (queue s) = 0%nat ->
       spread_calls w' = spread_calls w).
Proof.
  induction n as [|n IH]; intros s w Hn Hss Hq Hf.
  - cbn [celfRounds].
    assert (E : Nat.ltb (length (seeds s)) budget = false)
      by (apply Nat.ltb_ge; lia).
    rewrite E. cbn [andb ret].
    exists (seeds s), (map CELFNode.nodeId (queue s)), w.
    repeat split; auto; lia.
  - cbn [celfRounds].
    destruct (Nat.ltb (length (seeds s)) budget) eqn:E1; cbn [andb].
    2: { apply Nat.ltb_ge in E1.
         exists (seeds s), (map CELFNode.nodeId (queue s)), w.
         cbn [ret]. repeat split; auto; lia. }
    apply Nat.ltb_lt in E1.
    destruct (Nat.eqb (length (queue s)) 0) eqn:E2; cbn [negb].
    { apply Nat.eqb_eq in E2.
      exists (seeds s), (map CELFNode.nodeId (queue s)), w.
      cbn [ret]. repeat split; auto; lia. }
    apply Nat.eqb_neq in E2.
    pose proof (outdated_le (length (seeds s)) (queue s)) as Hle.
    destruct (celfPick_runs fuel s w)
      as (s1 & w1 & i & E & Hs & Hset & Hp & G & C & C0).
    + intro H. rewrite H in E2. now apply E2.
    + lia.
    + lia.
    + unfold bindO, bind. rewrite E.
      pose proof (Permutation_length Hp) as Lp.
      rewrite !length_map in Lp. cbn [length] in Lp. rewrite length_map in Lp.
      pose proof (set_add_length (seedSet s) i) as La.
      destruct (IH s1 w1)
        as (chosen & rest & w' & E' & Hlen & Hperm & G' & C' & C1 & _).
      * rewrite Hs, length_app. cbn [length]. lia.
      * rewrite Hs, Hset, length_app. cbn [length]. lia.
      * lia.
      * rewrite G. exact Hf.
      * exists chosen, rest, w'. rewrite E'. split; [reflexivity|].
        rewrite Hs, length_app in Hlen, C1. cbn [length] in Hlen, C1.
        split; [lia|]. split; [|split; [congruence | split; [lia|]]].
        -- rewrite Hperm, Hs, <- app_assoc. apply Permutation_app_head.
           cbn [app]. now symmetry.
        -- split; [lia|]. intros Hb H0. rewrite C1 by lia. now apply C0.
Qed.

End CelfRuns.

(** X17: with fuel for budget + nodes + 1 steps, celfSelection returns
    exactly min(budget, number of susceptible nodes) seeds, and the seeds
    are ids of that many different susceptible nodes; the graph is
    untouched and at least two estimateSpread calls are made per
    susceptible node. *)
Theorem celfSelection_selects_min
    (meme : Meme.t) (budget k spare : nat) (w : World) :
  exists chosen rest w',
    celfSelection (budget + length (nodes (graph w)) + 1 + spare)
      meme budget (S k) w = (Some chosen, w') /\
    length chosen = Nat.min budget (length (candidates (graph w))) /\
    Permutation (chosen ++ rest) (candidates (graph w)) /\
    graph w' = graph w /\
    (spread_calls w + 2 * length (candidates (graph w)) <= spread_calls w')%nat.
Proof.
  set (fuel := (budget + length (nodes (graph w)) + 1 + spare)%nat).
  unfold celfSelection, bindO, bind, readGraph. cbv beta iota.
  destruct (celfInit_runs fuel meme (S k) (nodes (graph w)) [] w
              ltac:(unfold fuel; lia)) as (Q & w1 & E & Hids & _ & G & C).
  rewrite E. cbn [map app] in Hids.
  fold (candidates (graph w)) in Hids.
  assert (Hlen : length Q = length (candidates (graph w))).
  { rewrite <- Hids. now rewrite length_map. }
  assert (Hcand : (length (candidates (graph w)) <= length (nodes (graph w)))%nat).
  { unfold candidates. rewrite length_map. apply List.filter_length_le. }
  destruct (celfRounds_runs fuel meme (S k) budget fuel
              {| seeds := []; seedSet := []; queue := sortByGain Q |} w1)
    as (chosen & rest & w' & E' & Hl & Hp & G' & C' & _).
  - cbn. unfold fuel. lia.
  - cbn. lia.
  - cbn [queue]. rewrite (Permutation_length (sortByGain_perm Q)).
    unfold fuel. lia.
  - rewrite G. unfold fuel. lia.
  - exists chosen, rest, w'. rewrite E'. split; [reflexivity|].
    cbn [seeds queue length app] in Hl, Hp.
    rewrite (Permutation_length (sortByGain_perm Q)), Hlen in Hl.
    split; [lia|]. split; [|split; [congruence|]].
    + rewrite Hp, <- Hids. apply Permutation_map. apply sortByGain_perm.
    + unfold candidates. rewrite length_map. lia.
Qed.

(* ------------------------------------------------------------------ *)
(** ** CELF++ selects as many seeds, at a higher price *)

Section CelfPlusPlusRuns.
Variable fuel : nat.
Variable meme : Meme.t.
Variable simulations : nat.

Lemma celfPlusPlusInit_runs (todo : list Node.t) :
  forall best Q w,
    (2 + length (nodes (graph w)) <= fuel)%nat ->
    exists best' Q' w',
      celfPlusPlusInit fuel meme simulations [] todo best Q w
        = (Some (best', Q'), w') /\
      map CELFNode.nodeId Q' =
        map CELFNode.nodeId Q
        ++ map Node.id
             (List.filter (fun n => isSusceptible (Node.state n)) todo) /\
      (Forall (fun u => CELFNode.flag u = 0%nat) Q ->
       Forall (fun u => CELFNode.flag u = 0%nat) Q') /\
      graph w' = graph w /\
      (spread_calls w
       + 2 * length (List.filter (fun n => isSusceptible (Node.state n)) todo)
       <= spread_calls w')%nat /\
      (truthyIds todo ->
       spread_calls w' =
         (spread_calls w
          + (4 * length (List.filter (fun n => isSusceptible (Node.state n)) todo)
             - (if truthyRef best then 0 else 2)))%nat).
Proof.
  induction todo as [|node todo IH]; intros best Q w Hf;
    cbn [celfPlusPlusInit].
  { exists best, Q, w. cbn. rewrite app_nil_r.
    repeat split; auto; try lia. }
  assert (Htail : truthyIds (node :: todo) -> truthyIds todo).
  { intros H n Hn. apply H. now right. }
  destruct (Node.state node) eqn:Est; cbn [List.filter isSusceptible];
    rewrite Est; cbn [isSusceptible].
  2,3,4: destruct (IH best Q w Hf)
           as (b' & Q' & w' & E & H1 & H2 & H3 & H4 & H5);
         exists b', Q', w'; repeat split; auto.
  destruct (calculateMarginalGain_runs fuel meme [] (Node.id node) simulations w
              ltac:(cbn; lia)) as (mg1 & w1 & E1 & G1 & _ & C1 & _).
  unfold bindO, bind. rewrite E1.
  assert (Hmg2 : exists mg2 w2,
            (if truthyRef best
             then calculateMarginalGain fuel
                    (JS.set_add [] (default EmptyString best))
                    (Node.id node) meme simulations
             else ret (Some 0%Q)) w1 = (Some mg2, w2) /\
            graph w2 = graph w /\
            spread_calls w2 =
              (spread_calls w + (if truthyRef best then 4 else 2))%nat).
  { destruct (truthyRef best).
    - destruct (calculateMarginalGain_runs fuel meme
                  (JS.set_add [] (default EmptyString best)) (Node.id node)
                  simulations w1 ltac:(rewrite G1; cbn; lia))
        as (mg2 & w2 & E2 & G2 & _ & C2 & _).
      exists mg2, w2. split; [exact E2|]. split; [congruence|]. lia.
    - exists 0%Q, w1. cbn [ret]. split; [reflexivity|].
      split; [exact G1|]. lia. }
  destruct Hmg2 as (mg2 & w2 & E2 & G2 & C2). cbv zeta. rewrite E2.
  match goal with
  | |- context [celfPlusPlusInit _ _ _ _ _ ?b ?q w2] =>
      set (best1 := b); set (Q1 := q)
  end.
  destruct (IH best1 Q1 w2 ltac:(rewrite G2; exact Hf))
    as (b' & Q' & w' & E & Hids & Hfl & G & C & Cx).
  exists b', Q', w'. rewrite E. split; [reflexivity|].
  split; [|split; [|split; [congruence|split]]].
  - rewrite Hids. unfold Q1. rewrite map_app, <- app_assoc. reflexivity.
  - intro H. apply Hfl. unfold Q1. apply List.Forall_app. split; [exact H|].
    now repeat constructor.
  - cbn [length]. destruct (truthyRef best); lia.
  - intro Ht. rewrite (Cx (Htail Ht)), C2. cbn [length].
    assert (Hb1 : truthyRef best1 = true).
    { unfold best1. destruct (truthyRef best) eqn:Eb; cbn [negb orb].
      - match goal with
        | |- truthyRef (if ?c then _ else _) = true => destruct c
        end; [|exact Eb].
        cbn [truthyRef]. apply Ht; [now left | now rewrite Est].
      - cbn [truthyRef]. apply Ht; [now left | now rewrite Est]. }
    rewrite Hb1. destruct (truthyRef best); lia.
Qed.

Lemma celfPlusPlusPick_runs (n : nat) :
  forall s w,
    queue (base s) <> [] ->
    (outdated (length (seeds (base s))) (queue (base s)) < n)%nat ->
    (2 + length (seedSet (base s)) + length (nodes (graph w)) <= fuel)%nat ->
    exists s' w' i,
      celfPlusPlusPick fuel n meme simulations s w = (Some s', w') /\
      seeds (base s') = seeds (base s) ++ [i] /\
      seedSet (base s') = JS.set_add (seedSet (base s)) i /\
      Permutation (map CELFNode.nodeId (queue (base s)))
                  (i :: map CELFNode.nodeId (queue (base s'))) /\
      graph w' = graph w /\
      (spread_calls w <= spread_calls w')%nat /\
      (outdated (length (seeds (base s))) (queue (base s)) = 0%nat ->
       spread_calls w' = spread_calls w).
Proof.
  induction n as [|n IH]; intros s w Hq Hn Hf; [lia|].
  cbn [celfPlusPlusPick].
  destruct (queue (base s)) as [|u rest] eqn:Eq; [congruence|].
  destruct (Nat.eqb (CELFNode.flag u) (length (seeds (base s)))) eqn:Efl.
  - eexists _, w, (CELFNode.nodeId u).
    cbn [ret base seeds seedSet queue map]. repeat split; auto.
  - assert (Hold : outdated (length (seeds (base s))) (u :: rest)
                   = S (outdated (length (seeds (base s))) rest)).
    { unfold outdated. cbn [List.filter]. now rewrite Efl. }
    unfold bindO at 1. unfold bind at 1.
    match goal with
    | |- context [let (_, _) := ?m w in _] =>
        assert (Hu1 : exists u1 w1,
                  m w = (Some u1, w1) /\
                  CELFNode.nodeId u1 = CELFNode.nodeId u /\
                  graph w1 = graph w /\
                  (spread_calls w <= spread_calls w1)%nat)
    end.
    { destruct (sameRef (CELFNode.prevBest u) (lastSeed s)).
      - eexists _, w. cbn [ret]. repeat split; auto.
      - destruct (calculateMarginalGain_runs fuel meme (seedSet (base s))
                    (CELFNode.nodeId u) simulations w ltac:(lia))
          as (mg1 & w1 & E1 & G1 & _ & C1 & _).
        unfold bindO, bind. rewrite E1.
        destruct (truthyRef (curBest s)).
        + pose proof (set_add_length (seedSet (base s))
                        (default EmptyString (curBest s))) as La.
          destruct (calculateMarginalGain_runs fuel meme
                      (JS.set_add (seedSet (base s))
                                  (default EmptyString (curBest s)))
                      (CELFNode.nodeId u) simulations w1
                      ltac:(rewrite G1; lia))
            as (mg2 & w2 & E2 & G2 & _ & C2 & _).
          cbv zeta. rewrite E2. eexists _, w2. cbn [ret].
          split; [reflexivity|]. cbn [CELFNode.nodeId].
          split; [reflexivity|]. split; [congruence | lia].
        + cbn [ret]. eexists _, w1. split; [reflexivity|].
          cbn [CELFNode.nodeId]. split; [reflexivity|].
          split; [exact G1 | lia]. }
    destruct Hu1 as (u1 & w1 & E1 & Hid & G1 & C1). rewrite E1. cbv zeta.
    match goal with
    | |- context [celfPlusPlusPick _ _ _ _ ?st w1] => set (s1 := st)
    end.
    assert (Hperm1 : Permutation (queue (base s1))
                       ({| CELFNode.nodeId := CELFNode.nodeId u1;
                           CELFNode.mg1 := CELFNode.mg1 u1;
                           CELFNode.prevBest := CELFNode.prevBest u1;
                           CELFNode.mg2 := CELFNode.mg2 u1;
                           CELFNode.flag := length (seeds (base s)) |} :: rest))
      by apply sortByGain_perm.
    assert (Hout : outdated (length (seeds (base s))) (queue (base s1))
                   = outdated (length (seeds (base s))) rest).
    { rewrite (outdated_perm _ _ _ Hperm1).
      unfold outdated. cbn [List.filter CELFNode.flag].
      now rewrite Nat.eqb_refl. }
    destruct (IH s1 w1) as (s' & w' & i & E' & Hs & Hss & Hp & G' & C' & _).
    + intro H. apply Permutation_length in Hperm1. rewrite H in Hperm1.
      discriminate Hperm1.
    + change (seeds (base s1)) with (seeds (base s)).
      rewrite Hout. rewrite Hold in Hn. lia.
    + change (seedSet (base s1)) with (seedSet (base s)). rewrite G1. exact Hf.
    + exists s', w', i. rewrite E'. split; [reflexivity|].
      change (seeds (base s1)) with (seeds (base s)) in Hs.
      change (seedSet (base s1)) with (seedSet (base s)) in Hss.
      split; [exact Hs|]. split; [exact Hss|].
      split; [|split; [congruence|split; [lia|]]].
      * rewrite <- Hp. rewrite (Permutation_map CELFNode.nodeId Hperm1).
        cbn [map CELFNode.nodeId]. now rewrite Hid.
      * rewrite Hold. discriminate.
Qed.

Lemma celfPlusPlusRounds_runs (budget : nat) (n : nat) :
  forall s w,
    (budget - length (seeds (base s)) <= n)%nat ->
    (length (seedSet (base s)) <= length (seeds (base s)))%nat ->
    (length (queue (base s)) < fuel)%nat ->
    (1 + budget + length (nodes (graph w)) <= fuel)%nat ->
    exists chosen rest w',
      celfPlusPlusRounds fuel n meme budget simulations s w
        = (Some chosen, w') /\
      length chosen =
        Nat.max (length (seeds (base s)))
                (Nat.min budget
                   (length (seeds (base s)) + length (queue (base s)))) /\
      Permutation (chosen ++ rest)
                  (seeds (base s) ++ map CELFNode.nodeId (queue (base s))) /\
      graph w' = graph w /\
      (spread_calls w <= spread_calls w')%nat /\
      ((budget <= length (seeds (base s)))%nat ->
       spread_calls w' = spread_calls w) /\
      ((budget <= S (length (seeds (base s))))%nat ->
       outdated (length (seeds (base s))) (queue (base s)) = 0%nat ->
       spread_calls w' = spread_calls w).
Proof.
  induction n as [|n IH]; intros s w Hn Hss Hq Hf.
  - cbn [celfPlusPlusRounds].
    assert (E : Nat.ltb (length (seeds (base s))) budget = false)
      by (apply Nat.ltb_ge; lia).
    rewrite E. cbn [andb ret].
    exists (seeds (base s)), (map CELFNode.nodeId (queue (base s))), w.
    repeat split; auto; lia.
  - cbn [celfPlusPlusRounds].
    destruct (Nat.ltb (length (seeds (base s))) budget) eqn:E1; cbn [andb].
    2: { apply Nat.ltb_ge in E1.
         exists (seeds (base s)), (map CELFNode.nodeId (queue (base s))), w.
         cbn [ret]. repeat split; auto; lia. }
    apply Nat.ltb_lt in E1.
    destruct (Nat.eqb (length (queue (base s))) 0) eqn:E2; cbn [negb].
    { apply Nat.eqb_eq in E2.
      exists (seeds (base s)), (map CELFNode.nodeId (queue (base s))), w.
      cbn [ret]. repeat split; auto; lia. }
    apply Nat.eqb_neq in E2.
    pose proof (outdated_le (length (seeds (base s))) (queue (base s))) as Hle.
    destruct (celfPlusPlusPick_runs fuel s w)
      as (s1 & w1 & i & E & Hs & Hset & Hp & G & C & C0).
    + intro H. rewrite H in E2. now apply E2.
    + lia.
    + lia.
    + unfold bindO, bind. rewrite E.
      pose proof (Permutation_length Hp) as Lp.
      rewrite !length_map in Lp. cbn [length] in Lp. rewrite length_map in Lp.
      pose proof (set_add_length (seedSet (base s)) i) as La.
      destruct (IH s1 w1)
        as (chosen & rest & w' & E' & Hlen & Hperm & G' & C' & C1 & _).
      * rewrite Hs, length_app. cbn [length]. lia.
      * rewrite Hs, Hset, length_app. cbn [length]. lia.
      * lia.
      * rewrite G. exact Hf.
      * exists chosen, rest, w'. rewrite E'. split; [reflexivity|].
        rewrite Hs, length_app in Hlen, C1. cbn [length] in Hlen, C1.
        split; [lia|]. split; [|split; [congruence | split; [lia|]]].
        -- rewrite Hperm, Hs, <- app_assoc. apply Permutation_app_head.
           cbn [app]. now symmetry.
        -- split; [lia|]. intros Hb H0. rewrite C1 by lia. now apply C0.
Qed.

End CelfPlusPlusRuns.

(** X18: with fuel for budget + nodes + 2 steps, celfPlusPlusSelection
    also returns exactly min(budget, number of susceptible nodes) seeds,
    ids of that many different susceptible nodes, and leaves the graph
    untouched. *)
Theorem celfPlusPlusSelection_selects_min
    (meme : Meme.t) (budget k spare : nat) (w : World) :
  exists chosen rest w',
    celfPlusPlusSelection (budget + length (nodes (graph w)) + 2 + spare)
      meme budget (S k) w = (Some chosen, w') /\
    length chosen = Nat.min budget (length (candidates (graph w))) /\
    Permutation (chosen ++ rest) (candidates (graph w)) /\
    graph w' = graph w /\
    (spread_calls w + 2 * length (candidates (graph w)) <= spread_calls w')%nat.
Proof.
  set (fuel := (budget + length (nodes (graph w)) + 2 + spare)%nat).
  unfold celfPlusPlusSelection, bindO, bind, readGraph. cbv beta iota.
  destruct (celfPlusPlusInit_runs fuel meme (S k) (nodes (graph w)) None [] w
              ltac:(unfold fuel; lia))
    as (best & Q & w1 & E & Hids & _ & G & C & _).
  rewrite E. cbn [map app fst snd] in Hids |- *.
  fold (candidates (graph w)) in Hids.
  assert (Hlen : length Q = length (candidates (graph w))).
  { rewrite <- Hids. now rewrite length_map. }
  assert (Hcand : (length (candidates (graph w)) <= length (nodes (graph w)))%nat).
  { unfold candidates. rewrite length_map. apply List.filter_length_le. }
  destruct (celfPlusPlusRounds_runs fuel meme (S k) budget fuel
              {| base := {| seeds := []; seedSet := []; queue := sortByGain Q |};
                 lastSeed := None; curBest := best |} w1)
    as (chosen & rest & w' & E' & Hl & Hp & G' & C' & _).
  - cbn. unfold fuel. lia.
  - cbn. lia.
  - cbn [base queue]. rewrite (Permutation_length (sortByGain_perm Q)).
    unfold fuel. lia.
  - rewrite G. unfold fuel. lia.
  - exists chosen, rest, w'. rewrite E'. split; [reflexivity|].
    cbn [base seeds queue length app] in Hl, Hp.
    rewrite (Permutation_length (sortByGain_perm Q)), Hlen in Hl.
    split; [lia|]. split; [|split; [congruence|]].
    + rewrite Hp, <- Hids. apply Permutation_map. apply sortByGain_perm.
    + unfold candidates. rewrite length_map. lia.
Qed.

Lemma outdated_fresh (Q : list CELFNode.t) :
  Forall (fun u => CELFNode.flag u = 0%nat) Q -> outdated 0 Q = 0%nat.
Proof.
  unfold outdated. induction 1 as [|u Q Hu _ IH]; [reflexivity|].
  cbn [List.filter]. rewrite Hu. exact IH.
Qed.

(** X19: the first seed is picked without any recomputation.  With a
    budget of at most 1 and non-empty candidate ids, celfSelection makes
    exactly two estimateSpread calls per susceptible node, and
    celfPlusPlusSelection exactly four per susceptible node less two:
    the look-ahead never pays off within the first round. *)
Theorem first_round_call_counts
    (meme : Meme.t) (budget k spare : nat) (w : World) :
  (budget <= 1)%nat ->
  truthyIds (nodes (graph w)) ->
  let fuel := (length (nodes (graph w)) + 3 + spare)%nat in
  spread_calls (snd (celfSelection fuel meme budget (S k) w))
    = (spread_calls w + 2 * length (candidates (graph w)))%nat /\
  spread_calls (snd (celfPlusPlusSelection fuel meme budget (S k) w))
    = (spread_calls w + (4 * length (candidates (graph w)) - 2))%nat.
Proof.
  intros Hb Ht fuel.
  assert (Hcand : (length (candidates (graph w)) <= length (nodes (graph w)))%nat).
  { unfold candidates. rewrite length_map. apply List.filter_length_le. }
  split.
  - unfold celfSelection, bindO, bind, readGraph. cbv beta iota.
    destruct (celfInit_runs fuel meme (S k) (nodes (graph w)) [] w
                ltac:(unfold fuel; lia)) as (Q & w1 & E & Hids & Hfl & G & C).
    rewrite E. cbn [map app] in Hids.
    assert (Hlen : length Q = length (candidates (graph w))).
    { unfold candidates. rewrite <- Hids. now rewrite length_map. }
    destruct (celfRounds_runs fuel meme (S k) budget fuel
                {| seeds := []; seedSet := []; queue := sortByGain Q |} w1)
      as (chosen & rest & w' & E' & _ & _ & _ & _ & _ & C0).
    + cbn. unfold fuel. lia.
    + cbn. lia.
    + cbn [queue]. rewrite (Permutation_length (sortByGain_perm Q)).
      unfold fuel. lia.
    + rewrite G. unfold fuel. lia.
    + rewrite E'. cbn [snd]. rewrite C0.
      * rewrite C. unfold candidates. rewrite length_map. reflexivity.
      * cbn. lia.
      * cbn [seeds queue length].
        rewrite (outdated_perm _ _ _ (sortByGain_perm Q)).
        apply outdated_fresh. apply Hfl. constructor.
  - unfold celfPlusPlusSelection, bindO, bind, readGraph. cbv beta iota.
    destruct (celfPlusPlusInit_runs fuel meme (S k) (nodes (graph w)) None [] w
                ltac:(unfold fuel; lia))
      as (best & Q & w1 & E & Hids & Hfl & G & _ & C).
    rewrite E. cbn [map app fst snd] in Hids |- *.
    assert (Hlen : length Q = length (candidates (graph w))).
    { unfold candidates. rewrite <- Hids. now rewrite length_map. }
    destruct (celfPlusPlusRounds_runs fuel meme (S k) budget fuel
                {| base := {| seeds := []; seedSet := [];
                              queue := sortByGain Q |};
                   lastSeed := None; curBest := best |} w1)
      as (chosen & rest & w' & E' & _ & _ & _ & _ & _ & C0).
    + cbn. unfold fuel. lia.
    + cbn. lia.
    + cbn [base queue]. rewrite (Permutation_length (sortByGain_perm Q)).
      unfold fuel. lia.
    + rewrite G. unfold fuel. lia.
    + rewrite E'. cbn [snd]. rewrite C0.
      * rewrite (C Ht). cbn [truthyRef].
        unfold candidates. rewrite length_map. reflexivity.
      * cbn. lia.
      * cbn [base seeds queue length].
        rewrite (outdated_perm _ _ _ (sortByGain_perm Q)).
        apply outdated_fresh. apply Hfl. constructor.
Qed.

Lemma first_round_call_counts_witness :
  let w := Scenario.world Scenario.relay Scenario.secondDrawLow in
  let fuel := (length (nodes (graph w)) + 3 + 4)%nat in
  spread_calls (snd (celfSelection fuel Scenario.viral 1 1 w))
    = (spread_calls w + 2 * length (candidates (graph w)))%nat /\
  spread_calls (snd (celfPlusPlusSelection fuel Scenario.viral 1 1 w))
    = (spread_calls w + (4 * length (candidates (graph w)) - 2))%nat.
Proof.
  apply (first_round_call_counts Scenario.viral 1 0 4
           (Scenario.world Scenario.relay Scenario.secondDrawLow)).
  - lia.
  - intros n Hn _. cbn in Hn.
    destruct Hn as [<-|[<-|[<-|[]]]]; reflexivity.
Defined.

(* ------------------------------------------------------------------ *)
(** ** What one propagation step writes *)

Section PropagationStep.
Variable meme : Meme.t.

Lemma nodeStep_refl (n : Node.t) : nodeStep n n.
Proof. unfold nodeStep. auto 10. Qed.

Lemma nodeStep_trans (a b c : Node.t) :
  nodeStep a b -> nodeStep b c -> nodeStep a c.
Proof.
  intros (I1 & K1 & A1 & T1 & S1) (I2 & K2 & A2 & T2 & S2).
  unfold nodeStep. repeat split; try congruence.
  destruct S2 as [->|[Hb Hc]]; [exact S1|].
  destruct S1 as [->|[Ha Hb']]; [now right|].
  destruct Hb' as [Hb'|Hb']; congruence.
Qed.

Lemma graphStep_refl (g : Network) : graphStep g g.
Proof.
  repeat split. intros i n H. exists n. split; [exact H | apply nodeStep_refl].
Qed.

Lemma graphStep_trans (a b c : Network) :
  graphStep a b -> graphStep b c -> graphStep a c.
Proof.
  intros (E1 & L1 & N1) (E2 & L2 & N2). repeat split; try congruence.
  intros i n H. destruct (N1 i n H) as (n1 & H1 & S1).
  destruct (N2 i n1 H1) as (n2 & H2 & S2).
  exists n2. split; [exact H2|]. now apply nodeStep_trans with n1.
Qed.

Lemma infectedAt_stays (g g' : Network) (ref : nat) :
  graphStep g g' -> infectedAt g ref -> infectedAt g' ref.
Proof.
  intros (_ & _ & N) (n & Hn & Hs). destruct (N ref n Hn) as (n' & Hn' & S).
  exists n'. split; [exact Hn'|].
  destruct S as (_ & _ & _ & _ & [->|[H _]]); congruence.
Qed.

Lemma susceptibleAt_before (g g' : Network) (ref : nat) :
  graphStep g g' -> susceptibleAt g' ref -> susceptibleAt g ref.
Proof.
  intros (_ & L & N) (n' & Hn' & Hs).
  destruct (nodes g !! ref) as [n|] eqn:Hn.
  - destruct (N ref n Hn) as (n1 & Hn1 & S). exists n. split; [exact Hn|].
    rewrite Hn' in Hn1. injection Hn1 as <-.
    destruct S as (_ & _ & _ & _ & [->|[H _]]); [exact Hs | exact H].
  - apply lookup_ge_None in Hn. apply lookup_lt_Some in Hn'. lia.
Qed.

Lemma transmitTo_cons (infectedNode nb : Node.t) (ref : nat)
    (neighbors : list nat) (acc : PropagationStepResult) (w : World) :
  nodes (graph w) !! ref = Some nb ->
  isSusceptible (Node.state nb) = true ->
  let seen := existsb (String.eqb (Meme.id meme)) (Node.exposure_history nb) in
  let accepted :=
    JS.ltb_nan (random_draws w (random_next w))
      match JS.get (Node.trust_network infectedNode) (Node.id nb) with
      | JS.Number tw =>
          Some (calculateAcceptanceProbability nb meme infectedNode tw)
      | _ => None
      end in
  transmitTo meme infectedNode (ref :: neighbors) acc w =
  transmitTo meme infectedNode neighbors
    {| newInfections := newInfections acc ++ (if accepted then [ref] else []);
       transmissions :=
         transmissions acc ++
         [{| Transmission.from := Node.id infectedNode;
             Transmission.to := Node.id nb;
             Transmission.accepted := accepted |}] |}
    (afterAttempt (Meme.id meme) ref seen accepted w).
Proof.
  intros Hnb Hsus. cbv zeta. cbn [transmitTo].
  unfold bind at 1. unfold readNode, bind at 1. unfold readGraph, ret at 1.
  cbv beta iota. rewrite Hnb, Hsus. cbn [negb].
  unfold afterAttempt.
  destruct (existsb (String.eqb (Meme.id meme)) (Node.exposure_history nb));
    cbn [negb]; unfold bind, ret, writeNode, Math_random; cbv beta iota;
    cbn [random_draws random_next];
    destruct (JS.ltb_nan _ _); reflexivity.
Qed.

Lemma afterAttempt_step (w : World) (ref : nat) (nb : Node.t)
    (seen accepted : bool) :
  nodes (graph w) !! ref = Some nb ->
  Node.state nb = susceptible ->
  let w' := afterAttempt (Meme.id meme) ref seen accepted w in
  graphStep (graph w) (graph w') /\
  random_draws w' = random_draws w /\
  spread_calls w' = spread_calls w /\
  (accepted = true -> infectedAt (graph w') ref).
Proof.
  intros Hnb Hst. cbv zeta.
  assert (Hshape : forall f,
            (forall n, Node.state n = susceptible -> nodeStep n (f n)) ->
            graphStep (graph w)
              {| nodes := alter f ref (nodes (graph w));
                 edges := edges (graph w) |}).
  { intros f Hf. split; [reflexivity|]. split; [apply length_alter|].
    intros i m Hm. cbn [nodes]. destruct (decide (ref = i)) as [<-|Hne].
    - rewrite list_lookup_alter_eq, Hm. cbn. exists (f m).
      split; [reflexivity|]. apply Hf. congruence.
    - rewrite list_lookup_alter_ne by exact Hne. exists m.
      split; [exact Hm | apply nodeStep_refl]. }
  unfold afterAttempt.
  destruct seen, accepted; cbn [negb]; unfold ret, writeNode, Math_random;
    cbn [snd graph random_draws spread_calls random_next nodes edges].
  - split; [|split; [reflexivity|split; [reflexivity|]]].
    + apply Hshape. intros n Hn. unfold nodeStep. cbn. repeat split.
      right. auto.
    + intros _. eexists. cbn [nodes]. rewrite list_lookup_alter_eq, Hnb.
      cbn. split; reflexivity.
  - split; [apply graphStep_refl|]. repeat split. discriminate.
  - split; [|split; [reflexivity|split; [reflexivity|]]].
    + split; [reflexivity|]. split; [cbn [nodes]; now rewrite !length_alter|].
      intros i m Hm. cbn [nodes]. destruct (decide (ref = i)) as [<-|Hne].
      * rewrite !list_lookup_alter_eq, Hm. cbn. eexists.
        split; [reflexivity|]. unfold nodeStep. cbn. repeat split.
        right. split; [congruence|right; reflexivity].
      * rewrite !list_lookup_alter_ne by exact Hne. exists m.
        split; [exact Hm | apply nodeStep_refl].
    + intros _. eexists. cbn [nodes].
      rewrite list_lookup_alter_eq, list_lookup_alter_eq, Hnb.
      cbn. split; reflexivity.
  - split; [|repeat split; discriminate].
    apply Hshape. intros n Hn. unfold nodeStep. cbn. repeat split.
    right. auto.
Qed.

Lemma transmitTo_skip (infectedNode : Node.t) (ref : nat)
    (neighbors : list nat) (acc : PropagationStepResult) (w : World) :
  match nodes (graph w) !! ref with
  | None => True
  | Some nb => isSusceptible (Node.state nb) = false
  end ->
  transmitTo meme infectedNode (ref :: neighbors) acc w =
  transmitTo meme infectedNode neighbors acc w.
Proof.
  intros H. cbn [transmitTo].
  unfold bind at 1. unfold readNode, bind at 1. unfold readGraph, ret at 1.
  cbv beta iota. destruct (nodes (graph w) !! ref) as [nb|]; [|reflexivity].
  now rewrite H.
Qed.

Lemma transmitTo_step (infectedNode : Node.t) (neighbors : list nat) :
  forall acc w g0,
    graphStep g0 (graph w) ->
    infectionsSound g0 (graph w) acc ->
    let r := transmitTo meme infectedNode neighbors acc w in
    graphStep g0 (graph (snd r)) /\
    infectionsSound g0 (graph (snd r)) (fst r) /\
    random_draws (snd r) = random_draws w /\
    spread_calls (snd r) = spread_calls w.
Proof.
  induction neighbors as [|ref neighbors IH]; intros acc w g0 Hg Hacc.
  { cbn. auto. }
  cbv zeta.
  destruct (nodes (graph w) !! ref) as [nb|] eqn:Hnb.
  2: { rewrite transmitTo_skip by now rewrite Hnb. now apply IH. }
  destruct (isSusceptible (Node.state nb)) eqn:Hsus.
  2: { rewrite transmitTo_skip by now rewrite Hnb. now apply IH. }
  assert (Hst : Node.state nb = susceptible)
    by (revert Hsus; destruct (Node.state nb); cbn; congruence).
  rewrite (transmitTo_cons infectedNode nb ref neighbors acc w Hnb Hsus).
  set (seen := existsb _ _).
  set (accepted := JS.ltb_nan _ _).
  destruct (afterAttempt_step w ref nb seen accepted Hnb Hst)
    as (G3 & D3 & C3 & I3).
  set (w3 := afterAttempt (Meme.id meme) ref seen accepted w) in *.
  match goal with
  | |- context [transmitTo _ _ _ ?a w3] => set (acc' := a)
  end.
  assert (Hg3 : graphStep g0 (graph w3))
    by (now apply graphStep_trans with (graph w)).
  destruct (IH acc' w3 g0 Hg3) as (F1 & F2 & F3 & F4).
  - intros r Hr. unfold acc' in Hr. cbn [newInfections] in Hr.
    apply in_app_or in Hr. destruct Hr as [Hr|Hr].
    + destruct (Hacc r Hr) as [Ha Hb]. split; [exact Ha|].
      now apply infectedAt_stays with (graph w).
    + destruct accepted; [|destruct Hr].
      destruct Hr as [<-|[]]. split; [|now apply I3].
      apply susceptibleAt_before with (graph w); [exact Hg|].
      now exists nb.
  - cbv zeta in F1, F2, F3, F4 |- *.
    split; [exact F1|]. split; [exact F2|]. split; congruence.
Qed.

Lemma transmitFrom_cons (currentStep : Q) (ref : nat) (rest : list nat)
    (acc : PropagationStepResult) (w : World) :
  transmitFrom meme currentStep (ref :: rest) acc w =
  match nodes (graph w) !! ref with
  | None => transmitFrom meme currentStep rest acc w
  | Some infectedNode =>
      let w1 := snd (Math_random w) in
      if JS.ltb (random_draws w (random_next w))
                (calculateTransmissionProbability infectedNode meme currentStep)
      then
        let r := transmitTo meme infectedNode
                   (neighborRefs infectedNode 0 (nodes (graph w))) acc w1 in
        transmitFrom meme currentStep rest (fst r) (snd r)
      else transmitFrom meme currentStep rest acc w1
  end.
Proof.
  cbn [transmitFrom].
  unfold bind at 1. unfold readNode, bind at 1. unfold readGraph, ret at 1.
  cbv beta iota. destruct (nodes (graph w) !! ref) as [inf|]; [|reflexivity].
  cbv zeta. unfold bind at 1. unfold Math_random at 1. cbv beta iota.
  unfold bind at 1. destruct (JS.ltb _ _).
  - unfold bind at 1. unfold readGraph. cbv beta iota.
    unfold Math_random. cbn [snd graph].
    destruct (transmitTo _ _ _ _ _); reflexivity.
  - reflexivity.
Qed.

Lemma transmitFrom_step (currentStep : Q) (currentlyInfected : list nat) :
  forall acc w g0,
    graphStep g0 (graph w) ->
    infectionsSound g0 (graph w) acc ->
    let r := transmitFrom meme currentStep currentlyInfected acc w in
    graphStep g0 (graph (snd r)) /\
    infectionsSound g0 (graph (snd r)) (fst r) /\
    random_draws (snd r) = random_draws w /\
    spread_calls (snd r) = spread_calls w.
Proof.
  induction currentlyInfected as [|ref rest IH]; intros acc w g0 Hg Hacc.
  { cbn. auto. }
  cbv zeta. rewrite transmitFrom_cons.
  destruct (nodes (graph w) !! ref) as [inf|]; [|now apply IH].
  cbv zeta.
  assert (Hg1 : graphStep g0 (graph (snd (Math_random w)))) by exact Hg.
  assert (Hacc1 : infectionsSound g0 (graph (snd (Math_random w))) acc)
    by exact Hacc.
  assert (D1 : random_draws (snd (Math_random w)) = random_draws w)
    by reflexivity.
  assert (C1 : spread_calls (snd (Math_random w)) = spread_calls w)
    by reflexivity.
  set (w1 := snd (Math_random w)) in *. clearbody w1.
  destruct (JS.ltb _ _).
  - destruct (transmitTo_step inf (neighborRefs inf 0 (nodes (graph w)))
                acc w1 g0 Hg1 Hacc1) as (F1 & F2 & F3 & F4).
    cbv zeta in F1, F2, F3, F4.
    destruct (IH _ _ g0 F1 F2) as (K1 & K2 & K3 & K4).
    cbv zeta in K1, K2, K3, K4.
    split; [exact K1|]. split; [exact K2|]. split; congruence.
  - destruct (IH acc w1 g0 Hg1 Hacc1) as (K1 & K2 & K3 & K4).
    cbv zeta in K1, K2, K3, K4.
    split; [exact K1|]. split; [exact K2|]. split; congruence.
Qed.

Lemma graphStep_back (g g' : Network) (i : nat) (n' : Node.t) :
  graphStep g g' -> nodes g' !! i = Some n' ->
  exists n, nodes g !! i = Some n /\ nodeStep n n'.
Proof.
  intros (_ & Hlen & Hfw) Hn'.
  pose proof (lookup_lt_Some _ _ _ Hn') as Hlt. rewrite Hlen in Hlt.
  destruct (lookup_lt_is_Some_2 _ _ Hlt) as [n Hn].
  exists n. split; [exact Hn|].
  destruct (Hfw i n Hn) as (n'' & Hn'' & Hstep). congruence.
Qed.

Lemma transmitTo_from (infectedNode inf0 : Node.t) (iref : nat)
    (sources : list nat) (g0 : Network) (neighbors : list nat) :
  In iref sources ->
  nodes g0 !! iref = Some inf0 ->
  Node.trust_network infectedNode = Node.trust_network inf0 ->
  forall acc w,
    graphStep g0 (graph w) ->
    infectionsFrom g0 sources acc ->
    infectionsFrom g0 sources
      (fst (transmitTo meme infectedNode neighbors acc w)).
Proof.
  intros Hsrc Hinf0 Htn.
  induction neighbors as [|ref neighbors IH]; intros acc w Hg Hacc.
  { exact Hacc. }
  destruct (nodes (graph w) !! ref) as [nb|] eqn:Hnb.
  2: { rewrite transmitTo_skip by now rewrite Hnb. now apply IH. }
  destruct (isSusceptible (Node.state nb)) eqn:Hsus.
  2: { rewrite transmitTo_skip by now rewrite Hnb. now apply IH. }
  assert (Hst : Node.state nb = susceptible)
    by (revert Hsus; destruct (Node.state nb); cbn; congruence).
  rewrite (transmitTo_cons infectedNode nb ref neighbors acc w Hnb Hsus).
  set (seen := existsb _ _).
  match goal with
  | |- context [afterAttempt _ _ _ ?a w] => set (accepted := a) in *
  end.
  assert (Hacc' : accepted = true ->
            JS.prop_get (Node.trust_network infectedNode) (Node.id nb) <> None).
  { unfold accepted, JS.get, JS.member.
    destruct (JS.prop_get (Node.trust_network infectedNode) (Node.id nb));
      [discriminate|]. destruct (JS.inherited _); cbn; discriminate. }
  destruct (afterAttempt_step w ref nb seen accepted Hnb Hst) as (G3 & _).
  apply IH.
  - now apply graphStep_trans with (graph w).
  - intros r Hr. cbn [newInfections] in Hr.
    apply in_app_or in Hr. destruct Hr as [Hr|Hr]; [now apply Hacc|].
    destruct accepted; [|destruct Hr]. destruct Hr as [<-|[]].
    exists iref. split; [exact Hsrc|].
    destruct (graphStep_back _ _ _ _ Hg Hnb) as (nb0 & Hnb0 & Hid & _).
    exists inf0, nb0. split; [exact Hinf0|]. split; [exact Hnb0|].
    rewrite <- Htn, <- Hid. now apply Hacc'.
Qed.

Lemma transmitFrom_from (currentStep : Q) (sources : list nat) (g0 : Network)
    (currentlyInfected : list nat) :
  (forall x, In x currentlyInfected -> In x sources) ->
  forall acc w,
    graphStep g0 (graph w) ->
    infectionsSound g0 (graph w) acc ->
    infectionsFrom g0 sources acc ->
    infectionsFrom g0 sources
      (fst (transmitFrom meme currentStep currentlyInfected acc w)).
Proof.
  induction currentlyInfected as [|iref rest IH];
    intros Hsub acc w Hg Hsound Hacc.
  { exact Hacc. }
  assert (Hrest : forall x, In x rest -> In x sources)
    by (intros x Hx; apply Hsub; now right).
  rewrite transmitFrom_cons.
  destruct (nodes (graph w) !! iref) as [inf|] eqn:Hinf; [|now apply IH].
  cbv zeta.
  assert (Hg1 : graphStep g0 (graph (snd (Math_random w)))) by exact Hg.
  assert (Hsound1 : infectionsSound g0 (graph (snd (Math_random w))) acc)
    by exact Hsound.
  set (w1 := snd (Math_random w)) in *. clearbody w1.
  destruct (JS.ltb _ _); [|now apply IH].
  destruct (graphStep_back _ _ _ _ Hg Hinf)
    as (inf0 & Hinf0 & _ & _ & _ & Htn & _).
  pose proof (transmitTo_from inf inf0 iref sources g0
                (neighborRefs inf 0 (nodes (graph w)))
                (Hsub iref (or_introl eq_refl)) Hinf0 Htn acc w1 Hg1 Hacc) as F.
  destruct (transmitTo_step inf (neighborRefs inf 0 (nodes (graph w)))
              acc w1 g0 Hg1 Hsound1) as (G1 & G2 & _).
  cbv zeta in G1, G2.
  now apply IH.
Qed.

End PropagationStep.

(** X20: a propagation step keeps the shape of the graph: the same edges,
    the same number of nodes, and for every node the same id, identity
    class, attributes and trust entries.  A node that was not susceptible
    is left exactly as it was (so a node that was exposed without being
    convinced is never tried again); a susceptible node stays as it was
    or becomes exposed or infected. *)
Theorem propagation_step_writes_states_only
    (currentlyInfected : list nat) (meme : Meme.t) (currentStep : Q) (w : World) :
  graphStep (graph w)
    (graph (snd (simulatePropagationStep currentlyInfected meme currentStep w))).
Proof.
  unfold simulatePropagationStep.
  apply (transmitFrom_step meme currentStep currentlyInfected
           {| newInfections := []; transmissions := [] |} w (graph w)).
  - apply graphStep_refl.
  - intros ref [].
Qed.

(** X21: every node reported in newInfections was susceptible before the
    step and is infected after it. *)
Theorem propagation_step_reports_new_infections
    (currentlyInfected : list nat) (meme : Meme.t) (currentStep : Q) (w : World)
    (ref : nat) :
  let r := simulatePropagationStep currentlyInfected meme currentStep w in
  In ref (newInfections (fst r)) ->
  (exists n, nodes (graph w) !! ref = Some n /\ Node.state n = susceptible) /\
  (exists n', nodes (graph (snd r)) !! ref = Some n' /\
              Node.state n' = infected).
Proof.
  cbv zeta. unfold simulatePropagationStep.
  pose proof (transmitFrom_step meme currentStep currentlyInfected
                {| newInfections := []; transmissions := [] |} w (graph w)
                (graphStep_refl _) ltac:(intros r [])) as H.
  cbv zeta in H. destruct H as (_ & H & _). exact (H ref).
Qed.

Lemma propagation_step_reports_new_infections_witness :
  let w := Scenario.world Scenario.islands Scenario.noDraws in
  let r := simulatePropagationStep [0%nat] Scenario.viral 0 w in
  In 1%nat (newInfections (fst r)) /\
  (exists n, nodes (graph w) !! 1%nat = Some n /\ Node.state n = susceptible) /\
  (exists n', nodes (graph (snd r)) !! 1%nat = Some n' /\
              Node.state n' = infected).
Proof.
  assert (Hin : In 1%nat
                  (newInfections
                     (fst (simulatePropagationStep [0%nat] Scenario.viral 0
                             (Scenario.world Scenario.islands Scenario.noDraws)))))
    by (vm_compute; auto).
  split; [exact Hin|].
  exact (propagation_step_reports_new_infections [0%nat] Scenario.viral 0
           (Scenario.world Scenario.islands Scenario.noDraws) 1 Hin).
Defined.

(** X22: a propagation step infects only along trust entries: every node
    reported in newInfections is one for whose id some node of
    currentlyInfected has a trust entry (in the graph as it was before the
    step). *)
Theorem propagation_step_infects_trusted_only
    (currentlyInfected : list nat) (meme : Meme.t) (currentStep : Q) (w : World)
    (ref : nat) :
  let r := simulatePropagationStep currentlyInfected meme currentStep w in
  In ref (newInfections (fst r)) ->
  exists iref, In iref currentlyInfected /\ trustsRef (graph w) iref ref.
Proof.
  cbv zeta. unfold simulatePropagationStep.
  apply (transmitFrom_from meme currentStep currentlyInfected (graph w)
           currentlyInfected (fun x H => H)
           {| newInfections := []; transmissions := [] |} w).
  - apply graphStep_refl.
  - intros r [].
  - intros r [].
Qed.

Lemma propagation_step_infects_trusted_only_witness :
  let w := Scenario.world Scenario.islands Scenario.noDraws in
  let r := simulatePropagationStep [0%nat] Scenario.viral 0 w in
  In 1%nat (newInfections (fst r)) /\
  exists iref, In iref [0%nat] /\ trustsRef (graph w) iref 1%nat.
Proof.
  assert (Hin : In 1%nat
                  (newInfections
                     (fst (simulatePropagationStep [0%nat] Scenario.viral 0
                             (Scenario.world Scenario.islands Scenario.noDraws)))))
    by (vm_compute; auto).
  split; [exact Hin|].
  exact (propagation_step_infects_trusted_only [0%nat] Scenario.viral 0
           (Scenario.world Scenario.islands Scenario.noDraws) 1%nat Hin).
Defined.

(* ------------------------------------------------------------------ *)
(** ** game-engine.ts: meme mutation *)

Section Mutation.
Local Open Scope Q_scope.

(** X23: mutating a meme whose attributes are in the schema's ranges, for a
    target whose attributes are in range, gives a meme whose attributes are
    in range again; its complexity is at least 0.1 and its factual accuracy
    at least 0.05. *)
Theorem mutateMeme_stays_in_range (now : string) (meme : Meme.t)
    (targetNode : Node.t) :
  meme_in_range meme -> node_in_range targetNode ->
  meme_in_range (mutateMeme now meme targetNode) /\
  0.1 <= complexity (Meme.attributes (mutateMeme now meme targetNode)) /\
  0.05 <= factual_accuracy (Meme.attributes (mutateMeme now meme targetNode)).
Proof.
  unfold meme_in_range, node_in_range, mutateMeme. cbv zeta.
  cbn [Meme.attributes political_bias emotional_intensity factual_accuracy
       complexity virality_factor source_credibility].
  intros (Hb & He & Hf & Hc & Hv & Hs) (Hl & _).
  destruct (min_cases 1.0 (emotional_intensity (Meme.attributes meme) + 0.15))
    as [[A1 ->]|[A1 ->]];
  destruct (min_cases 1.0 (virality_factor (Meme.attributes meme) + 0.15))
    as [[A2 ->]|[A2 ->]];
  destruct (max_cases 0.1 (complexity (Meme.attributes meme) - 0.15))
    as [[A3 ->]|[A3 ->]];
  destruct (max_cases 0.05 (factual_accuracy (Meme.attributes meme) - 0.15 * 0.5))
    as [[A4 ->]|[A4 ->]];
  destruct (min_cases 1.0 (source_credibility (Meme.attributes meme) + 0.15 * 0.5))
    as [[A5 ->]|[A5 ->]];
  (split; [split; [lra|]; split; [lra|]; split; [lra|]; split; [lra|];
           split; lra
          | split; lra]).
Qed.

Lemma mutateMeme_stays_in_range_witness :
  meme_in_range Scenario.viral /\
  node_in_range (Sample.plain) /\
  meme_in_range
    (mutateMeme "0" Scenario.viral
       (Sample.plain)) /\
  0.1 <= complexity
           (Meme.attributes
              (mutateMeme "0" Scenario.viral
                 (Sample.plain))) /\
  0.05 <= factual_accuracy
            (Meme.attributes
               (mutateMeme "0" Scenario.viral
                  (Sample.plain))).
Proof.
  assert (Hm : meme_in_range Scenario.viral)
    by (vm_compute; intuition discriminate).
  assert (Hn : node_in_range
                 (Sample.plain))
    by (vm_compute; intuition discriminate).
  split; [exact Hm|]. split; [exact Hn|].
  exact (mutateMeme_stays_in_range "0" Scenario.viral
           (Sample.plain) Hm Hn).
Defined.

End Mutation.
